(** * KeyHub: the key-tree synchronisation engine

    A shallow embedding of the translation-catalogue core of KeyHub
    (src/ipc/translations.ts, the key-intake HTTP endpoint of
    src/ipc/server.ts and src/components/home/tree-utils.ts), together with
    the properties its specification states about it and further
    properties that the code itself shows.

    Modelling conventions.
    - A JSON document is a tree of plain objects with primitive leaves
      (strings, integers, booleans, null).  Arrays do not occur in
      translation catalogues and are left out of the model.
    - A JavaScript object is an association list kept in the order in which
      [Object.keys] enumerates it: array-index keys first, in ascending
      numeric order, then every other key in insertion order
      (ECMAScript, OrdinaryOwnPropertyKeys).  Property names are ordinary own
      properties; names inherited from [Object.prototype] are not modelled.
    - [String.prototype.localeCompare] depends on the ICU collation of the
      host; it is an interface ([Collator]) with the laws every collation
      satisfies, and one concrete instance for ASCII text.
    - The file system is a finite map from paths to file contents; a file
      whose text does not parse is [Garbage].  Serialising with
      [JSON.stringify] and parsing back is the identity on documents;
      writing a file and creating a directory always succeed.  *)

From Stdlib Require Import ZArith NArith List String Ascii Bool Lia Sorted Permutation.
From stdpp Require Import base option list sorting strings gmap pretty.

Set Warnings "-register-all".

Local Open Scope string_scope.
Local Open Scope list_scope.

(** ** Strings *)

Module Str.

(** [s.split(sep)] for a one-character separator: never empty, [""]
    splits into [[""]]. *)
Fixpoint split (sep : ascii) (s : string) : list string :=
  match s with
  | EmptyString => [EmptyString]
  | String c s' =>
      if Ascii.eqb c sep then EmptyString :: split sep s'
      else match split sep s' with
           | h :: t => String c h :: t
           | [] => [String c EmptyString]
           end
  end.

Definition split_dot : string -> list string := split ".".

(** [parts.join(".")]. *)
Fixpoint join_dot (parts : list string) : string :=
  match parts with
  | [] => EmptyString
  | [p] => p
  | p :: rest => p +:+ "." +:+ join_dot rest
  end.

Fixpoint has_dot (s : string) : bool :=
  match s with
  | EmptyString => false
  | String c s' => Ascii.eqb c "." || has_dot s'
  end.

Definition is_empty (s : string) : bool :=
  match s with EmptyString => true | _ => false end.

(** [name.endsWith(suffix)]. *)
Definition ends_with (suffix name : string) : bool :=
  let n := String.length name in
  let m := String.length suffix in
  (m <=? n)%nat && String.eqb (String.substring (n - m) m name) suffix.

(** [path.basename(name, ext)] for a name without separators. *)
Definition basename (name ext : string) : string :=
  if ends_with ext name
  then String.substring 0 (String.length name - String.length ext) name
  else name.

(** [path.join(dir, name)] for a normalised [dir] and a plain [name]. *)
Definition path_join (dir name : string) : string := dir +:+ "/" +:+ name.

End Str.

(** ** JSON values and JavaScript objects *)

Inductive json : Type :=
  | JNull
  | JBool (b : bool)
  | JNum (n : Z)
  | JStr (s : string)
  | JObj (o : list (string * json)).

(** An object with values of type [A], in enumeration order. *)
Abbreviation obj A := (list (string * A)).

Module Obj.

Definition digit_of (c : ascii) : option N :=
  let n := N_of_ascii c in
  if (48 <=? n)%N && (n <=? 57)%N then Some (n - 48)%N else None.

Fixpoint digits_value (s : string) (acc : N) : option N :=
  match s with
  | EmptyString => Some acc
  | String c s' =>
      match digit_of c with
      | Some d => digits_value s' (10 * acc + d)%N
      | None => None
      end
  end.

(** A property name [P] is an array index when [ToString(ToUint32(P))]
    is [P] and the number is below [2^32 - 1]: the canonical decimal form,
    without sign or leading zero. *)
Definition array_index (s : string) : option N :=
  match digits_value s 0 with
  | Some n =>
      if (n <? 4294967295)%N
      then if String.eqb (pretty n) s then Some n else None
      else None
  | None => None
  end.

Section Ops.
Context {A : Type}.

(** [o[k]] on own properties. *)
Fixpoint get (k : string) (o : obj A) : option A :=
  match o with
  | [] => None
  | (k', v) :: r => if String.eqb k k' then Some v else get k r
  end.

(** [k in o]. *)
Definition has (k : string) (o : obj A) : bool :=
  match get k o with Some _ => true | None => false end.

Fixpoint replace (k : string) (v : A) (o : obj A) : obj A :=
  match o with
  | [] => []
  | (k', v') :: r =>
      if String.eqb k k' then (k', v) :: r else (k', v') :: replace k v r
  end.

Fixpoint insert_index (n : N) (k : string) (v : A) (o : obj A) : obj A :=
  match o with
  | [] => [(k, v)]
  | (k', v') :: r =>
      match array_index k' with
      | Some m => if (m <? n)%N then (k', v') :: insert_index n k v r
                  else (k, v) :: o
      | None => (k, v) :: o
      end
  end.

(** [o[k] = v]: an existing property keeps its place; a new array index
    goes to its numeric position; any other new name goes last. *)
Definition set (k : string) (v : A) (o : obj A) : obj A :=
  if has k o then replace k v o
  else match array_index k with
       | Some n => insert_index n k v o
       | None => o ++ [(k, v)]
       end.

(** [delete o[k]]. *)
Fixpoint delete (k : string) (o : obj A) : obj A :=
  match o with
  | [] => []
  | (k', v) :: r =>
      if String.eqb k k' then delete k r else (k', v) :: delete k r
  end.

(** [Object.keys(o)]. *)
Definition keys (o : obj A) : list string := map fst o.

(** [Object.assign(target, source)]. *)
Definition assign (target source : obj A) : obj A :=
  fold_left (fun acc kv => set (fst kv) (snd kv) acc) source target.

(** The object built by assigning the entries in order to [{}]
    ([Object.fromEntries]). *)
Definition from_entries (es : list (string * A)) : obj A := assign [] es.

End Ops.
End Obj.

(** ** Collation: [a.localeCompare(b, ...)] *)

(** [localeCompare] is the comparison with the default options (the
    collation tells case apart), [localeCompareBase] the one with
    [{sensitivity: "base"}] (letters that differ only by case or accent
    compare equal).  Both are total preorders, and the default comparison
    only breaks the ties of the base one. *)
Class Collator := {
  localeCompare : string -> string -> comparison;
  localeCompareBase : string -> string -> comparison;
  localeCompare_opp : forall a b,
    localeCompare b a = CompOpp (localeCompare a b);
  localeCompare_trans : forall a b c,
    localeCompare a b <> Gt -> localeCompare b c <> Gt ->
    localeCompare a c <> Gt;
  localeCompareBase_opp : forall a b,
    localeCompareBase b a = CompOpp (localeCompareBase a b);
  localeCompareBase_trans : forall a b c,
    localeCompareBase a b <> Gt -> localeCompareBase b c <> Gt ->
    localeCompareBase a c <> Gt;
  localeCompare_refines : forall a b,
    localeCompareBase a b = Lt -> localeCompare a b = Lt
}.

(** [Array.prototype.sort(cmp)]: a stable sort; with a consistent
    comparator every stable sort returns the same array, here computed by
    insertion from the right. *)
Module JsArray.
Section Sort.
Context {A : Type} (cmp : A -> A -> comparison).

Fixpoint insert (x : A) (l : list A) : list A :=
  match l with
  | [] => [x]
  | y :: r => match cmp x y with
              | Gt => y :: insert x r
              | _ => x :: l
              end
  end.

Fixpoint sort (l : list A) : list A :=
  match l with
  | [] => []
  | x :: r => insert x (sort r)
  end.

End Sort.
End JsArray.

(** ** The flattening codec (src/ipc/translations.ts) *)

Abbreviation FlatJson := (obj string).

(** [String(v ?? "")] for a leaf. *)
Definition js_String (v : json) : string :=
  match v with
  | JNull => ""
  | JBool true => "true"
  | JBool false => "false"
  | JNum n => pretty n
  | JStr s => s
  | JObj _ => "[object Object]"
  end.

(** [prefix ? `${prefix}.${k}` : k] *)
Definition fullKey (prefix k : string) : string :=
  if Str.is_empty prefix then k else prefix +:+ "." +:+ k.

Fixpoint flattenJson (j : json) (prefix : string) : FlatJson :=
  match j with
  | JObj o =>
      (fix entries (es : list (string * json)) (result : FlatJson) : FlatJson :=
         match es with
         | [] => result
         | (k, v) :: es' =>
             entries es'
               match v with
               | JObj _ => Obj.assign result (flattenJson v (fullKey prefix k))
               | _ => Obj.set (fullKey prefix k) (js_String v) result
               end
         end) o []
  | _ => []
  end.

(** The loop of [flattenJson] over the entries of one object. *)
Fixpoint flatten_entries (prefix : string) (es : list (string * json))
    (result : FlatJson) : FlatJson :=
  match es with
  | [] => result
  | (k, v) :: es' =>
      flatten_entries prefix es'
        match v with
        | JObj _ => Obj.assign result (flattenJson v (fullKey prefix k))
        | _ => Obj.set (fullKey prefix k) (js_String v) result
        end
  end.

(** [setNestedValue] below the split: the walk that creates intermediate
    objects and the final assignment. *)
Fixpoint set_path (parts : list string) (value : json) (current : obj json)
    : obj json :=
  match parts with
  | [] => current
  | [last] => Obj.set last value current
  | p :: rest =>
      let child := match Obj.get p current with
                   | Some (JObj c) => c
                   | _ => []
                   end in
      Obj.set p (JObj (set_path rest value child)) current
  end.

Definition setNestedValue (o : obj json) (dottedKey : string) (value : string)
    : obj json :=
  set_path (Str.split_dot dottedKey) (JStr value) o.

(** What a call does: it returns a value or throws a [TypeError]. *)
Inductive outcome (A : Type) : Type :=
  | Returned (a : A)
  | Threw.
Arguments Returned {A} a.
Arguments Threw {A}.

(** [typeof v === "object"] ([typeof null] is ["object"] too). *)
Definition typeof_object (v : json) : bool :=
  match v with
  | JObj _ | JNull => true
  | _ => false
  end.

(** One [{parent, key}] record of [removeNestedKey]'s stack. *)
Record frame := Frame { parent : obj json; key : string }.

Inductive walk_result :=
  | EarlyReturn
  | Reached (current : obj json) (stack : list frame)
  | TypeError.

(** The first loop of [removeNestedKey] followed by the [delete]: the
    stack grows at its head, so its head is the deepest ancestor. *)
Fixpoint walk (parts : list string) (current : json) (stack : list frame)
    : walk_result :=
  match parts with
  | [] => EarlyReturn
  | [last] =>
      match current with
      | JObj o => Reached (Obj.delete last o) stack
      | _ => TypeError
      end
  | p :: rest =>
      match current with
      | JObj o =>
          match Obj.get p o with
          | Some v =>
              if typeof_object v then walk rest v (Frame o p :: stack)
              else EarlyReturn
          | None => EarlyReturn
          end
      | _ => TypeError
      end
  end.

(** The ancestors above [child] see the mutated child through their
    reference to it. *)
Fixpoint plug (child : obj json) (stack : list frame) : obj json :=
  match stack with
  | [] => child
  | Frame parent key :: up => plug (Obj.set key (JObj child) parent) up
  end.

(** The second loop: bottom-up, delete the child while it is empty and
    [break] at the first one that is not. *)
Fixpoint cleanup (child : obj json) (stack : list frame) : obj json :=
  match stack with
  | [] => child
  | Frame parent key :: up =>
      if (length (Obj.keys child) =? 0)%nat
      then cleanup (Obj.delete key parent) up
      else plug child stack
  end.

Definition removeNestedKey (o : obj json) (dottedKey : string)
    : outcome (obj json) :=
  match walk (Str.split_dot dottedKey) (JObj o) [] with
  | EarlyReturn => Returned o
  | Reached current stack => Returned (cleanup current stack)
  | TypeError => Threw
  end.

Section SortDeep.
Context `{Collator}.

Definition by_key {A : Type} (a b : string * A) : comparison :=
  localeCompareBase (fst a) (fst b).

(** [sortDeep]: the keys are sorted, then assigned in that order to a
    fresh object, the nested objects sorted the same way. *)
Fixpoint sortDeep_value (v : json) : json :=
  match v with
  | JObj o =>
      JObj (Obj.from_entries
              (JsArray.sort by_key
                 ((fix values (es : list (string * json)) :=
                     match es with
                     | [] => []
                     | (k, val) :: es' => (k, sortDeep_value val) :: values es'
                     end) o)))
  | _ => v
  end.

Definition sortDeep (o : obj json) : obj json :=
  Obj.from_entries
    (JsArray.sort by_key (map (fun kv => (fst kv, sortDeep_value (snd kv))) o)).

End SortDeep.

(** ** Settings and the file system *)

Record TranslationFile := {
  absolutePath : string;
  namespace : string
}.

Record TranslationLanguage := {
  code : string;
  files : list TranslationFile
}.

(** [settings.folderStructure]: the code only tests [=== "flat"]. *)
Inductive FolderStructure := Namespaced | Flat.

Record AppSettings := {
  rootFolder : option string;
  languages : list TranslationLanguage;
  folderStructure : FolderStructure;
  serverPort : Z;
  serverAutoStart : bool;
  deeplApiKey : string
}.

(** What a file holds: a JSON object, or text that [JSON.parse] rejects. *)
Inductive content :=
  | Parsed (o : obj json)
  | Garbage.

(** The persisted settings, the files and directories on disk, and the
    calls made to [notifyRenderer] so far (latest first). *)
Record World := {
  store : AppSettings;
  disk : gmap string content;
  dirs : gset string;
  notified : list (string * list string)
}.

(** Modelled from the spec: [loadSettings] and [saveSettings] of
    src/settings.ts, which is not part of the sources; the settings
    document is process-wide state, read fresh at the start of each
    operation and persisted immediately after each structural change. *)
Definition loadSettings (w : World) : AppSettings := store w.

Definition saveSettings (settings : AppSettings) (w : World) : World :=
  {| store := settings; disk := disk w; dirs := dirs w;
     notified := notified w |}.

Definition existsSync (path : string) (w : World) : bool :=
  bool_decide (is_Some (disk w !! path)) || bool_decide (path ∈ dirs w).

Definition writeFile (path : string) (c : content) (w : World) : World :=
  {| store := store w; disk := <[path := c]> (disk w); dirs := dirs w;
     notified := notified w |}.

Definition mkdirSync (path : string) (w : World) : World :=
  {| store := store w; disk := disk w; dirs := {[path]} ∪ dirs w;
     notified := notified w |}.

(** [readJsonFile]: a missing or unparsable file reads as [{}]. *)
Definition readJsonFile (filePath : string) (w : World) : obj json :=
  match disk w !! filePath with
  | Some (Parsed o) => o
  | _ => []
  end.

(** [rootFolder] is used when it is truthy: neither [null] nor [""]. *)
Definition truthy_root (settings : AppSettings) : option string :=
  match rootFolder settings with
  | Some r => if Str.is_empty r then None else Some r
  | None => None
  end.

Definition find_language (langCode : string) (ls : list TranslationLanguage)
    : option TranslationLanguage :=
  List.find (fun l => String.eqb (code l) langCode) ls.

Definition find_file (ns : string) (fs : list TranslationFile)
    : option TranslationFile :=
  List.find (fun f => String.eqb (namespace f) ns) fs.

(** [lang.files.push(file)] on the language that [find] returned: the
    first one with that code. *)
Fixpoint push_file (langCode : string) (file : TranslationFile)
    (ls : list TranslationLanguage) : list TranslationLanguage :=
  match ls with
  | [] => []
  | l :: r =>
      if String.eqb (code l) langCode
      then {| code := code l; files := files l ++ [file] |} :: r
      else l :: push_file langCode file r
  end.

Definition with_languages (ls : list TranslationLanguage)
    (settings : AppSettings) : AppSettings :=
  {| rootFolder := rootFolder settings; languages := ls;
     folderStructure := folderStructure settings;
     serverPort := serverPort settings;
     serverAutoStart := serverAutoStart settings;
     deeplApiKey := deeplApiKey settings |}.

Section Engine.
Context `{Collator}.

(** [writeJsonFile]: every write goes through [sortDeep]. *)
Definition writeJsonFile (filePath : string) (o : obj json) (w : World)
    : World :=
  writeFile filePath (Parsed (sortDeep o)) w.

(** [ensureFile]: the in-memory settings are threaded with the world. *)
Definition ensureFile (settings : AppSettings) (langCode ns : string)
    (w : World) : AppSettings * World * option TranslationFile :=
  match find_language langCode (languages settings) with
  | None => (settings, w, None)
  | Some lang =>
      match find_file ns (files lang), truthy_root settings with
      | Some file, _ => (settings, w, Some file)
      | None, None => (settings, w, None)
      | None, Some root =>
          let '(filePath, w1) :=
            match folderStructure settings with
            | Flat => (Str.path_join root (langCode +:+ ".json"), w)
            | Namespaced =>
                let dirPath := Str.path_join root langCode in
                (Str.path_join dirPath (ns +:+ ".json"),
                 if existsSync dirPath w then w else mkdirSync dirPath w)
            end in
          let w2 := if existsSync filePath w1 then w1
                    else writeFile filePath (Parsed []) w1 in
          let file := {| absolutePath := filePath; namespace := ns |} in
          let settings' :=
            with_languages (push_file langCode file (languages settings))
              settings in
          (settings', saveSettings settings' w2, Some file)
      end
  end.

(** The body of the loop of [translations:addKey] for one language. *)
Definition addKey_step (ns key : string) (st : AppSettings * World)
    (langCode : string) : AppSettings * World :=
  let '(settings, w, file) := ensureFile (fst st) langCode ns (snd st) in
  match file with
  | None => (settings, w)
  | Some file =>
      let json := readJsonFile (absolutePath file) w in
      let flat := flattenJson (JObj json) "" in
      if Obj.has key flat then (settings, w)
      else (settings,
            writeJsonFile (absolutePath file) (setNestedValue json key "") w)
  end.

(** [translations:addKey]. *)
Definition addKey (ns key : string) (w : World) : World :=
  let settings := loadSettings w in
  snd (fold_left (addKey_step ns key) (map code (languages settings))
         (settings, w)).


(** [translations:removeKey]: an exception ends the loop and rejects the
    call; what was written before stays written. *)
Fixpoint removeKey_loop (ns key : string) (ls : list TranslationLanguage)
    (w : World) : outcome unit * World :=
  match ls with
  | [] => (Returned tt, w)
  | lang :: rest =>
      match find_file ns (files lang) with
      | None => removeKey_loop ns key rest w
      | Some file =>
          match removeNestedKey (readJsonFile (absolutePath file) w) key with
          | Returned json =>
              removeKey_loop ns key rest
                (writeJsonFile (absolutePath file) json w)
          | Threw => (Threw, w)
          end
      end
  end.

Definition removeKey (ns key : string) (w : World) : outcome unit * World :=
  removeKey_loop ns key (languages (loadSettings w)) w.

(** *** [translations:readAll] *)

Record KeyData := {
  kd_key : string;
  kd_values : obj (option string)
}.

Record NamespaceData := {
  nd_namespace : string;
  nd_keys : list KeyData
}.

(** [new Set(...)] filled by [add] in iteration order. *)
Definition set_add (x : string) (s : list string) : list string :=
  if existsb (String.eqb x) s then s else s ++ [x].

Definition set_add_all (xs s : list string) : list string :=
  fold_left (fun acc x => set_add x acc) xs s.

Definition allNamespaces (settings : AppSettings) : list string :=
  set_add_all
    (concat (map (fun l => map namespace (files l)) (languages settings))) [].





End Engine.

(** ** Importing a root folder *)

Inductive entry_kind := IsFile | IsDirectory | IsOther.

(** A [Dirent] of [fs.readdirSync(path, {withFileTypes: true})]. *)
Record Dirent := {
  name : string;
  kind : entry_kind
}.

Definition is_lower (c : ascii) : bool :=
  let n := N_of_ascii c in (97 <=? n)%N && (n <=? 122)%N.

Definition is_upper (c : ascii) : bool :=
  let n := N_of_ascii c in (65 <=? n)%N && (n <=? 90)%N.

(** [/^[a-z]{2}-[A-Z]{2}$/.test(s)] *)
Definition LOCALE_REGEX (s : string) : bool :=
  match s with
  | String a (String b (String "-" (String c (String d EmptyString)))) =>
      is_lower a && is_lower b && is_upper c && is_upper d
  | _ => false
  end.

(** [/^[a-z]{2}-[A-Z]{2}\.json$/.test(s)] *)
Definition LOCALE_JSON_REGEX (s : string) : bool :=
  match s with
  | String a (String b (String "-" (String c (String d ext)))) =>
      is_lower a && is_lower b && is_upper c && is_upper d
      && String.eqb ext ".json"
  | _ => false
  end.

Definition DEFAULT_NAMESPACE : string := "default".

(** The result of [dialog.showOpenDialog]. *)
Record OpenDialogResult := {
  canceled : bool;
  filePaths : list string
}.

Section ImportFolder.
(** [fs.readdirSync]: the entries of a directory, in the order the
    operating system lists them. *)
Variable readdirSync : string -> list Dirent.

Definition scanJsonFiles (dirPath : string) : list TranslationFile :=
  map (fun n => {| absolutePath := Str.path_join dirPath n;
                   namespace := Str.basename n ".json" |})
    (List.filter (Str.ends_with ".json") (map name (readdirSync dirPath))).

(** First loop: locale subdirectories that hold at least one JSON file. *)
Definition scan_namespaced (rootPath : string)
    (acc : list TranslationLanguage) (entry : Dirent)
    : list TranslationLanguage :=
  match kind entry with
  | IsDirectory =>
      if LOCALE_REGEX (name entry) then
        match scanJsonFiles (Str.path_join rootPath (name entry)) with
        | [] => acc
        | fs => acc ++ [{| code := name entry; files := fs |}]
        end
      else acc
  | _ => acc
  end.

(** Second loop: locale-named JSON files of the root. *)
Definition scan_flat (rootPath : string) (acc : list TranslationLanguage)
    (entry : Dirent) : list TranslationLanguage :=
  match kind entry with
  | IsFile =>
      if LOCALE_JSON_REGEX (name entry) then
        acc ++ [{| code := Str.basename (name entry) ".json";
                   files := [{| absolutePath :=
                                  Str.path_join rootPath (name entry);
                                namespace := DEFAULT_NAMESPACE |}] |}]
      else acc
  | _ => acc
  end.

(** [translations:importFolder]: [None] is the [null] returned when the
    dialog is cancelled. *)
Definition importFolder (result : OpenDialogResult) (w : World)
    : option AppSettings * World :=
  match canceled result, filePaths result with
  | false, rootPath :: _ =>
      let entries := readdirSync rootPath in
      let settings := loadSettings w in
      let nsLangs := fold_left (scan_namespaced rootPath) entries [] in
      let '(langs, mode) :=
        match nsLangs with
        | _ :: _ => (nsLangs, Namespaced)
        | [] =>
            let flatLangs := fold_left (scan_flat rootPath) entries [] in
            (flatLangs,
             match flatLangs with _ :: _ => Flat | [] => Namespaced end)
        end in
      let settings' :=
        {| rootFolder := Some rootPath; languages := langs;
           folderStructure := mode;
           serverPort := serverPort settings;
           serverAutoStart := serverAutoStart settings;
           deeplApiKey := deeplApiKey settings |} in
      (Some settings', saveSettings settings' w)
  | _, _ => (None, w)
  end.

End ImportFolder.

(** ** Languages and files of the settings (src/ipc/translations.ts) *)

(** [if (!fs.existsSync(filePath)) fs.writeFileSync(filePath, "{}")] *)
Definition create_if_missing (filePath : string) (w : World) : World :=
  if existsSync filePath w then w else writeFile filePath (Parsed []) w.

(** The loop of [translations:addLanguage] over the known namespaces, in
    namespaced mode. *)
Definition addLanguage_file (dirPath : string)
    (acc : list TranslationFile * World) (ns : string)
    : list TranslationFile * World :=
  let filePath := Str.path_join dirPath (ns +:+ ".json") in
  (fst acc ++ [{| absolutePath := filePath; namespace := ns |}],
   create_if_missing filePath (snd acc)).

(** [translations:addLanguage]: the settings returned and the world left. *)
Definition addLanguage (langCode : string) (w : World) : AppSettings * World :=
  let settings := loadSettings w in
  match truthy_root settings with
  | None => (settings, w)
  | Some root =>
      if existsb (fun l => String.eqb (code l) langCode) (languages settings)
      then (settings, w)
      else
        let '(files, w1) :=
          match folderStructure settings with
          | Flat =>
              let filePath := Str.path_join root (langCode +:+ ".json") in
              ([{| absolutePath := filePath;
                   namespace := DEFAULT_NAMESPACE |}],
               create_if_missing filePath w)
          | Namespaced =>
              let dirPath := Str.path_join root langCode in
              fold_left (addLanguage_file dirPath) (allNamespaces settings)
                ([], if existsSync dirPath w then w else mkdirSync dirPath w)
          end in
        let settings' :=
          with_languages
            (languages settings ++ [{| code := langCode; files := files |}])
            settings in
        (settings', saveSettings settings' w1)
  end.

(** [translations:removeLanguage]. *)
Definition removeLanguage (langCode : string) (w : World)
    : AppSettings * World :=
  let settings := loadSettings w in
  let settings' :=
    with_languages
      (List.filter (fun l => negb (String.eqb (code l) langCode))
         (languages settings))
      settings in
  (settings', saveSettings settings' w).

(** [lang.files = fs] on the language that [find] returned. *)
Fixpoint set_files (langCode : string) (fs : list TranslationFile)
    (ls : list TranslationLanguage) : list TranslationLanguage :=
  match ls with
  | [] => []
  | l :: r =>
      if String.eqb (code l) langCode
      then {| code := code l; files := fs |} :: r
      else l :: set_files langCode fs r
  end.

(** [translations:removeFile]. *)
Definition removeFile (langCode path : string) (w : World)
    : AppSettings * World :=
  let settings := loadSettings w in
  let ls :=
    match find_language langCode (languages settings) with
    | Some lang =>
        let kept :=
          List.filter (fun f => negb (String.eqb (absolutePath f) path))
            (files lang) in
        let ls1 := set_files langCode kept (languages settings) in
        match kept with
        | [] => List.filter (fun l => negb (String.eqb (code l) langCode)) ls1
        | _ :: _ => ls1
        end
    | None => languages settings
    end in
  let settings' := with_languages ls settings in
  (settings', saveSettings settings' w).

(** ** The key-intake HTTP endpoint (src/ipc/server.ts) *)

Module Http.

(** A request as [handleRequest] observes it: [parsed] is the value of
    [JSON.parse(body)] once the body has arrived, [None] when the parser
    throws. *)
Record Request := {
  method : string;
  url : option string;
  parsed : option json
}.

Record Response := {
  status : Z;
  headers : list (string * string);
  payload : option (obj json)
}.

Definition cors : list (string * string) :=
  [("Access-Control-Allow-Origin", "*");
   ("Access-Control-Allow-Methods", "GET, POST, OPTIONS");
   ("Access-Control-Allow-Headers", "Content-Type")].

Definition json_response (st : Z) (o : obj json) : Response :=
  {| status := st;
     headers := cors ++ [("Content-Type", "application/json")];
     payload := Some o |}.

(** [url.match(/^\/locales\/([^/]+)\/([^/]+)$/)] *)
Definition match_locales (u : string) : option (string * string) :=
  match Str.split "/" u with
  | [e; l; lng; ns] =>
      if Str.is_empty e && String.eqb l "locales"
         && negb (Str.is_empty lng) && negb (Str.is_empty ns)
      then Some (lng, ns) else None
  | _ => None
  end.

(** The property name a value denotes in [key in flat]; [None] is
    [undefined]. *)
Definition ToPropertyKey (v : option json) : string :=
  match v with
  | None => "undefined"
  | Some JNull => "null"
  | Some v => js_String v
  end.

(** [o.key] in the destructuring of the parsed body: [None] is
    [undefined]; primitives have no such property. *)
Definition property (k : string) (v : json) : option json :=
  match v with
  | JObj o => Obj.get k o
  | _ => None
  end.

Section Handler.
Context `{Collator}.

(** The state of the [try] block. *)
Record intake := {
  in_settings : AppSettings;
  in_world : World;
  addedKeys : list string
}.

(** The loop over the languages; [Threw] carries the world as the
    exception leaves it. *)
Fixpoint intake_loop (ns : string) (key : option json) (codes : list string)
    (st : intake) : outcome intake * World :=
  match codes with
  | [] => (Returned st, in_world st)
  | langCode :: rest =>
      let '(settings, w, file) :=
        ensureFile (in_settings st) langCode ns (in_world st) in
      match file with
      | None =>
          intake_loop ns key rest
            {| in_settings := settings; in_world := w;
               addedKeys := addedKeys st |}
      | Some file =>
          let json := readJsonFile (absolutePath file) w in
          let flat := flattenJson (JObj json) "" in
          if Obj.has (ToPropertyKey key) flat then
            intake_loop ns key rest
              {| in_settings := settings; in_world := w;
                 addedKeys := addedKeys st |}
          else
            match key with
            | Some (JStr k) =>
                intake_loop ns key rest
                  {| in_settings := settings;
                     in_world :=
                       writeJsonFile (absolutePath file)
                         (setNestedValue json k "") w;
                     addedKeys :=
                       if existsb (String.eqb k) (addedKeys st)
                       then addedKeys st else addedKeys st ++ [k] |}
            | _ => (Threw, w)
            end
      end
  end.

(** [if (defaultValue && typeof defaultValue === "string") ...] *)
Definition default_value_step (langCode ns : string)
    (key defaultValue : option json) (st : intake) : outcome intake * World :=
  match defaultValue with
  | Some (JStr d) =>
      if Str.is_empty d then (Returned st, in_world st)
      else
        let '(settings, w, file) :=
          ensureFile (in_settings st) langCode ns (in_world st) in
        match file with
        | None =>
            (Returned {| in_settings := settings; in_world := w;
                         addedKeys := addedKeys st |}, w)
        | Some file =>
            match key with
            | Some (JStr k) =>
                let w' :=
                  writeJsonFile (absolutePath file)
                    (setNestedValue (readJsonFile (absolutePath file) w) k d)
                    w in
                (Returned {| in_settings := settings; in_world := w';
                             addedKeys := addedKeys st |}, w')
            | _ => (Threw, w)
            end
        end
  | _ => (Returned st, in_world st)
  end.

Definition notifyRenderer (ns : string) (keys : list string) (w : World)
    : World :=
  {| store := store w; disk := disk w; dirs := dirs w;
     notified := (ns, keys) :: notified w |}.

Definition bad_request : Response :=
  json_response 400 [("error", JStr "Invalid JSON body")].

(** The [end] listener of a routed request. *)
Definition on_end (langCode ns : string) (body : option json) (w : World)
    : Response * World :=
  match body with
  | None | Some JNull => (bad_request, w)
  | Some v =>
      let key := property "key" v in
      let defaultValue := property "defaultValue" v in
      let settings := loadSettings w in
      match intake_loop ns key (map code (languages settings))
              {| in_settings := settings; in_world := w; addedKeys := [] |}
      with
      | (Threw, w1) => (bad_request, w1)
      | (Returned st1, _) =>
          match default_value_step langCode ns key defaultValue st1 with
          | (Threw, w2) => (bad_request, w2)
          | (Returned st2, _) =>
              let w3 :=
                match addedKeys st2 with
                | [] => in_world st2
                | _ :: _ => notifyRenderer ns (addedKeys st2) (in_world st2)
                end in
              (json_response 200 [("ok", JBool true)], w3)
          end
      end
  end.

Definition handleRequest (req : Request) (w : World) : Response * World :=
  if String.eqb (method req) "OPTIONS" then
    ({| status := 204; headers := cors; payload := None |}, w)
  else
    match
      match url req with Some u => match_locales u | None => None end
    with
    | Some (langCode, ns) =>
        if String.eqb (method req) "POST"
        then on_end langCode ns (parsed req) w
        else (json_response 404
                [("error", JStr "Not found. Use POST /locales/:lng/:ns")], w)
    | None =>
        (json_response 404
           [("error", JStr "Not found. Use POST /locales/:lng/:ns")], w)
    end.

End Handler.
End Http.

(** ** The tree of keys (src/components/home/tree-utils.ts) *)

Module Tree.

Inductive TreeNode :=
  Node (segment fullKey : string) (children : list TreeNode)
       (values : option (obj (option string))).

Definition segment (n : TreeNode) : string :=
  match n with Node s _ _ _ => s end.

Definition children (n : TreeNode) : list TreeNode :=
  match n with Node _ _ c _ => c end.

Section SortTree.
Context `{Collator}.

Definition by_segment (a b : TreeNode) : comparison :=
  localeCompare (segment a) (segment b).

(** [sortTree] on the children of one node. *)
Fixpoint sortTree_node (n : TreeNode) : TreeNode :=
  match n with
  | Node s f c v =>
      Node s f
        (JsArray.sort by_segment
           ((fix each (l : list TreeNode) :=
               match l with
               | [] => []
               | x :: r => sortTree_node x :: each r
               end) c)) v
  end.

(** [sortTree]: the array is sorted by segment and so are, recursively,
    the children of each of its nodes. *)
Definition sortTree (nodes : list TreeNode) : list TreeNode :=
  JsArray.sort by_segment (map sortTree_node nodes).

End SortTree.
End Tree.

(** ** The tree as the home screen lists it *)

Module TreeView.
Import Tree.

(** [node.fullKey] and [node.values]. *)
Definition fullKey_of (n : TreeNode) : string :=
  match n with Node _ f _ _ => f end.

Definition values (n : TreeNode) : option (obj (option string)) :=
  match n with Node _ _ _ v => v end.

(** One pass of the inner loop of [buildTree] and what follows it: the
    node for [parts[i]] is found among the siblings or pushed after them,
    takes the values when the segment is the last one, and the rest of the
    key goes into its children. *)
Fixpoint insert_entry (parts : list string) (pathSoFar : string)
    (vals : obj (option string)) (siblings : list TreeNode)
    : list TreeNode :=
  match parts with
  | [] => siblings
  | p :: rest =>
      let path := fullKey pathSoFar p in
      let isLast := match rest with [] => true | _ :: _ => false end in
      (fix visit (l : list TreeNode) : list TreeNode :=
         match l with
         | [] =>
             [Node p path (insert_entry rest path vals [])
                (if isLast then Some vals else None)]
         | Node s f c v :: r =>
             if String.eqb s p
             then Node s f (insert_entry rest path vals c)
                    (if isLast then Some vals else v) :: r
             else Node s f c v :: visit r
         end) siblings
  end.

Definition buildTree (keys : list KeyData) : list TreeNode :=
  fold_left
    (fun root entry =>
       insert_entry (Str.split_dot (kd_key entry)) "" (kd_values entry) root)
    keys [].

(** [values[c] === null || values[c] === ""]: a language that the values
    do not mention is not missing. *)
Definition is_missing (vals : obj (option string)) (c : string) : bool :=
  match Obj.get c vals with
  | Some None => true
  | Some (Some s) => Str.is_empty s
  | None => false
  end.

Fixpoint treeHasMissing (node : TreeNode) (langCodes : list string) : bool :=
  match node with
  | Node _ _ c (Some vals) => existsb (is_missing vals) langCodes
  | Node _ _ c None =>
      (fix some (l : list TreeNode) : bool :=
         match l with
         | [] => false
         | child :: r => treeHasMissing child langCodes || some r
         end) c
  end.

(** [s.includes(q)]. *)
Fixpoint includes (q s : string) : bool :=
  String.prefix q s
  || match s with
     | EmptyString => false
     | String _ s' => includes q s'
     end.

Section Matching.
(** [String.prototype.toLowerCase], the case mapping of the host. *)
Variable toLowerCase : string -> string.

Fixpoint treeMatchesSearch (node : TreeNode) (q : string) : bool :=
  match node with
  | Node s f c _ =>
      includes q (toLowerCase s) || includes q (toLowerCase f)
      || (fix some (l : list TreeNode) : bool :=
            match l with
            | [] => false
            | child :: r => treeMatchesSearch child q || some r
            end) c
  end.

(** The copy [{...node, children: filterTree(node.children, q)}]. *)
Fixpoint filterTree_node (q : string) (node : TreeNode) : TreeNode :=
  match node with
  | Node s f c v =>
      Node s f
        ((fix each (l : list TreeNode) : list TreeNode :=
            match l with
            | [] => []
            | child :: r =>
                if treeMatchesSearch child q
                then filterTree_node q child :: each r
                else each r
            end) c) v
  end.

Fixpoint filterTree (nodes : list TreeNode) (q : string) : list TreeNode :=
  match nodes with
  | [] => []
  | node :: r =>
      if treeMatchesSearch node q
      then filterTree_node q node :: filterTree r q
      else filterTree r q
  end.

End Matching.

(** The pair [{completed, missing}] that [countKeys] returns. *)
Record Counts := {
  completed : nat;
  missing : nat
}.

Definition add_counts (a b : Counts) : Counts :=
  {| completed := completed a + completed b;
     missing := missing a + missing b |}.

(** What one node adds to the counters of [countKeys]. *)
Fixpoint countKeys_node (langCodes : list string) (n : TreeNode) : Counts :=
  match n with
  | Node _ _ [] (Some vals) =>
      if existsb (is_missing vals) langCodes
      then {| completed := 0; missing := 1 |}
      else {| completed := 1; missing := 0 |}
  | Node _ _ c _ =>
      (fix each (l : list TreeNode) (acc : Counts) : Counts :=
         match l with
         | [] => acc
         | child :: r => each r (add_counts acc (countKeys_node langCodes child))
         end) c {| completed := 0; missing := 0 |}
  end.

Definition countKeys (nodes : list TreeNode) (langCodes : list string)
    : Counts :=
  fold_left (fun acc n => add_counts acc (countKeys_node langCodes n)) nodes
    {| completed := 0; missing := 0 |}.

(** The rows of type [leaf] and [branch]. *)
Inductive FlatRow :=
  | LeafRow (depth : nat) (segment fullKey namespace : string)
      (vals : option (obj (option string))) (hasMissing : bool)
  | BranchRow (depth : nat) (segment fullKey namespace : string)
      (expanded hasMissing : bool) (completedCount missingCount : nat).

(** The rows that [flattenTree] pushes for one node; [expanded] is the
    membership test of the set of expanded ids. *)
Fixpoint flattenTree_node (namespace : string) (expanded : string -> bool)
    (langCodes : list string) (forceExpand : bool) (depth : nat)
    (node : TreeNode) : list FlatRow :=
  match node with
  | Node s f c v =>
      let id := namespace +:+ ":" +:+ f in
      let isExpanded := forceExpand || expanded id in
      match c, v with
      | [], Some vals =>
          [LeafRow depth s f namespace v
             (existsb (is_missing vals) langCodes)]
      | _, _ =>
          let counts := countKeys [node] langCodes in
          BranchRow depth s f namespace isExpanded
            (treeHasMissing node langCodes)
            (completed counts) (missing counts)
          :: (if isExpanded
              then (fix each (l : list TreeNode) : list FlatRow :=
                      match l with
                      | [] => []
                      | child :: r =>
                          flattenTree_node namespace expanded langCodes
                            forceExpand (S depth) child ++ each r
                      end) c
              else [])
      end
  end.

(** [flattenTree]: the rows pushed onto [rows]. *)
Definition flattenTree (nodes : list TreeNode) (namespace : string)
    (depth : nat) (rows : list FlatRow) (expanded : string -> bool)
    (langCodes : list string) (forceExpand : bool) : list FlatRow :=
  rows ++ concat (map (flattenTree_node namespace expanded langCodes
                         forceExpand depth) nodes).

End TreeView.

(** ** The keys next to the selected one *)

Module Siblings.

(** [s.lastIndexOf(".")]; [None] is [-1]. *)
Fixpoint lastIndexOf_dot (s : string) : option nat :=
  match s with
  | EmptyString => None
  | String c s' =>
      match lastIndexOf_dot s' with
      | Some i => Some (S i)
      | None => if Ascii.eqb c "." then Some 0 else None
      end
  end.

(** [s.substring(n)]. *)
Definition substring_from (n : nat) (s : string) : string :=
  String.substring n (String.length s - n) s.

(** The prefix up to and with the last dot, [""] when there is none. *)
Definition parentPrefix (selectedKey : string) : string :=
  match lastIndexOf_dot selectedKey with
  | None => ""
  | Some dotIdx => String.substring 0 (dotIdx + 1) selectedKey
  end.

Definition getSiblingKeys (nsData : NamespaceData) (selectedKey : string)
    : list KeyData :=
  let parentPrefix := parentPrefix selectedKey in
  if Str.is_empty parentPrefix
  then List.filter (fun k => negb (Str.has_dot (kd_key k))) (nd_keys nsData)
  else List.filter
         (fun k =>
            String.prefix parentPrefix (kd_key k)
            && negb (Str.has_dot
                       (substring_from (String.length parentPrefix)
                          (kd_key k))))
         (nd_keys nsData).

End Siblings.

(** ** A concrete collation: case-folded code-point order *)

Module AsciiOrder.

Definition fold_case (c : ascii) : N :=
  let n := N_of_ascii c in
  if (65 <=? n)%N && (n <=? 90)%N then (n + 32)%N else n.

Definition folded (s : string) : list N :=
  map fold_case (list_ascii_of_string s).

Definition codes (s : string) : list N :=
  map N_of_ascii (list_ascii_of_string s).

Fixpoint lex (a b : list N) : comparison :=
  match a, b with
  | [], [] => Eq
  | [], _ :: _ => Lt
  | _ :: _, [] => Gt
  | x :: a', y :: b' =>
      match (x ?= y)%N with
      | Eq => lex a' b'
      | c => c
      end
  end.

(** Primary strength: case is ignored. *)
Definition base (a b : string) : comparison := lex (folded a) (folded b).

(** Default strength: a tie of [base] is broken by case, lower case
    first. *)
Definition variant (a b : string) : comparison :=
  match base a b with
  | Eq => lex (codes b) (codes a)
  | c => c
  end.

End AsciiOrder.

(** * Specification vocabulary *)

(** ** Paths into a document *)

(** The value that the segments [parts] lead to, through objects only. *)
Fixpoint at_path (parts : list string) (v : json) : option json :=
  match parts with
  | [] => Some v
  | p :: rest =>
      match v with
      | JObj o =>
          match Obj.get p o with
          | Some c => at_path rest c
          | None => None
          end
      | _ => None
      end
  end.

Definition is_empty_obj {A : Type} (o : obj A) : bool :=
  match o with [] => true | _ => false end.

(** The removal as the specification words it: delete the leaf, then,
    coming back up, drop every ancestor left without children and keep
    (with its pruned child) the first one that still has some. *)
Fixpoint prune_spec (parts : list string) (o : obj json) : obj json :=
  match parts with
  | [] => o
  | [leaf] => Obj.delete leaf o
  | p :: rest =>
      match Obj.get p o with
      | Some (JObj c) =>
          let c' := prune_spec rest c in
          if is_empty_obj c' then Obj.delete p o
          else Obj.set p (JObj c') o
      | _ => o
      end
  end.

(** ** Import mode detection, in the specification's words *)

Section Detection.
Variable readdirSync : string -> list Dirent.

Definition is_directory (e : Dirent) : bool :=
  match kind e with IsDirectory => true | _ => false end.

Definition is_file (e : Dirent) : bool :=
  match kind e with IsFile => true | _ => false end.

(** The namespaced scan in the specification's words: the subdirectories
    named like a locale, each with its JSON files, those without any left
    out. *)
Definition locale_directories (rootPath : string) (entries : list Dirent)
    : list TranslationLanguage :=
  List.filter (fun l => match files l with [] => false | _ :: _ => true end)
    (map (fun e => {| code := name e;
                      files := scanJsonFiles readdirSync
                                 (Str.path_join rootPath (name e)) |})
       (List.filter (fun e => is_directory e && LOCALE_REGEX (name e))
          entries)).

(** The flat scan: the top-level files named [<locale>.json], each a
    language with the single namespace [default]. *)
Definition locale_files (rootPath : string) (entries : list Dirent)
    : list TranslationLanguage :=
  map (fun e => {| code := Str.basename (name e) ".json";
                   files := [{| absolutePath :=
                                  Str.path_join rootPath (name e);
                                namespace := DEFAULT_NAMESPACE |}] |})
    (List.filter (fun e => is_file e && LOCALE_JSON_REGEX (name e)) entries).


End Detection.

(** ** Requests and responses *)



(** A world with one language and its empty file, and a request to its
    namespace. *)
Module HttpExamples.
Import Http.

Definition settings1 : AppSettings :=
  {| rootFolder := Some "/r";
     languages :=
       [{| code := "en-US";
           files := [{| absolutePath := "/r/en-US/common.json";
                        namespace := "common" |}] |}];
     folderStructure := Namespaced; serverPort := 5874;
     serverAutoStart := false; deeplApiKey := "" |}.

Definition world1 : World :=
  {| store := settings1;
     disk := {[ "/r/en-US/common.json" := Parsed [] ]};
     dirs := {[ "/r/en-US" ]}; notified := [] |}.

Definition post (body : option json) : Request :=
  {| method := "POST"; url := Some "/locales/en-US/common"; parsed := body |}.

End HttpExamples.

(** ** Orders *)

(** [a] is not after [b] for the comparator. *)
Definition not_after {A : Type} (cmp : A -> A -> comparison) (a b : A) : Prop :=
  cmp a b <> Gt.

Module JsOrder.
Section Entries.
Context {A : Type}.

Definition is_index (kv : string * A) : bool :=
  match Obj.array_index (fst kv) with Some _ => true | None => false end.

Definition not_index (kv : string * A) : bool := negb (is_index kv).

(** Both names are array indices, the first one the smaller. *)
Definition index_lt (a b : string * A) : Prop :=
  exists m n, Obj.array_index (fst a) = Some m
              /\ Obj.array_index (fst b) = Some n /\ (m < n)%N.

(** The array-index entries among [es], assigned in order to [acc]. *)
Definition index_fold (es : obj A) (acc : obj A) : obj A :=
  fold_left
    (fun acc kv =>
       match Obj.array_index (fst kv) with
       | Some n => Obj.insert_index n (fst kv) (snd kv) acc
       | None => acc
       end) es acc.

End Entries.
End JsOrder.

Section Order.
Context `{Collator}.

(** [a] does not come after [b] alphabetically, case ignored. *)
Definition alphabetical (a b : string) : Prop := localeCompareBase a b <> Gt.

Definition by_segment_le (a b : Tree.TreeNode) : Prop :=
  alphabetical (Tree.segment a) (Tree.segment b).

(** The children of every node are in alphabetical order. *)
Inductive sorted_tree : Tree.TreeNode -> Prop :=
  | sorted_node s f c v :
      StronglySorted by_segment_le c -> Forall sorted_tree c ->
      sorted_tree (Tree.Node s f c v).

(** The keys of every object are in alphabetical order. *)
Inductive sorted_json : json -> Prop :=
  | sorted_null : sorted_json JNull
  | sorted_bool b : sorted_json (JBool b)
  | sorted_num n : sorted_json (JNum n)
  | sorted_str s : sorted_json (JStr s)
  | sorted_obj o :
      StronglySorted alphabetical (Obj.keys o) ->
      Forall (fun kv => sorted_json (snd kv)) o ->
      sorted_json (JObj o).

(** No name occurs twice in an object, at any depth: what [JSON.parse]
    returns. *)
Inductive distinct_keys : json -> Prop :=
  | distinct_null : distinct_keys JNull
  | distinct_bool b : distinct_keys (JBool b)
  | distinct_num n : distinct_keys (JNum n)
  | distinct_str s : distinct_keys (JStr s)
  | distinct_obj o :
      List.NoDup (Obj.keys o) ->
      Forall (fun kv => distinct_keys (snd kv)) o ->
      distinct_keys (JObj o).


Definition sort_values (kv : string * json) : string * json :=
  (fst kv, sortDeep_value (snd kv)).

Definition by_key_le (a b : string * json) : Prop := by_key a b <> Gt.

(** The shape of what [sortDeep] returns: every object enumerates its
    array indices in ascending order, then its other names in alphabetical
    order. *)
Inductive canonical : json -> Prop :=
  | canonical_null : canonical JNull
  | canonical_bool b : canonical (JBool b)
  | canonical_num n : canonical (JNum n)
  | canonical_str s : canonical (JStr s)
  | canonical_obj o :
      List.NoDup (Obj.keys o) ->
      o = List.filter JsOrder.is_index o ++ List.filter JsOrder.not_index o ->
      StronglySorted JsOrder.index_lt (List.filter JsOrder.is_index o) ->
      StronglySorted by_key_le (List.filter JsOrder.not_index o) ->
      Forall (fun kv => canonical (snd kv)) o ->
      canonical (JObj o).

End Order.

(** ** The aggregate view *)

(** The flattened content of the file that a language has for a
    namespace, if it has one. *)
Definition flat_of (w : World) (ns : string) (lang : TranslationLanguage)
    : option FlatJson :=
  option_map
    (fun f => flattenJson (JObj (readJsonFile (absolutePath f) w)) "")
    (find_file ns (files lang)).

(** ** Adding a key *)

Section AddKeyVocabulary.
Context `{Collator}.
Variables ns key : string.

(** The content of a file that [addKey] has nothing to do to: it holds
    the key already, or writing the key again gives the same content. *)
Definition settled (c : obj json) : Prop :=
  Obj.has key (flattenJson (JObj c) "") = true
  \/ sortDeep (setNestedValue c key "") = c.

Definition settled_at (path : string) (w : World) : Prop :=
  exists c, disk w !! path = Some (Parsed c) /\ settled c.

(** Every parsed file is an object as [JSON.parse] returns it. *)
Definition disk_distinct (w : World) : Prop :=
  forall path c, disk w !! path = Some (Parsed c) -> distinct_keys (JObj c).

(** The part of the loop body after [ensureFile]. *)
Definition add_to_file (file : TranslationFile) (w : World) : World :=
  if Obj.has key
       (flattenJson (JObj (readJsonFile (absolutePath file) w)) "")
  then w
  else writeJsonFile (absolutePath file)
         (setNestedValue (readJsonFile (absolutePath file) w) key "") w.

(** The step for language [c] has nothing left to do in [st]. *)
Definition ready (st : AppSettings * World) (c : string) : Prop :=
  match find_language c (languages (fst st)) with
  | None => True
  | Some lang =>
      match find_file ns (files lang) with
      | Some f => settled_at (absolutePath f) (snd st)
      | None => truthy_root (fst st) = None
      end
  end.


End AddKeyVocabulary.

(** ** Flattening and re-nesting *)

(** Insert each flat entry into the document with [setNestedValue]. *)
Definition nest_into (doc : obj json) (flat : FlatJson) : obj json :=
  fold_left (fun d kv => setNestedValue d (fst kv) (snd kv)) flat doc.

Definition nest (flat : FlatJson) : obj json := nest_into [] flat.

(** Leaves coerced with [String], objects kept. *)
Fixpoint normalize (v : json) : json :=
  match v with
  | JObj o =>
      JObj ((fix each (es : list (string * json)) :=
               match es with
               | [] => []
               | (k, c) :: es' => (k, normalize c) :: each es'
               end) o)
  | _ => JStr (js_String v)
  end.

Definition is_leaf (v : json) : bool :=
  match v with JObj _ => false | _ => true end.



Module Path.

(** Neither path is a prefix of the other. *)
Fixpoint diverge (p q : list string) : Prop :=
  match p, q with
  | a :: p', b :: q' => a <> b \/ diverge p' q'
  | _, _ => False
  end.

End Path.



(** The paths to the leaves, with the leaves coerced by [String]. *)
Fixpoint leaves (v : json) : list (list string * string) :=
  match v with
  | JObj o =>
      (fix each (es : list (string * json)) :=
         match es with
         | [] => []
         | (k, c) :: es' =>
             match c with
             | JObj _ => map (fun ps => (k :: fst ps, snd ps)) (leaves c)
             | _ => [([k], js_String c)]
             end ++ each es'
         end) o
  | _ => []
  end.

Definition entry_leaves (k : string) (c : json) : list (list string * string) :=
  match c with
  | JObj _ => map (fun ps => (k :: fst ps, snd ps)) (leaves c)
  | _ => [([k], js_String c)]
  end.

(** What round-trips: no dot in a key, no empty nested object. *)
Inductive regular_value : json -> Prop :=
  | regular_null : regular_value JNull
  | regular_bool b : regular_value (JBool b)
  | regular_num n : regular_value (JNum n)
  | regular_str s : regular_value (JStr s)
  | regular_obj o :
      o <> [] ->
      Forall (fun kv => Str.has_dot (fst kv) = false
                        /\ regular_value (snd kv)) o ->
      regular_value (JObj o).

Definition regular_entries (o : obj json) : Prop :=
  Forall (fun kv => Str.has_dot (fst kv) = false /\ regular_value (snd kv)) o.

(** The flat entry of a leaf found below the prefix path [Pp]. *)
Definition flat_entry (Pp : list string) (ps : list string * string)
    : string * string :=
  (Str.join_dot (Pp ++ fst ps), snd ps).



(** The key begins with a dot: its first segment is empty and not its
    last. *)
Definition leading_dot (k : string) : bool :=
  match k with
  | String c _ => Ascii.eqb c "."
  | EmptyString => false
  end.

(** ** Removing a key, one object at a time *)

(** What [removeNestedKey] does to one object of the path, told without
    the stack: it gives up before reaching the parent of the leaf, it
    throws, or it is done with this object, pruned of what the removal
    emptied below it. *)
Inductive removal :=
  | GaveUp
  | Failed
  | Done (o : obj json).

(** The removal of the path [parts] from the object [o], as the two loops
    of [removeNestedKey] carry it out. *)
Fixpoint remove_rec (parts : list string) (o : obj json) : removal :=
  match parts with
  | [] => GaveUp
  | [last] => Done (Obj.delete last o)
  | p :: rest =>
      match Obj.get p o with
      | Some (JObj c) =>
          match remove_rec rest c with
          | Done c' =>
              Done (if is_empty_obj c' then Obj.delete p o
                    else Obj.set p (JObj c') o)
          | r => r
          end
      | Some JNull => Failed
      | _ => GaveUp
      end
  end.

(** The path is new to the document: it leaves the document at a name
    that is missing, and the objects it goes through before that have
    entries. *)
Fixpoint fresh_path (parts : list string) (o : obj json) : Prop :=
  match parts with
  | [] => False
  | [last] => Obj.has last o = false
  | p :: rest =>
      match Obj.get p o with
      | None => True
      | Some (JObj c) => c <> [] /\ fresh_path rest c
      | Some _ => False
      end
  end.

(** ** Plain documents *)

(** A document whose flat keys name its leaves one to one: no name occurs
    twice in an object, no key contains a dot, no nested object is empty,
    and the top-level key [""] does not hold an object. *)
Definition plain_document (D : obj json) : Prop :=
  distinct_keys (JObj D) /\ regular_entries D
  /\ forall c, Obj.get EmptyString D <> Some (JObj c).

(** The leaf that a dotted key names in a document, coerced by [String]. *)
Definition leaf_at (k : string) (D : obj json) : option string :=
  match at_path (Str.split_dot k) (JObj D) with
  | Some (JObj _) => None
  | Some leaf => Some (js_String leaf)
  | None => None
  end.

(** Every parsed file on disk is a plain document. *)
Definition disk_plain (w : World) : Prop :=
  forall path c, disk w !! path = Some (Parsed c) -> plain_document c.


(** ** Languages and their files *)

(** Every language of the settings has at least one file. *)
Definition languages_have_files (settings : AppSettings) : Prop :=
  Forall (fun l => files l <> []) (languages settings).

(** ** Announcements *)


(** ** Trees *)

(** Every node of the tree, at any depth, satisfies [P]. *)
Inductive every_node (P : Tree.TreeNode -> Prop) : Tree.TreeNode -> Prop :=
  | every_node_intro s f c v :
      P (Tree.Node s f c v) -> Forall (every_node P) c ->
      every_node P (Tree.Node s f c v).

(** Values sit at the leaves only: a node that carries values has no
    children. *)
Definition leaf_valued : Tree.TreeNode -> Prop :=
  every_node (fun n => TreeView.values n <> None -> Tree.children n = []).

(** The row is a leaf; the row is a leaf marked as missing a value. *)
Definition is_leaf_row (r : TreeView.FlatRow) : bool :=
  match r with TreeView.LeafRow _ _ _ _ _ _ => true | _ => false end.

Definition is_missing_row (r : TreeView.FlatRow) : bool :=
  match r with TreeView.LeafRow _ _ _ _ _ m => m | _ => false end.

(** [siblings.find((n) => n.segment === p)]. *)
Definition find_segment (p : string) (nodes : list Tree.TreeNode)
    : option Tree.TreeNode :=
  List.find (fun n => String.eqb (Tree.segment n) p) nodes.

(** The node that the segments lead to, through the first sibling of each
    name. *)
Fixpoint tree_find (parts : list string) (nodes : list Tree.TreeNode)
    : option Tree.TreeNode :=
  match parts with
  | [] => None
  | p :: rest =>
      match find_segment p nodes with
      | None => None
      | Some n =>
          match rest with
          | [] => Some n
          | _ :: _ => tree_find rest (Tree.children n)
          end
      end
  end.

(** No two siblings of the node bear the same segment. *)
Definition distinct_children (n : Tree.TreeNode) : Prop :=
  List.NoDup (map Tree.segment (Tree.children n)).

(** The [fullKey] of every node is the path that [buildTree] computes for
    it below a parent whose path is [pathSoFar]. *)
Inductive keyed : string -> Tree.TreeNode -> Prop :=
  | keyed_node pathSoFar s c v :
      Forall (keyed (fullKey pathSoFar s)) c ->
      keyed pathSoFar (Tree.Node s (fullKey pathSoFar s) c v).

(** The path computed along the segments, from [pathSoFar]. *)
Definition path_key (pathSoFar : string) (parts : list string) : string :=
  fold_left fullKey parts pathSoFar.

(** Every node lies on the way to a path of [S], and the nodes that carry
    values sit at paths of [S]. *)
Inductive covered (S : list string -> Prop) : Tree.TreeNode -> Prop :=
  | covered_node s f c v :
      (v <> None -> S [s]) ->
      (exists Q, S (s :: Q)) ->
      Forall (covered (fun Q => S (s :: Q))) c ->
      covered S (Tree.Node s f c v).

(** No key is a proper prefix, segment by segment, of another. *)
Definition prefix_free_keys (keys : list KeyData) : Prop :=
  forall a b Q, In a keys -> In b keys ->
    Str.split_dot (kd_key a) ++ Q = Str.split_dot (kd_key b) -> Q = [].

(** ** Parent paths *)

(** The segments of a key but the last: the path of its parent. *)
Definition parent_path (k : string) : list string :=
  removelast (Str.split_dot k).

(** The two keys have the same parent path. *)
Definition same_parent (k selected : string) : bool :=
  bool_decide (parent_path k = parent_path selected).

(** ** Example folders and worlds *)

Module FolderExamples.

(** A root with two locale directories, each holding [common.json]. *)
Definition namespaced_root (p : string) : list Dirent :=
  if String.eqb p "/r"
  then [{| name := "en-US"; kind := IsDirectory |};
        {| name := "fr-FR"; kind := IsDirectory |}]
  else [{| name := "common.json"; kind := IsFile |}].

(** The dialog closed on that root. *)
Definition chosen : OpenDialogResult :=
  {| canceled := false; filePaths := ["/r"] |}.

(** Nothing configured, nothing on disk. *)
Definition empty_world : World :=
  {| store := {| rootFolder := None; languages := [];
                 folderStructure := Namespaced; serverPort := 5874;
                 serverAutoStart := false; deeplApiKey := "" |};
     disk := ∅; dirs := ∅; notified := [] |}.

End FolderExamples.

Module UpdateExamples.

(** One language whose file holds [a.b] and [a.c]. *)
Definition world2 : World :=
  {| store := HttpExamples.settings1;
     disk := {[ "/r/en-US/common.json"
                := Parsed [("a", JObj [("b", JStr "x"); ("c", JStr "y")])] ]};
     dirs := {[ "/r/en-US" ]}; notified := [] |}.



End UpdateExamples.

(** * Properties *)

(** ** The concrete collation is a collation *)

Module AsciiCollation.
Import AsciiOrder.

Lemma lex_opp a b : lex b a = CompOpp (lex a b).
Proof.
  revert b; induction a as [|x a IH]; intros [|y b]; simpl; auto.
  rewrite (N.compare_antisym x y).
  destruct (x ?= y)%N; simpl; auto.
Qed.

Lemma lex_eq a b : lex a b = Eq -> a = b.
Proof.
  revert b; induction a as [|x a IH]; intros [|y b]; simpl; auto;
    try discriminate.
  destruct (x ?= y)%N eqn:E; try discriminate.
  apply N.compare_eq in E. intros; f_equal; auto.
Qed.

Lemma lex_refl a : lex a a = Eq.
Proof. induction a; simpl; auto. now rewrite N.compare_refl. Qed.

Lemma lex_trans a b c : lex a b <> Gt -> lex b c <> Gt -> lex a c <> Gt.
Proof.
  revert b c; induction a as [|x a IH]; intros [|y b] [|z c]; simpl;
    try congruence.
  destruct (x ?= y)%N eqn:E1; destruct (y ?= z)%N eqn:E2; try congruence.
  - apply N.compare_eq in E1, E2. subst. rewrite N.compare_refl. eauto.
  - apply N.compare_eq in E1. subst. now rewrite E2.
  - apply N.compare_eq in E2. subst. now rewrite E1.
  - rewrite N.compare_lt_iff in E1, E2.
    assert (E : (x ?= z)%N = Lt) by (rewrite N.compare_lt_iff; lia).
    now rewrite E.
Qed.

Lemma lex_lt_le a b c : lex a b = Lt -> lex b c <> Gt -> lex a c = Lt.
Proof.
  intros H1 H2.
  destruct (lex a c) eqn:E; auto.
  - apply lex_eq in E. subst.
    rewrite (lex_opp c b), H1 in H2. simpl in H2. congruence.
  - exfalso. eapply (lex_trans a b c); eauto. congruence.
Qed.

Lemma variant_opp a b : variant b a = CompOpp (variant a b).
Proof.
  unfold variant, base. rewrite (lex_opp (folded a) (folded b)).
  destruct (lex (folded a) (folded b)); simpl; auto using lex_opp.
Qed.

Lemma variant_trans a b c :
  variant a b <> Gt -> variant b c <> Gt -> variant a c <> Gt.
Proof.
  unfold variant, base.
  destruct (lex (folded a) (folded b)) eqn:E1;
    destruct (lex (folded b) (folded c)) eqn:E2; try congruence.
  - apply lex_eq in E1, E2. rewrite E1, E2, lex_refl.
    intros H1 H2. eapply lex_trans; eauto.
  - apply lex_eq in E1. rewrite E1, E2. congruence.
  - apply lex_eq in E2. rewrite <- E2, E1. congruence.
  - rewrite (lex_lt_le _ _ _ E1); congruence.
Qed.

Lemma variant_refines a b : base a b = Lt -> variant a b = Lt.
Proof. unfold variant. now intros ->. Qed.

#[export] Instance collator : Collator := {|
  localeCompare := variant;
  localeCompareBase := base;
  localeCompare_opp := variant_opp;
  localeCompare_trans := variant_trans;
  localeCompareBase_opp := fun a b => lex_opp (folded a) (folded b);
  localeCompareBase_trans :=
    fun a b c => lex_trans (folded a) (folded b) (folded c);
  localeCompare_refines := variant_refines
|}.

End AsciiCollation.

Module ObjFacts.
Section Facts.
Context {A : Type}.
Implicit Types (o : obj A) (k : string) (v : A).

Lemma has_get k o : Obj.has k o = true <-> exists v, Obj.get k o = Some v.
Proof.
  unfold Obj.has. destruct (Obj.get k o); split; eauto; try discriminate.
  intros [? ?]; discriminate.
Qed.

Lemma has_false_get k o : Obj.has k o = false <-> Obj.get k o = None.
Proof. unfold Obj.has. destruct (Obj.get k o); split; congruence. Qed.

Lemma insert_index_nonempty n k v o : Obj.insert_index n k v o <> [].
Proof.
  destruct o as [|[k' v'] r]; simpl; try discriminate.
  destruct (Obj.array_index k'); try discriminate.
  destruct (_ <? _)%N; discriminate.
Qed.

Lemma replace_nonempty k v o : o <> [] -> Obj.replace k v o <> [].
Proof.
  destruct o as [|[k' v'] r]; simpl; auto.
  destruct (String.eqb k k'); discriminate.
Qed.

Lemma set_nonempty k v o : Obj.set k v o <> [].
Proof.
  unfold Obj.set. destruct (Obj.has k o) eqn:E.
  - apply replace_nonempty. intros ->. discriminate.
  - destruct (Obj.array_index k).
    + apply insert_index_nonempty.
    + destruct o; discriminate.
Qed.

End Facts.
End ObjFacts.

(** ** Removing a key *)

Lemma cleanup_nonempty child stack :
  child <> [] -> cleanup child stack = plug child stack.
Proof.
  destruct stack as [|[parent key] up]; simpl; auto.
  destruct child; simpl; congruence.
Qed.

Lemma prune_spec_step p q rest o :
  prune_spec (p :: q :: rest) o =
  match Obj.get p o with
  | Some (JObj c) =>
      if is_empty_obj (prune_spec (q :: rest) c) then Obj.delete p o
      else Obj.set p (JObj (prune_spec (q :: rest) c)) o
  | _ => o
  end.
Proof. reflexivity. Qed.

Lemma walk_step p q rest o stack :
  walk (p :: q :: rest) (JObj o) stack =
  match Obj.get p o with
  | Some v =>
      if typeof_object v then walk (q :: rest) v (Frame o p :: stack)
      else EarlyReturn
  | None => EarlyReturn
  end.
Proof. reflexivity. Qed.

Lemma cleanup_prune parts : forall cur stack v,
  parts <> [] ->
  at_path parts (JObj cur) = Some v ->
  exists leafobj stack',
    walk parts (JObj cur) stack = Reached leafobj stack' /\
    cleanup leafobj stack' = cleanup (prune_spec parts cur) stack.
Proof.
  induction parts as [|p rest IH]; intros cur stack v Hne Hat; [congruence|].
  destruct rest as [|q rest'].
  - simpl. eauto.
  - cbn [at_path] in Hat.
    destruct (Obj.get p cur) as [c|] eqn:Hget; [|discriminate].
    destruct c as [| | | |c]; try discriminate.
    destruct (IH c (Frame cur p :: stack) v ltac:(discriminate) Hat)
      as (leafobj & stack' & Hwalk & Hclean).
    exists leafobj, stack'. split.
    + rewrite walk_step, Hget. exact Hwalk.
    + rewrite Hclean, prune_spec_step, Hget.
      destruct (prune_spec (q :: rest') c) as [|e c'] eqn:Hc.
      * reflexivity.
      * symmetry. apply cleanup_nonempty. apply ObjFacts.set_nonempty.
Qed.

(** C1. Whenever the dotted key addresses a value of the document,
    [removeNestedKey] returns the document from which that value has been
    deleted and every ancestor left empty has been pruned, bottom-up, up to
    the first ancestor that keeps other entries. *)
Theorem removeNestedKey_prunes (o : obj json) (dottedKey : string) (v : json) :
  at_path (Str.split_dot dottedKey) (JObj o) = Some v ->
  removeNestedKey o dottedKey
  = Returned (prune_spec (Str.split_dot dottedKey) o).
Proof.
  intros Hat. unfold removeNestedKey.
  assert (Hne : Str.split_dot dottedKey <> []).
  { unfold Str.split_dot. destruct dottedKey as [|c s]; simpl; [discriminate|].
    destruct (Ascii.eqb c "."); [discriminate|].
    destruct (Str.split "." s); discriminate. }
  destruct (cleanup_prune _ o [] v Hne Hat) as (leafobj & stack' & -> & ->).
  reflexivity.
Qed.

(** The two documents of the specification: all empty ancestors are
    pruned, and pruning stops at the first ancestor with another entry. *)
Lemma removeNestedKey_prunes_witness :
  removeNestedKey [("a", JObj [("b", JObj [("c", JStr "x")])])] "a.b.c"
  = Returned []
  /\ removeNestedKey
       [("a", JObj [("b", JObj [("c", JStr "x")]); ("d", JStr "y")])] "a.b.c"
     = Returned [("a", JObj [("d", JStr "y")])].
Proof.
  split.
  - exact (removeNestedKey_prunes
             [("a", JObj [("b", JObj [("c", JStr "x")])])] "a.b.c"
             (JStr "x") eq_refl).
  - exact (removeNestedKey_prunes
             [("a", JObj [("b", JObj [("c", JStr "x")]); ("d", JStr "y")])]
             "a.b.c" (JStr "x") eq_refl).
Defined.

(** The guard that [setNestedValue] has and [removeNestedKey] lacks: a
    [null] on the way makes the removal throw. *)
Remark removeNestedKey_null_throws :
  removeNestedKey [("a", JNull)] "a.b" = Threw
  /\ setNestedValue [("a", JNull)] "a.b" "" = [("a", JObj [("b", JStr "")])].
Proof. split; reflexivity. Qed.

(** ** Import mode detection *)

Section ImportSpec.
Variable readdirSync : string -> list Dirent.

Lemma scan_namespaced_spec rootPath entries : forall acc,
  fold_left (scan_namespaced readdirSync rootPath) entries acc
  = acc ++ locale_directories readdirSync rootPath entries.
Proof.
  unfold locale_directories.
  induction entries as [|e es IH]; intros acc; simpl.
  - now rewrite app_nil_r.
  - rewrite IH. unfold scan_namespaced, is_directory.
    destruct (kind e); simpl; auto.
    destruct (LOCALE_REGEX (name e)); simpl; auto.
    destruct (scanJsonFiles _ _) eqn:E; simpl; auto.
    now rewrite <- app_assoc.
Qed.

Lemma scan_flat_spec rootPath entries : forall acc,
  fold_left (scan_flat rootPath) entries acc
  = acc ++ locale_files rootPath entries.
Proof.
  unfold locale_files.
  induction entries as [|e es IH]; intros acc; simpl.
  - now rewrite app_nil_r.
  - rewrite IH. unfold scan_flat, is_file.
    destruct (kind e); simpl; auto.
    destruct (LOCALE_JSON_REGEX (name e)); simpl; auto.
    now rewrite <- app_assoc.
Qed.


End ImportSpec.

(** The two roots of the specification: [en-US/common.json] and
    [fr-FR/common.json] give namespaced mode with two languages and the
    namespace [common]; [en-US.json] and [fr-FR.json] give flat mode with
    the namespace [default]. *)
Example importFolder_examples :
  let settings0 :=
    {| rootFolder := None; languages := []; folderStructure := Namespaced;
       serverPort := 5874; serverAutoStart := false; deeplApiKey := "" |} in
  let w := {| store := settings0; disk := ∅; dirs := ∅; notified := [] |} in
  let tree1 (p : string) :=
    if String.eqb p "/r"
    then [{| name := "en-US"; kind := IsDirectory |};
          {| name := "fr-FR"; kind := IsDirectory |}]
    else [{| name := "common.json"; kind := IsFile |}] in
  let tree2 (p : string) :=
    [{| name := "en-US.json"; kind := IsFile |};
     {| name := "fr-FR.json"; kind := IsFile |}] in
  let result := {| canceled := false; filePaths := ["/r"] |} in
  option_map (fun s => (folderStructure s, languages s))
    (fst (importFolder tree1 result w))
  = Some (Namespaced,
          [{| code := "en-US";
              files := [{| absolutePath := "/r/en-US/common.json";
                           namespace := "common" |}] |};
           {| code := "fr-FR";
              files := [{| absolutePath := "/r/fr-FR/common.json";
                           namespace := "common" |}] |}])
  /\ option_map (fun s => (folderStructure s, languages s))
       (fst (importFolder tree2 result w))
     = Some (Flat,
             [{| code := "en-US";
                 files := [{| absolutePath := "/r/en-US.json";
                              namespace := "default" |}] |};
              {| code := "fr-FR";
                 files := [{| absolutePath := "/r/fr-FR.json";
                              namespace := "default" |}] |}]).
Proof. split; reflexivity. Qed.

(** ** Ensuring a file in flat mode *)

Lemma find_language_push langCode file ls lang :
  find_language langCode ls = Some lang ->
  find_language langCode (push_file langCode file ls)
  = Some {| code := code lang; files := files lang ++ [file] |}.
Proof.
  unfold find_language.
  induction ls as [|l r IH]; simpl; [discriminate|].
  destruct (String.eqb (code l) langCode) eqn:E; simpl.
  - intros [= <-]. cbn. now rewrite E.
  - rewrite E. exact IH.
Qed.

Lemma find_file_none ns fs :
  find_file ns fs = None -> forall f, In f fs -> namespace f <> ns.
Proof.
  unfold find_file. intros Hnone f Hin Heq.
  apply (find_none _ _ Hnone) in Hin.
  rewrite Heq, String.eqb_refl in Hin. discriminate.
Qed.

(** C10. In flat mode, for a configured language without a File for the
    requested namespace, [ensureFile] answers with a File at
    [<root>/<langCode>.json] whatever the namespace, appends it to the
    language's files, leaves an existing file on disk as it is, and so
    makes every earlier File of the language at that path share it under
    another namespace. *)
Theorem ensureFile_flat_shares_path (settings : AppSettings) (w : World)
    (langCode ns root : string) (lang : TranslationLanguage) :
  folderStructure settings = Flat ->
  truthy_root settings = Some root ->
  find_language langCode (languages settings) = Some lang ->
  find_file ns (files lang) = None ->
  let path := Str.path_join root (langCode +:+ ".json") in
  let file := {| absolutePath := path; namespace := ns |} in
  let '(settings', w', result) := ensureFile settings langCode ns w in
  result = Some file
  /\ find_language langCode (languages settings')
     = Some {| code := code lang; files := files lang ++ [file] |}
  /\ store w' = settings'
  /\ (forall c, disk w !! path = Some c -> disk w' !! path = Some c)
  /\ (disk w !! path = None -> path ∉ dirs w ->
      disk w' !! path = Some (Parsed []))
  /\ (forall f0, In f0 (files lang) -> absolutePath f0 = path ->
      In f0 (files lang ++ [file])
      /\ absolutePath f0 = absolutePath file
      /\ namespace f0 <> namespace file).
Proof.
  intros Hflat Hroot Hlang Hfile path file.
  unfold ensureFile. rewrite Hlang, Hfile, Hroot, Hflat.
  fold path. fold file. cbn [store saveSettings languages with_languages].
  split; [reflexivity|].
  split; [now apply find_language_push|].
  split; [reflexivity|].
  split; [|split].
  - intros c Hc. unfold existsSync.
    rewrite bool_decide_eq_true_2 by (rewrite Hc; eauto). exact Hc.
  - intros Hnone Hdir. unfold existsSync.
    rewrite bool_decide_eq_false_2 by (rewrite Hnone; intros [? ?]; discriminate).
    rewrite bool_decide_eq_false_2 by exact Hdir.
    cbn. apply lookup_insert_eq.
  - intros f0 Hin Hpath. split; [apply in_or_app; auto|].
    split; [exact Hpath|]. exact (find_file_none _ _ Hfile f0 Hin).
Qed.

(** A language imported in flat mode, asked for the namespace [common]:
    its one physical file now backs [default] and [common]. *)
Lemma ensureFile_flat_shares_path_witness :
  let lang :=
    {| code := "en-US";
       files := [{| absolutePath := "/r/en-US.json";
                    namespace := "default" |}] |} in
  let settings :=
    {| rootFolder := Some "/r"; languages := [lang];
       folderStructure := Flat; serverPort := 5874;
       serverAutoStart := false; deeplApiKey := "" |} in
  let w :=
    {| store := settings;
       disk := {[ "/r/en-US.json" := Parsed [("k", JStr "hello")] ]};
       dirs := ∅; notified := [] |} in
  let '(settings', w', result) :=
    ensureFile settings "en-US" "common" w in
  result = Some {| absolutePath := "/r/en-US.json"; namespace := "common" |}
  /\ option_map files (find_language "en-US" (languages settings'))
     = Some [{| absolutePath := "/r/en-US.json"; namespace := "default" |};
             {| absolutePath := "/r/en-US.json"; namespace := "common" |}]
  /\ disk w' !! "/r/en-US.json" = Some (Parsed [("k", JStr "hello")]).
Proof.
  intros lang settings w.
  pose proof (ensureFile_flat_shares_path
                settings w "en-US" "common" "/r" lang
                eq_refl eq_refl eq_refl eq_refl) as Hmain.
  cbv zeta in Hmain.
  destruct (ensureFile settings "en-US" "common" w) as [[settings' w'] result].
  destruct Hmain as (Hres & Hfind & _ & Hkeep & _).
  split; [exact Hres|].
  split; [now rewrite Hfind|].
  apply Hkeep. reflexivity.
Defined.

(** ** The responses of the key-intake endpoint *)

Section Responses.
Context `{Collator}.
Import Http.




End Responses.



(** ** Sorting with a consistent comparator *)

Module SortFacts.
Section Facts.
Context {A : Type} (cmp : A -> A -> comparison).
Hypothesis cmp_opp : forall a b, cmp b a = CompOpp (cmp a b).
Hypothesis cmp_trans :
  forall a b c, cmp a b <> Gt -> cmp b c <> Gt -> cmp a c <> Gt.

Local Abbreviation le := (not_after cmp).

Lemma insert_perm x l : Permutation (JsArray.insert cmp x l) (x :: l).
Proof.
  induction l as [|y r IH]; simpl; auto.
  destruct (cmp x y); auto.
  rewrite IH. apply perm_swap.
Qed.

Lemma sort_perm l : Permutation (JsArray.sort cmp l) l.
Proof.
  induction l as [|x r IH]; simpl; auto.
  rewrite insert_perm. now constructor.
Qed.

Lemma gt_le a b : cmp a b = Gt -> le b a.
Proof. unfold le. rewrite (cmp_opp a b). intros ->. discriminate. Qed.

Lemma insert_sorted x l :
  StronglySorted le l -> StronglySorted le (JsArray.insert cmp x l).
Proof.
  induction 1 as [|y r Hs IH Hall]; simpl.
  - repeat constructor.
  - destruct (cmp x y) eqn:E.
    + constructor; [now constructor|].
      constructor; [unfold le; congruence|].
      eapply Forall_impl; [exact Hall|].
      intros z Hz. apply (cmp_trans x y z); [congruence|exact Hz].
    + constructor; [now constructor|].
      constructor; [unfold le; congruence|].
      eapply Forall_impl; [exact Hall|].
      intros z Hz. apply (cmp_trans x y z); [congruence|exact Hz].
    + constructor; [exact IH|].
      rewrite insert_perm. constructor; [now apply gt_le|exact Hall].
Qed.

Lemma sort_sorted l : StronglySorted le (JsArray.sort cmp l).
Proof.
  induction l; simpl; [constructor|now apply insert_sorted].
Qed.

Lemma insert_head x l :
  Forall (le x) l -> JsArray.insert cmp x l = x :: l.
Proof.
  destruct 1 as [|y r Hy _]; simpl; auto.
  destruct (cmp x y) eqn:E; auto. now elim Hy.
Qed.

(** Sorting what is sorted changes nothing. *)
Lemma sort_of_sorted l : StronglySorted le l -> JsArray.sort cmp l = l.
Proof.
  induction 1 as [|x r Hs IH Hall]; simpl; auto.
  rewrite IH. now apply insert_head.
Qed.

Lemma sort_idempotent l :
  JsArray.sort cmp (JsArray.sort cmp l) = JsArray.sort cmp l.
Proof. apply sort_of_sorted, sort_sorted. Qed.

(** Stability: sorting commutes with taking a sub-array. *)
Lemma le_head_filter (p : A -> bool) x y r :
  cmp x y <> Gt -> Forall (le y) r ->
  Forall (le x) (List.filter p (y :: r)).
Proof.
  intros Hxy Hall. apply List.Forall_forall. intros z Hz.
  apply filter_In in Hz as [[<-|Hz] _]; [exact Hxy|].
  rewrite List.Forall_forall in Hall.
  apply (cmp_trans x y z); [exact Hxy|exact (Hall z Hz)].
Qed.

Lemma filter_insert (p : A -> bool) x l :
  StronglySorted le l ->
  List.filter p (JsArray.insert cmp x l)
  = if p x then JsArray.insert cmp x (List.filter p l) else List.filter p l.
Proof.
  induction 1 as [|y r Hs IH Hall].
  - simpl. destruct (p x); reflexivity.
  - assert (Hle : cmp x y <> Gt ->
              List.filter p (x :: y :: r)
              = if p x then JsArray.insert cmp x (List.filter p (y :: r))
                else List.filter p (y :: r)).
    { intros Hxy. rewrite (insert_head x (List.filter p (y :: r)))
        by now apply le_head_filter.
      simpl. destruct (p x); reflexivity. }
    cbn [JsArray.insert]. destruct (cmp x y) eqn:E.
    + apply Hle. congruence.
    + apply Hle. congruence.
    + cbn [List.filter]. rewrite IH.
      destruct (p y), (p x); cbn [JsArray.insert]; try rewrite E; reflexivity.
Qed.

Lemma filter_sort (p : A -> bool) l :
  List.filter p (JsArray.sort cmp l) = JsArray.sort cmp (List.filter p l).
Proof.
  induction l as [|x r IH]; simpl; auto.
  rewrite filter_insert by apply sort_sorted.
  rewrite IH. destruct (p x); reflexivity.
Qed.

End Facts.


Lemma strongly_sorted_weaken {A : Type} (R S : A -> A -> Prop) l :
  (forall a b, R a b -> S a b) -> StronglySorted R l -> StronglySorted S l.
Proof.
  intros HRS. induction 1 as [|x r Hs IH Hall]; constructor; auto.
  eapply Forall_impl; [exact Hall|]. auto.
Qed.

Lemma Forall_perm {A : Type} (P : A -> Prop) l l' :
  Permutation l l' -> Forall P l -> Forall P l'.
Proof. intros Hp. now rewrite Hp. Qed.

End SortFacts.

(** ** Induction on documents *)

Lemma json_ind' (P : json -> Prop) :
  P JNull -> (forall b, P (JBool b)) -> (forall n, P (JNum n)) ->
  (forall s, P (JStr s)) ->
  (forall o, Forall (fun kv => P (snd kv)) o -> P (JObj o)) ->
  forall v, P v.
Proof.
  intros Hnull Hbool Hnum Hstr Hobj.
  fix IH 1. intros [| b | n | s | o].
  - exact Hnull.
  - apply Hbool.
  - apply Hnum.
  - apply Hstr.
  - apply Hobj. induction o as [|[k v] r IHr]; constructor.
    + apply IH.
    + exact IHr.
Qed.

Lemma sortDeep_value_obj `{Collator} o :
  sortDeep_value (JObj o) = JObj (sortDeep o).
Proof.
  unfold sortDeep. cbn [sortDeep_value]. do 3 f_equal.
  induction o as [|[k v] r IH]; cbn; congruence.
Qed.

Lemma flattenJson_obj o prefix :
  flattenJson (JObj o) prefix = flatten_entries prefix o [].
Proof.
  cbn [flattenJson]. generalize (@nil (string * string)).
  induction o as [|[k v] r IH]; intros acc; cbn; auto.
Qed.

(** ** Objects as finite maps *)

Module ObjMap.
Section Facts.
Context {A : Type}.
Implicit Types (o : obj A) (k : string) (v : A).

Lemma has_keys k o : Obj.has k o = true <-> In k (Obj.keys o).
Proof.
  unfold Obj.has. induction o as [|[k' v'] r IH]; simpl.
  - split; [discriminate|tauto].
  - destruct (String.eqb_spec k k') as [->|Hne]; [tauto|].
    rewrite IH. split; [tauto|]. intros [E|?]; congruence.
Qed.

Lemma has_false_keys k o : Obj.has k o = false <-> ~ In k (Obj.keys o).
Proof.
  rewrite <- has_keys. destruct (Obj.has k o); split; congruence.
Qed.

Lemma get_replace k v k' o :
  Obj.get k' (Obj.replace k v o)
  = if String.eqb k' k
    then (if Obj.has k o then Some v else None)
    else Obj.get k' o.
Proof.
  unfold Obj.has. induction o as [|[k0 v0] r IH]; simpl.
  - destruct (String.eqb k' k); reflexivity.
  - destruct (String.eqb_spec k k0) as [->|Hne]; simpl.
    + destruct (String.eqb_spec k' k0); reflexivity.
    + rewrite IH. destruct (String.eqb_spec k' k0) as [->|Hne'].
      * rewrite (proj2 (String.eqb_neq _ _)) by congruence. reflexivity.
      * reflexivity.
Qed.

Lemma get_insert_index n k v k' o :
  Obj.has k o = false ->
  Obj.get k' (Obj.insert_index n k v o)
  = if String.eqb k' k then Some v else Obj.get k' o.
Proof.
  unfold Obj.has. induction o as [|[k0 v0] r IH]; simpl; intros Hfresh.
  - destruct (String.eqb k' k); reflexivity.
  - destruct (String.eqb_spec k k0) as [->|Hne]; [discriminate|].
    assert (Hstep : Obj.get k' ((k, v) :: (k0, v0) :: r)
                    = if String.eqb k' k then Some v
                      else if String.eqb k' k0 then Some v0
                      else Obj.get k' r) by reflexivity.
    destruct (Obj.array_index k0) as [m|]; [|exact Hstep].
    destruct (m <? n)%N; [|exact Hstep].
    simpl. rewrite (IH Hfresh).
    destruct (String.eqb_spec k' k0) as [->|Hne'];
      destruct (String.eqb_spec k0 k); try reflexivity; congruence.
Qed.

Lemma get_app k o1 o2 :
  Obj.get k (o1 ++ o2)
  = match Obj.get k o1 with Some v => Some v | None => Obj.get k o2 end.
Proof.
  induction o1 as [|[k0 v0] r IH]; simpl; auto.
  destruct (String.eqb k k0); auto.
Qed.

(** Reading after writing. *)
Lemma get_set k v k' o :
  Obj.get k' (Obj.set k v o)
  = if String.eqb k' k then Some v else Obj.get k' o.
Proof.
  unfold Obj.set. destruct (Obj.has k o) eqn:Hhas.
  - rewrite get_replace, Hhas. reflexivity.
  - destruct (Obj.array_index k).
    + now apply get_insert_index.
    + rewrite get_app. simpl.
      destruct (String.eqb_spec k' k) as [->|Hne].
      * apply ObjFacts.has_false_get in Hhas. now rewrite Hhas.
      * destruct (Obj.get k' o); reflexivity.
Qed.

Lemma get_delete k k' o :
  Obj.get k' (Obj.delete k o)
  = if String.eqb k' k then None else Obj.get k' o.
Proof.
  induction o as [|[k0 v0] r IH]; simpl.
  - destruct (String.eqb k' k); reflexivity.
  - destruct (String.eqb_spec k k0) as [->|Hne]; simpl.
    + rewrite IH. destruct (String.eqb_spec k' k0); reflexivity.
    + rewrite IH. destruct (String.eqb_spec k' k0) as [->|Hne'].
      * rewrite (proj2 (String.eqb_neq _ _)) by congruence. reflexivity.
      * reflexivity.
Qed.

Lemma has_set k v k' o :
  Obj.has k' (Obj.set k v o) = String.eqb k' k || Obj.has k' o.
Proof.
  unfold Obj.has. rewrite get_set.
  destruct (String.eqb k' k); reflexivity.
Qed.




End Facts.
End ObjMap.

(** ** The canonical order *)

Section Canonical.
Context `{Collator}.

Lemma variant_le_base a b : localeCompare a b <> Gt -> alphabetical a b.
Proof.
  unfold alphabetical. intros Hle Hgt. apply Hle.
  pose proof (localeCompareBase_opp a b) as Hopp. rewrite Hgt in Hopp.
  apply localeCompare_refines in Hopp.
  rewrite (localeCompare_opp b a), Hopp. reflexivity.
Qed.

Lemma tree_ind' (P : Tree.TreeNode -> Prop) :
  (forall s f c v, Forall P c -> P (Tree.Node s f c v)) -> forall n, P n.
Proof.
  intros Hnode. fix IH 1. intros [s f c v].
  apply Hnode. induction c as [|x r IHr]; constructor.
  - apply IH.
  - exact IHr.
Qed.

Lemma sortTree_node_children s f c v :
  Tree.sortTree_node (Tree.Node s f c v)
  = Tree.Node s f (Tree.sortTree c) v.
Proof.
  reflexivity.
Qed.

Lemma sortTree_order nodes :
  StronglySorted by_segment_le (Tree.sortTree nodes).
Proof.
  unfold Tree.sortTree.
  eapply SortFacts.strongly_sorted_weaken;
    [|apply (SortFacts.sort_sorted Tree.by_segment)].
  - intros a b. apply variant_le_base.
  - intros a b. apply localeCompare_opp.
  - intros a b c. apply localeCompare_trans.
Qed.

Lemma sortTree_node_sorted n : sorted_tree (Tree.sortTree_node n).
Proof.
  induction n as [s f c v IH] using tree_ind'.
  rewrite sortTree_node_children. constructor.
  - apply sortTree_order.
  - unfold Tree.sortTree.
    eapply SortFacts.Forall_perm;
      [symmetry; apply SortFacts.sort_perm|].
    apply List.Forall_forall. intros x Hx.
    apply in_map_iff in Hx as (y & <- & Hy).
    rewrite List.Forall_forall in IH. auto.
Qed.

(** [sortTree] leaves the nodes in alphabetical order of their segments
    at every depth. *)
Lemma sortTree_sorted nodes :
  StronglySorted by_segment_le (Tree.sortTree nodes)
  /\ Forall sorted_tree (Tree.sortTree nodes).
Proof.
  split; [apply sortTree_order|].
  unfold Tree.sortTree.
  eapply SortFacts.Forall_perm; [symmetry; apply SortFacts.sort_perm|].
  apply List.Forall_forall. intros x Hx.
  apply in_map_iff in Hx as (y & <- & Hy). apply sortTree_node_sorted.
Qed.


Lemma keys_sort_values (o : obj json) :
  Obj.keys (map sort_values o) = Obj.keys o.
Proof. unfold Obj.keys. rewrite map_map. reflexivity. Qed.



End Canonical.

(** C8. Array-index keys escape the order: written through [sortDeep],
    the document [{"9": "y", "10": "x"}] keeps ["9"] before ["10"], though
    ["10"] comes first alphabetically. *)
Theorem sortDeep_array_index_keys :
  let H := AsciiCollation.collator in
  let doc := [("9", JStr "y"); ("10", JStr "x")] in
  sortDeep doc = [("9", JStr "y"); ("10", JStr "x")]
  /\ localeCompareBase "10" "9" = Lt
  /\ distinct_keys (JObj doc)
  /\ ~ sorted_json (JObj (sortDeep doc)).
Proof.
  intros H doc. split; [reflexivity|]. split; [reflexivity|]. split.
  - constructor; repeat constructor; cbn; intros Hin;
      repeat (destruct Hin as [Hin|Hin]; try discriminate); auto.
  - change (sortDeep doc) with doc.
    intros Hs. inversion Hs as [| | | |? Hk _]; subst.
    inversion Hk as [|? ? _ Hall]; subst.
    inversion Hall as [|? ? Hle _]; subst.
    apply Hle. reflexivity.
Qed.

(** ** Reading through [sortDeep] and [setNestedValue] *)

Module ObjPerm.
Section Facts.
Context {A : Type}.
Implicit Types (o : obj A) (k : string) (v : A).

Lemma get_none_keys k o : Obj.get k o = None <-> ~ In k (Obj.keys o).
Proof.
  rewrite <- ObjMap.has_false_keys. apply iff_sym, ObjFacts.has_false_get.
Qed.

Lemma get_in k v o : Obj.get k o = Some v -> In (k, v) o.
Proof.
  induction o as [|[k0 v0] r IH]; simpl; [discriminate|].
  destruct (String.eqb_spec k k0) as [->|Hne].
  - intros [= ->]. now left.
  - intros Hget. right. auto.
Qed.

Lemma in_get k v o : List.NoDup (Obj.keys o) -> In (k, v) o -> Obj.get k o = Some v.
Proof.
  induction o as [|[k0 v0] r IH]; simpl; [tauto|].
  intros Hnd [Heq|Hin].
  - injection Heq as -> ->. now rewrite String.eqb_refl.
  - inversion Hnd as [|? ? Hfresh Hnd']; subst.
    destruct (String.eqb_spec k k0) as [->|Hne]; auto.
    elim Hfresh. change k0 with (fst (k0, v)). now apply in_map.
Qed.

(** What a name holds does not depend on the enumeration order. *)
Lemma get_perm k o o' :
  List.NoDup (Obj.keys o) -> Permutation o o' -> Obj.get k o = Obj.get k o'.
Proof.
  intros Hnd Hperm.
  assert (Hnd' : List.NoDup (Obj.keys o')).
  { eapply Permutation.Permutation_NoDup; [|exact Hnd].
    unfold Obj.keys. now apply Permutation_map. }
  destruct (Obj.get k o) as [v|] eqn:E.
  - symmetry. apply in_get; auto.
    eapply Permutation_in; [exact Hperm|]. now apply get_in.
  - destruct (Obj.get k o') as [v'|] eqn:E'; auto.
    apply get_in in E'. apply get_none_keys in E. elim E.
    change k with (fst (k, v')). apply in_map.
    eapply Permutation_in; [symmetry; exact Hperm|exact E'].
Qed.

Lemma get_assign k (es : obj A) : forall t : obj A,
  List.NoDup (Obj.keys es) ->
  Obj.get k (Obj.assign t es)
  = match Obj.get k es with Some v => Some v | None => Obj.get k t end.
Proof.
  unfold Obj.assign.
  induction es as [|[k0 v0] r IH]; intros t Hnd; simpl; auto.
  inversion Hnd as [|? ? Hfresh Hnd']; subst.
  rewrite IH by exact Hnd'. rewrite ObjMap.get_set. cbn [fst snd].
  destruct (String.eqb_spec k k0) as [->|Hne]; auto.
  apply get_none_keys in Hfresh. now rewrite Hfresh.
Qed.

Lemma get_from_entries k (es : obj A) :
  List.NoDup (Obj.keys es) -> Obj.get k (Obj.from_entries es) = Obj.get k es.
Proof.
  intros Hnd. unfold Obj.from_entries. rewrite get_assign by exact Hnd.
  destruct (Obj.get k es); reflexivity.
Qed.

Lemma keys_replace k v o : Obj.keys (Obj.replace k v o) = Obj.keys o.
Proof.
  induction o as [|[k0 v0] r IH]; simpl; auto.
  destruct (String.eqb k k0); simpl; congruence.
Qed.

Lemma insert_index_perm n k v o :
  Permutation (Obj.insert_index n k v o) ((k, v) :: o).
Proof.
  induction o as [|[k0 v0] r IH]; simpl; auto.
  destruct (Obj.array_index k0) as [m|]; auto.
  destruct (m <? n)%N; auto.
  rewrite IH. apply perm_swap.
Qed.

Lemma in_replace x k v o : In x (Obj.replace k v o) -> x = (k, v) \/ In x o.
Proof.
  induction o as [|[k0 v0] r IH]; simpl; auto.
  destruct (String.eqb_spec k k0) as [->|Hne]; simpl; intuition.
Qed.

(** The entries after a write: the old ones and the new one. *)
Lemma in_set x k v o : In x (Obj.set k v o) -> x = (k, v) \/ In x o.
Proof.
  unfold Obj.set. destruct (Obj.has k o).
  - apply in_replace.
  - destruct (Obj.array_index k).
    + intros Hin. eapply Permutation_in in Hin; [|apply insert_index_perm].
      destruct Hin; auto.
    + intros Hin. apply in_app_or in Hin as [?|[?|[]]]; auto.
Qed.

Lemma nodup_set k v o :
  List.NoDup (Obj.keys o) -> List.NoDup (Obj.keys (Obj.set k v o)).
Proof.
  intros Hnd. unfold Obj.set. destruct (Obj.has k o) eqn:Hhas.
  - now rewrite keys_replace.
  - apply ObjMap.has_false_keys in Hhas.
    destruct (Obj.array_index k).
    + eapply Permutation.Permutation_NoDup.
      * symmetry. unfold Obj.keys. apply Permutation_map.
        apply insert_index_perm.
      * simpl. now constructor.
    + unfold Obj.keys in *. rewrite map_app. simpl.
      eapply Permutation.Permutation_NoDup;
        [apply Permutation_cons_append|]. now constructor.
Qed.

Lemma nodup_assign (es : obj A) : forall t : obj A,
  List.NoDup (Obj.keys t) -> List.NoDup (Obj.keys (Obj.assign t es)).
Proof.
  unfold Obj.assign. induction es as [|[k v] r IH]; intros t Hnd; simpl; auto.
  apply IH. now apply nodup_set.
Qed.

Lemma in_assign x (es : obj A) : forall t : obj A,
  In x (Obj.assign t es) -> In x es \/ In x t.
Proof.
  unfold Obj.assign. induction es as [|[k v] r IH]; intros t; simpl; auto.
  intros Hin. apply IH in Hin as [?|Hin]; auto.
  apply in_set in Hin as [->|?]; auto.
Qed.

Lemma in_delete x k o : In x (Obj.delete k o) -> In x o.
Proof.
  induction o as [|[k0 v0] r IH]; simpl; auto.
  destruct (String.eqb k k0); simpl; intuition.
Qed.

End Facts.
End ObjPerm.

Section Reading.
Context `{Collator}.

Lemma distinct_obj_inv o :
  distinct_keys (JObj o) ->
  List.NoDup (Obj.keys o) /\ Forall (fun kv => distinct_keys (snd kv)) o.
Proof. inversion 1; auto. Qed.

Lemma distinct_get k o v :
  distinct_keys (JObj o) -> Obj.get k o = Some v -> distinct_keys v.
Proof.
  intros Hd Hget. apply distinct_obj_inv in Hd as [_ Hall].
  rewrite List.Forall_forall in Hall.
  exact (Hall _ (ObjPerm.get_in _ _ _ Hget)).
Qed.

Lemma distinct_set k v o :
  distinct_keys (JObj o) -> distinct_keys v ->
  distinct_keys (JObj (Obj.set k v o)).
Proof.
  intros Hd Hv. apply distinct_obj_inv in Hd as [Hnd Hall].
  constructor; [now apply ObjPerm.nodup_set|].
  apply List.Forall_forall. intros x Hx.
  apply ObjPerm.in_set in Hx as [->|Hx]; auto.
  rewrite List.Forall_forall in Hall. auto.
Qed.

Lemma distinct_empty : distinct_keys (JObj []).
Proof. constructor; constructor. Qed.

Lemma distinct_set_path parts v : forall o,
  distinct_keys (JObj o) -> distinct_keys v ->
  distinct_keys (JObj (set_path parts v o)).
Proof.
  induction parts as [|p rest IH]; intros o Hd Hv; [exact Hd|].
  destruct rest as [|q rest'].
  - now apply distinct_set.
  - change (distinct_keys
              (JObj (Obj.set p
                 (JObj (set_path (q :: rest') v
                    match Obj.get p o with
                    | Some (JObj c) => c
                    | _ => []
                    end)) o))).
    apply distinct_set; auto. apply IH; auto.
    destruct (Obj.get p o) as [[| | | |c]|] eqn:Hget;
      try apply distinct_empty.
    eapply distinct_get; eauto.
Qed.

Lemma get_sort_values k (o : obj json) :
  Obj.get k (map sort_values o) = option_map sortDeep_value (Obj.get k o).
Proof.
  induction o as [|[k0 v0] r IH]; simpl; auto.
  destruct (String.eqb k k0); auto.
Qed.

(** [sortDeep] moves keys around and nothing else. *)
Lemma get_sortDeep k o :
  List.NoDup (Obj.keys o) ->
  Obj.get k (sortDeep o) = option_map sortDeep_value (Obj.get k o).
Proof.
  intros Hnd. unfold sortDeep. fold sort_values.
  assert (Hnd' : List.NoDup (Obj.keys (map sort_values o)))
    by now rewrite keys_sort_values.
  rewrite ObjPerm.get_from_entries.
  - rewrite <- get_sort_values. symmetry.
    apply ObjPerm.get_perm; auto. symmetry. apply SortFacts.sort_perm.
  - eapply Permutation.Permutation_NoDup; [|exact Hnd'].
    unfold Obj.keys. apply Permutation_map. symmetry.
    apply SortFacts.sort_perm.
Qed.

Lemma at_path_sortDeep parts : forall v,
  distinct_keys v ->
  at_path parts (sortDeep_value v)
  = option_map sortDeep_value (at_path parts v).
Proof.
  induction parts as [|p rest IH]; intros v Hd; [reflexivity|].
  destruct v as [| | | |o]; try reflexivity.
  rewrite sortDeep_value_obj. cbn [at_path].
  rewrite get_sortDeep by (now apply distinct_obj_inv in Hd).
  destruct (Obj.get p o) as [c|] eqn:Hget; cbn; auto.
  apply IH. eapply distinct_get; eauto.
Qed.

(** After [setNestedValue] the value sits at the path of the key. *)
Lemma at_path_set_path parts v : forall o,
  parts <> [] -> at_path parts (JObj (set_path parts v o)) = Some v.
Proof.
  induction parts as [|p rest IH]; intros o Hne; [congruence|].
  destruct rest as [|q rest'].
  - cbn. rewrite ObjMap.get_set, String.eqb_refl. reflexivity.
  - change (set_path (p :: q :: rest') v o)
      with (Obj.set p
              (JObj (set_path (q :: rest') v
                 match Obj.get p o with
                 | Some (JObj c) => c
                 | _ => []
                 end)) o).
    cbn [at_path]. rewrite ObjMap.get_set, String.eqb_refl.
    apply IH. discriminate.
Qed.

Lemma split_nonempty sep s : Str.split sep s <> [].
Proof.
  destruct s as [|c s]; simpl; [discriminate|].
  destruct (Ascii.eqb c sep); [discriminate|].
  destruct (Str.split sep s); discriminate.
Qed.


Lemma readJsonFile_written path o w :
  readJsonFile path (writeJsonFile path o w) = sortDeep o.
Proof.
  unfold readJsonFile, writeJsonFile, writeFile. cbn.
  now rewrite lookup_insert_eq.
Qed.

Lemma ensureFile_existing settings langCode ns w lang file :
  find_language langCode (languages settings) = Some lang ->
  find_file ns (files lang) = Some file ->
  ensureFile settings langCode ns w = (settings, w, Some file).
Proof. unfold ensureFile. now intros -> ->. Qed.


End Reading.


(** ** The aggregate view *)





Section Aggregate.
Context `{Collator}.






End Aggregate.


(** ** The intake loop and [addKey] *)

Section Intake.
Context `{Collator}.
Import Http.


End Intake.

(** C6. A key with an empty first segment is announced twice: [".a"] is
    stored under the object named [""], which [flattenJson] reports as
    ["a"], so the second request does not find [".a"] and adds and
    announces it again. *)
Theorem intake_leading_dot_notified_twice :
  let H := AsciiCollation.collator in
  let req := HttpExamples.post (Some (JObj [("key", JStr ".a")])) in
  let w0 := HttpExamples.world1 in
  let w1 := snd (Http.handleRequest req w0) in
  let w2 := snd (Http.handleRequest req w1) in
  Obj.has ".a" (flattenJson (JObj (readJsonFile "/r/en-US/common.json" w0)) "")
  = false
  /\ notified w1 = [("common", [".a"])]
  /\ readJsonFile "/r/en-US/common.json" w1 = [("", JObj [("a", JStr "")])]
  /\ flattenJson (JObj (readJsonFile "/r/en-US/common.json" w1)) ""
     = [("a", "")]
  /\ notified w2 = [("common", [".a"]); ("common", [".a"])].
Proof. repeat split; vm_compute; reflexivity. Qed.

(** ** The enumeration order of an object built by assignment *)

Module JsOrderFacts.
Import JsOrder.
Section Facts.
Context {A : Type}.
Implicit Types (o : obj A) (k : string) (v : A).

Lemma array_index_inj k1 k2 n :
  Obj.array_index k1 = Some n -> Obj.array_index k2 = Some n -> k1 = k2.
Proof.
  unfold Obj.array_index. intros H1 H2.
  destruct (Obj.digits_value k1 0) as [n1|]; [|discriminate].
  destruct (Obj.digits_value k2 0) as [n2|]; [|discriminate].
  destruct (n1 <? 4294967295)%N; [|discriminate].
  destruct (n2 <? 4294967295)%N; [|discriminate].
  destruct (String.eqb_spec (pretty n1) k1); [|discriminate].
  destruct (String.eqb_spec (pretty n2) k2); [|discriminate].
  congruence.
Qed.

Lemma insert_index_app n k v (I N : obj A) :
  Forall (fun kv => not_index kv = true) N ->
  Obj.insert_index n k v (I ++ N) = Obj.insert_index n k v I ++ N.
Proof.
  intros HN. induction I as [|[k0 v0] r IH]; simpl.
  - destruct HN as [|[k1 v1] N' Hk1 _]; simpl; auto.
    unfold not_index, is_index in Hk1. simpl in Hk1.
    destruct (Obj.array_index k1); [discriminate|reflexivity].
  - destruct (Obj.array_index k0) as [m|]; auto.
    destruct (m <? n)%N; simpl; congruence.
Qed.

Lemma filter_index_all (I : obj A) :
  Forall (fun kv => is_index kv = true) I ->
  List.filter is_index I = I /\ List.filter not_index I = [].
Proof.
  unfold not_index. induction 1 as [|x r Hx _ [IH1 IH2]]; simpl; auto.
  rewrite Hx. simpl. split; congruence.
Qed.

Lemma filter_not_index_all (N : obj A) :
  Forall (fun kv => not_index kv = true) N ->
  List.filter is_index N = [] /\ List.filter not_index N = N.
Proof.
  induction 1 as [|x r Hx _ [IH1 IH2]]; simpl; auto.
  rewrite Hx. unfold not_index in Hx.
  destruct (is_index x); [discriminate|]. split; congruence.
Qed.

Lemma index_fold_perm (es : obj A) : forall acc,
  Permutation (index_fold es acc) (acc ++ List.filter is_index es).
Proof.
  unfold index_fold, is_index.
  induction es as [|[k v] r IH]; intros acc; simpl.
  - now rewrite app_nil_r.
  - destruct (Obj.array_index k) as [n|] eqn:E; simpl; auto.
    rewrite IH, ObjPerm.insert_index_perm.
    now rewrite <- Permutation_middle.
Qed.

Lemma insert_index_sorted n k v (I : obj A) :
  Obj.array_index k = Some n ->
  StronglySorted index_lt I ->
  Forall (fun x => exists m, Obj.array_index (fst x) = Some m /\ m <> n) I ->
  StronglySorted index_lt (Obj.insert_index n k v I).
Proof.
  intros Hk. induction 1 as [|[k0 v0] r Hs IH Hall]; intros Hne; simpl.
  - repeat constructor.
  - inversion Hne as [|? ? (m & Hm & Hmn) Hne']; subst. simpl in Hm.
    rewrite Hm. destruct (m <? n)%N eqn:Hlt.
    + constructor; [now apply IH|].
      eapply SortFacts.Forall_perm;
        [symmetry; apply ObjPerm.insert_index_perm|].
      constructor; [|exact Hall].
      exists m, n. simpl. apply N.ltb_lt in Hlt. auto.
    + apply N.ltb_ge in Hlt.
      constructor; [now constructor|].
      constructor.
      * exists n, m. simpl. repeat split; auto. lia.
      * eapply Forall_impl; [exact Hall|].
        intros x (m1 & m2 & H1 & H2 & Hlt'). simpl in H1.
        exists n, m2. simpl. repeat split; auto.
        assert (m1 = m) by congruence. lia.
Qed.

Lemma index_fold_sorted (es : obj A) : forall acc,
  StronglySorted index_lt acc ->
  Forall (fun kv => is_index kv = true) acc ->
  List.NoDup (Obj.keys acc ++ Obj.keys es) ->
  StronglySorted index_lt (index_fold es acc).
Proof.
  unfold index_fold.
  induction es as [|[k v] r IH]; intros acc Hs Hidx Hnd; simpl; auto.
  destruct (Obj.array_index k) as [n|] eqn:E.
  - apply IH.
    + apply insert_index_sorted; auto.
      apply List.Forall_forall. intros [k0 v0] Hx.
      rewrite List.Forall_forall in Hidx.
      pose proof (Hidx _ Hx) as Hi. unfold is_index in Hi. simpl in Hi.
      destruct (Obj.array_index k0) as [m|] eqn:E0; [|discriminate].
      exists m. split; auto. intros ->.
      assert (k0 = k) by (eapply array_index_inj; eauto). subst.
      apply List.NoDup_remove_2 in Hnd. apply Hnd, in_or_app. left.
      exact (in_map fst _ _ Hx).
    + eapply SortFacts.Forall_perm;
        [symmetry; apply ObjPerm.insert_index_perm|].
      constructor; auto. unfold is_index. simpl. now rewrite E.
    + eapply Permutation.Permutation_NoDup; [|exact Hnd].
      unfold Obj.keys. simpl.
      rewrite (Permutation_map fst (ObjPerm.insert_index_perm n k v acc)).
      simpl. now rewrite <- Permutation_middle.
  - apply IH; auto. now apply List.NoDup_remove_1 in Hnd.
Qed.

(** The closed form of [Object.assign]: the array indices in numeric
    order, then the other names in the order of their assignment. *)
Lemma assign_closed_form (es : obj A) : forall I N : obj A,
  Forall (fun kv => not_index kv = true) N ->
  List.NoDup (Obj.keys (I ++ N) ++ Obj.keys es) ->
  Obj.assign (I ++ N) es
  = index_fold es I ++ (N ++ List.filter not_index es).
Proof.
  unfold Obj.assign, index_fold.
  induction es as [|[k v] r IH]; intros I N HN Hnd; simpl.
  - now rewrite app_nil_r.
  - assert (Hfresh : ~ In k (Obj.keys (I ++ N))).
    { apply List.NoDup_remove_2 in Hnd. intros Hin. apply Hnd.
      apply in_or_app. now left. }
    unfold Obj.set at 2.
    rewrite (proj2 (ObjMap.has_false_keys k (I ++ N)) Hfresh).
    unfold not_index, is_index. cbn [fst snd].
    destruct (Obj.array_index k) as [n|] eqn:E; cbn [negb].
    + rewrite insert_index_app by exact HN.
      apply IH; auto.
      eapply Permutation.Permutation_NoDup; [|exact Hnd].
      unfold Obj.keys. simpl. rewrite !map_app.
      rewrite (Permutation_map fst (ObjPerm.insert_index_perm n k v I)).
      simpl. rewrite <- !app_assoc.
      rewrite <- Permutation_middle.
      rewrite <- (Permutation_middle (map fst I)).
      reflexivity.
    + rewrite <- app_assoc. rewrite IH.
      * rewrite <- app_assoc. reflexivity.
      * apply Forall_app. split; auto. constructor; auto.
        unfold not_index, is_index. simpl. now rewrite E.
      * eapply Permutation.Permutation_NoDup; [|exact Hnd].
        unfold Obj.keys. simpl. rewrite !map_app. simpl.
        rewrite <- !app_assoc. simpl. reflexivity.
Qed.

Lemma from_entries_closed_form (es : obj A) :
  List.NoDup (Obj.keys es) ->
  Obj.from_entries es = index_fold es [] ++ List.filter not_index es.
Proof.
  intros Hnd. unfold Obj.from_entries.
  exact (assign_closed_form es [] [] (List.Forall_nil _) Hnd).
Qed.

(** Two ascending enumerations of the same array indices are equal. *)
Lemma index_sorted_unique (l1 l2 : obj A) :
  StronglySorted index_lt l1 -> StronglySorted index_lt l2 ->
  Permutation l1 l2 -> l1 = l2.
Proof.
  apply StronglySorted_unique_strong.
  intros x1 x2 _ _ (m & n & Hm & Hn & Hlt) (m' & n' & Hm' & Hn' & Hlt').
  assert (m = n') by congruence. assert (n = m') by congruence. lia.
Qed.

End Facts.
End JsOrderFacts.

(** ** [sortDeep] is idempotent *)

Section SortDeepTwice.
Context `{Collator}.

Lemma by_key_opp (a b : string * json) : by_key b a = CompOpp (by_key a b).
Proof. apply localeCompareBase_opp. Qed.

Lemma by_key_trans (a b c : string * json) :
  by_key a b <> Gt -> by_key b c <> Gt -> by_key a c <> Gt.
Proof. apply localeCompareBase_trans. Qed.

Lemma filter_filter_not_index {A : Type} (l : obj A) :
  List.filter JsOrder.is_index (List.filter JsOrder.not_index l) = []
  /\ List.filter JsOrder.not_index (List.filter JsOrder.not_index l)
     = List.filter JsOrder.not_index l.
Proof.
  apply JsOrderFacts.filter_not_index_all, List.Forall_forall.
  intros x Hx. now apply filter_In in Hx.
Qed.

Lemma index_fold_all_index {A : Type} (es : obj A) :
  Forall (fun kv => JsOrder.is_index kv = true) (JsOrder.index_fold es []).
Proof.
  eapply SortFacts.Forall_perm; [symmetry; apply JsOrderFacts.index_fold_perm|].
  simpl. apply List.Forall_forall. intros x Hx. now apply filter_In in Hx.
Qed.

Lemma sort_entries_nodup (es : obj json) :
  List.NoDup (Obj.keys es) ->
  List.NoDup (Obj.keys (JsArray.sort by_key es)).
Proof.
  intros Hnd. eapply Permutation.Permutation_NoDup; [|exact Hnd].
  unfold Obj.keys. apply Permutation_map. symmetry. apply SortFacts.sort_perm.
Qed.

(** What [sortDeep] makes of entries whose values are settled. *)
Lemma build_sorted_shape (es : obj json) :
  List.NoDup (Obj.keys es) ->
  let o := Obj.from_entries (JsArray.sort by_key es) in
  o = JsOrder.index_fold (JsArray.sort by_key es) []
      ++ JsArray.sort by_key (List.filter JsOrder.not_index es)
  /\ List.filter JsOrder.is_index o
     = JsOrder.index_fold (JsArray.sort by_key es) []
  /\ List.filter JsOrder.not_index o
     = JsArray.sort by_key (List.filter JsOrder.not_index es).
Proof.
  intros Hnd o. subst o.
  rewrite JsOrderFacts.from_entries_closed_form by now apply sort_entries_nodup.
  rewrite (SortFacts.filter_sort by_key by_key_opp by_key_trans).
  split; [reflexivity|].
  rewrite !List.filter_app.
  destruct (JsOrderFacts.filter_index_all _
              (index_fold_all_index (JsArray.sort by_key es))) as [-> ->].
  rewrite <- (SortFacts.filter_sort by_key by_key_opp by_key_trans).
  destruct (filter_filter_not_index (JsArray.sort by_key es)) as [-> ->].
  now rewrite app_nil_r.
Qed.

Lemma sortDeep_canonical v : distinct_keys v -> canonical (sortDeep_value v).
Proof.
  induction v as [| | | |o IH] using json_ind'; intros Hd;
    [constructor|constructor|constructor|constructor|].
  apply distinct_obj_inv in Hd as [Hnd Hdv].
  rewrite sortDeep_value_obj. unfold sortDeep. fold sort_values.
  assert (Hnd' : List.NoDup (Obj.keys (map sort_values o)))
    by now rewrite keys_sort_values.
  destruct (build_sorted_shape _ Hnd') as (Hshape & Hidx & Hnot).
  constructor.
  - apply ObjPerm.nodup_assign. constructor.
  - rewrite Hidx, Hnot. exact Hshape.
  - rewrite Hidx. apply JsOrderFacts.index_fold_sorted.
    + constructor.
    + constructor.
    + now apply sort_entries_nodup.
  - rewrite Hnot.
    apply (SortFacts.sort_sorted by_key by_key_opp by_key_trans).
  - apply List.Forall_forall. intros x Hx.
    apply ObjPerm.in_assign in Hx as [Hx|[]].
    eapply Permutation_in in Hx; [|apply SortFacts.sort_perm].
    apply in_map_iff in Hx as (y & <- & Hy).
    rewrite List.Forall_forall in IH, Hdv. cbn. auto.
Qed.

Lemma sort_values_fixed (o : obj json) :
  Forall (fun kv => sortDeep_value (snd kv) = snd kv) o ->
  map sort_values o = o.
Proof.
  induction 1 as [|[k v] r Hx _ IH]; simpl; auto.
  unfold sort_values at 1. simpl in *. congruence.
Qed.

Lemma canonical_fixed v : canonical v -> sortDeep_value v = v.
Proof.
  induction v as [| | | |o IH] using json_ind'; intros Hc; auto.
  inversion Hc as [| | | |? Hnd Hsplit Hidx Hnot Hall]; subst.
  rewrite sortDeep_value_obj. f_equal.
  unfold sortDeep. fold sort_values.
  rewrite sort_values_fixed.
  2:{ apply List.Forall_forall. intros x Hx.
      rewrite List.Forall_forall in IH, Hall. auto. }
  destruct (build_sorted_shape _ Hnd) as (Hshape & _ & _).
  rewrite Hshape.
  rewrite (SortFacts.sort_of_sorted by_key _ Hnot).
  rewrite Hsplit at 3. f_equal.
  apply JsOrderFacts.index_sorted_unique.
  - apply JsOrderFacts.index_fold_sorted; [constructor|constructor|].
    now apply sort_entries_nodup.
  - exact Hidx.
  - rewrite JsOrderFacts.index_fold_perm. simpl.
    rewrite (SortFacts.filter_sort by_key by_key_opp by_key_trans).
    apply SortFacts.sort_perm.
Qed.

(** Sorting a sorted document changes nothing. *)
Lemma sortDeep_idempotent o :
  distinct_keys (JObj o) -> sortDeep (sortDeep o) = sortDeep o.
Proof.
  intros Hd. apply sortDeep_canonical, canonical_fixed in Hd.
  rewrite !sortDeep_value_obj in Hd. now injection Hd.
Qed.

Lemma distinct_sortDeep o :
  distinct_keys (JObj o) -> distinct_keys (JObj (sortDeep o)).
Proof.
  intros Hd. apply sortDeep_canonical in Hd. rewrite sortDeep_value_obj in Hd.
  clear -Hd. remember (JObj (sortDeep o)) as v eqn:E. clear E.
  induction v as [| | | |o' IH] using json_ind'; try constructor.
  - now inversion Hd.
  - inversion Hd as [| | | |? _ _ _ _ Hall]; subst.
    apply List.Forall_forall. intros x Hx.
    rewrite List.Forall_forall in IH, Hall. auto.
Qed.

End SortDeepTwice.

(** ** Adding a key twice *)

Section AddKeyTwice.
Context `{Collator}.
Variables ns key : string.

Lemma set_same {A : Type} k (v : A) (o : obj A) :
  Obj.get k o = Some v -> Obj.set k v o = o.
Proof.
  intros Hget. unfold Obj.set, Obj.has. rewrite Hget.
  induction o as [|[k0 v0] r IH]; simpl in *; [discriminate|].
  destruct (String.eqb_spec k k0) as [->|Hne].
  - now injection Hget as ->.
  - now rewrite IH.
Qed.

(** Writing to a path the value it already holds changes nothing. *)
Lemma set_path_same parts v : forall o,
  parts <> [] -> at_path parts (JObj o) = Some v -> set_path parts v o = o.
Proof.
  induction parts as [|p rest IH]; intros o Hne Hat; [congruence|].
  destruct rest as [|q rest'].
  - cbn in *. destruct (Obj.get p o) eqn:E; [|discriminate].
    injection Hat as ->. now apply set_same.
  - cbn [at_path] in Hat.
    change (set_path (p :: q :: rest') v o)
      with (Obj.set p
              (JObj (set_path (q :: rest') v
                 match Obj.get p o with
                 | Some (JObj c) => c
                 | _ => []
                 end)) o).
    destruct (Obj.get p o) as [c|] eqn:E; [|discriminate].
    destruct c as [| | | |c]; try discriminate.
    rewrite IH; [|discriminate|exact Hat]. now apply set_same.
Qed.

Lemma written_settled (j : obj json) :
  distinct_keys (JObj j) ->
  settled key (sortDeep (setNestedValue j key "")).
Proof.
  intros Hd. right. unfold setNestedValue.
  assert (Hd' : distinct_keys (JObj (set_path (Str.split_dot key) (JStr "") j)))
    by (apply distinct_set_path; [exact Hd|constructor]).
  rewrite set_path_same.
  - now apply sortDeep_idempotent.
  - apply split_nonempty.
  - rewrite <- sortDeep_value_obj, at_path_sortDeep by exact Hd'.
    rewrite at_path_set_path by apply split_nonempty. reflexivity.
Qed.

Lemma readJsonFile_distinct path w :
  disk_distinct w -> distinct_keys (JObj (readJsonFile path w)).
Proof.
  intros Hd. unfold readJsonFile.
  destruct (disk w !! path) as [[c|]|] eqn:E; try apply distinct_empty.
  eapply Hd; eauto.
Qed.

Lemma has_flat_parsed path w :
  Obj.has key (flattenJson (JObj (readJsonFile path w)) "") = true ->
  disk w !! path = Some (Parsed (readJsonFile path w)).
Proof.
  unfold readJsonFile. destruct (disk w !! path) as [[c|]|]; auto;
    discriminate.
Qed.

Lemma addKey_step_unfold st c :
  addKey_step ns key st c
  = let '(settings, w, file) := ensureFile (fst st) c ns (snd st) in
    match file with
    | None => (settings, w)
    | Some file => (settings, add_to_file key file w)
    end.
Proof.
  unfold addKey_step, add_to_file.
  destruct (ensureFile _ _ _ _) as [[settings w] [file|]]; auto.
  destruct (Obj.has _ _); reflexivity.
Qed.

Lemma world_eta w :
  {| store := store w; disk := disk w; dirs := dirs w;
     notified := notified w |} = w.
Proof. now destruct w. Qed.

Lemma add_to_file_settled_id file w :
  settled_at key (absolutePath file) w -> add_to_file key file w = w.
Proof.
  intros (c & Hc & Hs). unfold add_to_file.
  assert (Hread : readJsonFile (absolutePath file) w = c)
    by (unfold readJsonFile; now rewrite Hc).
  rewrite Hread.
  destruct (Obj.has key _) eqn:Hhas; auto.
  destruct Hs as [Hs|Hs]; [congruence|].
  unfold writeJsonFile, writeFile. rewrite Hs.
  rewrite (insert_id _ _ _ Hc). apply world_eta.
Qed.

Lemma add_to_file_settles file w :
  disk_distinct w -> settled_at key (absolutePath file) (add_to_file key file w).
Proof.
  intros Hd. unfold add_to_file.
  destruct (Obj.has key _) eqn:Hhas.
  - exists (readJsonFile (absolutePath file) w). split.
    + now apply has_flat_parsed.
    + now left.
  - eexists. split.
    + unfold writeJsonFile, writeFile. cbn. apply lookup_insert_eq.
    + apply written_settled. now apply readJsonFile_distinct.
Qed.

Lemma add_to_file_keeps_settled file path w :
  settled_at key path w -> settled_at key path (add_to_file key file w).
Proof.
  intros Hs. destruct (String.eqb_spec path (absolutePath file)) as [->|Hne].
  - now rewrite add_to_file_settled_id.
  - unfold add_to_file. destruct (Obj.has key _); auto.
    destruct Hs as (c & Hc & Hs). exists c. split; auto.
    unfold writeJsonFile, writeFile. cbn.
    rewrite lookup_insert_ne; auto.
Qed.

Lemma add_to_file_distinct file w :
  disk_distinct w -> disk_distinct (add_to_file key file w).
Proof.
  intros Hd. unfold add_to_file. destruct (Obj.has key _); auto.
  intros path c. unfold writeJsonFile, writeFile. cbn.
  destruct (String.eqb_spec path (absolutePath file)) as [->|Hne].
  - rewrite lookup_insert_eq. intros [= <-].
    apply distinct_sortDeep, distinct_set_path; [|constructor].
    now apply readJsonFile_distinct.
  - rewrite lookup_insert_ne by auto. apply Hd.
Qed.

Lemma add_to_file_store file w : store (add_to_file key file w) = store w.
Proof. unfold add_to_file. destruct (Obj.has key _); reflexivity. Qed.

(** A file that holds the key is left as it is. *)
Lemma add_to_file_keeps file path w :
  Obj.has key (flattenJson (JObj (readJsonFile path w)) "") = true ->
  disk (add_to_file key file w) !! path = disk w !! path.
Proof.
  intros Hhas. unfold add_to_file.
  destruct (Obj.has key (flattenJson
              (JObj (readJsonFile (absolutePath file) w)) "")) eqn:E; auto.
  unfold writeJsonFile, writeFile. cbn.
  apply lookup_insert_ne. intros <-. congruence.
Qed.

End AddKeyTwice.

Section EnsureFileSpec.
Variable ns : string.

Lemma push_file_codes c file ls :
  map code (push_file c file ls) = map code ls.
Proof.
  induction ls as [|l r IH]; simpl; auto.
  destruct (String.eqb (code l) c); simpl; congruence.
Qed.

Lemma find_language_push_other c c' file ls :
  c' <> c ->
  find_language c' (push_file c file ls) = find_language c' ls.
Proof.
  intros Hne. unfold find_language.
  induction ls as [|l r IH]; simpl; auto.
  destruct (String.eqb_spec (code l) c) as [Hc|Hc]; simpl.
  - destruct (String.eqb_spec (code l) c'); [congruence|reflexivity].
  - now rewrite IH.
Qed.

Lemma find_file_pushed (fs : list TranslationFile) path :
  find_file ns fs = None ->
  find_file ns (fs ++ [{| absolutePath := path; namespace := ns |}])
  = Some {| absolutePath := path; namespace := ns |}.
Proof.
  unfold find_file. induction fs as [|f r IH]; simpl.
  - now rewrite String.eqb_refl.
  - destruct (String.eqb (namespace f) ns); [discriminate|auto].
Qed.

Lemma existsSync_false path w :
  existsSync path w = false -> disk w !! path = None.
Proof.
  unfold existsSync. intros Hex. apply orb_false_iff in Hex as [Hex _].
  apply bool_decide_eq_false in Hex.
  destruct (disk w !! path); auto. elim Hex. eauto.
Qed.

(** What [ensureFile] changes and what it leaves alone. *)
Lemma ensureFile_spec settings c w settings' w' r :
  ensureFile settings c ns w = (settings', w', r) ->
  map code (languages settings') = map code (languages settings)
  /\ truthy_root settings' = truthy_root settings
  /\ (store w = settings -> store w' = settings')
  /\ (forall path x, disk w !! path = Some x -> disk w' !! path = Some x)
  /\ (forall path x, disk w' !! path = Some x ->
        disk w !! path = Some x \/ x = Parsed [])
  /\ (forall c', c' <> c ->
        find_language c' (languages settings')
        = find_language c' (languages settings))
  /\ match r with
     | Some f =>
         exists lang', find_language c (languages settings') = Some lang'
                       /\ find_file ns (files lang') = Some f
     | None =>
         settings' = settings /\ w' = w
         /\ match find_language c (languages settings) with
            | None => True
            | Some lang =>
                find_file ns (files lang) = None
                /\ truthy_root settings = None
            end
     end.
Proof.
  unfold ensureFile.
  destruct (find_language c (languages settings)) as [lang|] eqn:Hlang.
  2:{ intros [= <- <- <-]. repeat split; auto. }
  destruct (find_file ns (files lang)) as [f|] eqn:Hfile.
  { intros [= <- <- <-]. repeat split; eauto. }
  destruct (truthy_root settings) as [root|] eqn:Hroot.
  2:{ intros [= <- <- <-]. repeat split; auto. }
  set (paths :=
         match folderStructure settings with
         | Namespaced =>
             (Str.path_join (Str.path_join root c) (ns +:+ ".json"),
              if existsSync (Str.path_join root c) w then w
              else mkdirSync (Str.path_join root c) w)
         | Flat => (Str.path_join root (c +:+ ".json"), w)
         end).
  assert (Hdisk : disk (snd paths) = disk w).
  { subst paths. destruct (folderStructure settings); cbn; auto.
    destruct (existsSync _ w); reflexivity. }
  assert (Hstore : store (snd paths) = store w).
  { subst paths. destruct (folderStructure settings); cbn; auto.
    destruct (existsSync _ w); reflexivity. }
  destruct paths as [filePath w1]. cbn [snd] in Hdisk, Hstore.
  intros [= <- <- <-]. cbn [languages with_languages].
  split; [apply push_file_codes|].
  split; [unfold truthy_root; cbn; exact Hroot|].
  split; [reflexivity|].
  split; [|split; [|split]].
  - intros path x Hx. cbn [disk saveSettings].
    destruct (existsSync filePath w1) eqn:Hex; [now rewrite Hdisk|].
    apply existsSync_false in Hex. cbn [disk writeFile].
    rewrite lookup_insert_ne; [now rewrite Hdisk|].
    intros <-. rewrite Hdisk in Hex. congruence.
  - intros path x. cbn [disk saveSettings].
    destruct (existsSync filePath w1) eqn:Hex; [rewrite Hdisk; auto|].
    cbn [disk writeFile].
    destruct (String.eqb_spec path filePath) as [->|Hne].
    + rewrite lookup_insert_eq. intros [= <-]. auto.
    + rewrite lookup_insert_ne by auto. rewrite Hdisk. auto.
  - intros c' Hne. now apply find_language_push_other.
  - eexists. split; [apply find_language_push; exact Hlang|].
    cbn [files]. now apply find_file_pushed.
Qed.

End EnsureFileSpec.

Section AddKeyLoop.
Context `{Collator}.
Variables ns key : string.

Local Abbreviation step := (addKey_step ns key).
Local Abbreviation state := (AppSettings * World)%type.

Lemma ready_quiet (st : state) c : ready ns key st c -> step st c = st.
Proof.
  unfold ready. rewrite addKey_step_unfold. unfold ensureFile.
  destruct st as [settings w]. cbn [fst snd].
  destruct (find_language c (languages settings)) as [lang|]; auto.
  destruct (find_file ns (files lang)) as [f|].
  - intros Hs. now rewrite add_to_file_settled_id.
  - now intros ->.
Qed.

Lemma step_facts (st : state) c :
  map code (languages (fst (step st c))) = map code (languages (fst st))
  /\ (store (snd st) = fst st -> store (snd (step st c)) = fst (step st c))
  /\ (disk_distinct (snd st) -> disk_distinct (snd (step st c)))
  /\ (disk_distinct (snd st) -> ready ns key (step st c) c)
  /\ (forall c', c' <> c -> ready ns key st c' -> ready ns key (step st c) c')
  /\ (forall path,
        Obj.has key
          (flattenJson (JObj (readJsonFile path (snd st))) "") = true ->
        disk (snd (step st c)) !! path = disk (snd st) !! path).
Proof.
  rewrite addKey_step_unfold.
  destruct (ensureFile (fst st) c ns (snd st)) as [[settings' w'] r] eqn:E.
  destruct (ensureFile_spec _ _ _ _ _ _ _ E)
    as (Hcodes & Hroot & Hsync & Hmono & Hnew & Hother & Hr).
  assert (Hdist : disk_distinct (snd st) -> disk_distinct w').
  { intros Hd path x Hx. apply Hnew in Hx as [Hx|[= ->]].
    - eapply Hd; eauto.
    - apply distinct_empty. }
  assert (Hkeep : forall path, settled_at key path (snd st) ->
                               settled_at key path w').
  { intros path (x & Hx & Hs). exists x. split; auto. }
  assert (Hready : forall c' w'', c' <> c ->
            (forall path, settled_at key path w' ->
                          settled_at key path w'') ->
            ready ns key st c' -> ready ns key (settings', w'') c').
  { intros c' w'' Hne Hk. unfold ready. cbn [fst snd].
    rewrite (Hother c' Hne), Hroot.
    destruct (find_language c' (languages (fst st))) as [lang|]; auto.
    destruct (find_file ns (files lang)); auto. }
  destruct r as [f|].
  - destruct Hr as (lang' & Hlang' & Hfile').
    cbn [fst snd]. split; [exact Hcodes|].
    split; [rewrite add_to_file_store; exact Hsync|].
    split; [intros Hd; apply add_to_file_distinct; auto|].
    split; [|split].
    + intros Hd. unfold ready. cbn [fst snd]. rewrite Hlang', Hfile'.
      apply add_to_file_settles; auto.
    + intros c' Hne. apply Hready; auto.
      intros path. apply add_to_file_keeps_settled.
    + intros path Hhas.
      pose proof (has_flat_parsed key path (snd st) Hhas) as Hp.
      pose proof (Hmono _ _ Hp) as Hp'.
      assert (Hread : readJsonFile path w' = readJsonFile path (snd st))
        by (unfold readJsonFile at 1; now rewrite Hp').
      rewrite add_to_file_keeps.
      * now rewrite Hp, Hp'.
      * now rewrite Hread.
  - destruct Hr as (-> & -> & Hr). cbn [fst snd].
    split; [reflexivity|]. split; [auto|]. split; [auto|].
    split; [|split; auto].
    intros _. unfold ready. cbn [fst snd]. revert Hr.
    destruct (find_language c (languages (fst st))) as [lang|]; auto.
    now intros [-> ->].
Qed.

Lemma fold_facts cs : forall st : state,
  store (snd st) = fst st -> disk_distinct (snd st) ->
  let st' := fold_left step cs st in
  map code (languages (fst st')) = map code (languages (fst st))
  /\ store (snd st') = fst st'
  /\ disk_distinct (snd st')
  /\ (forall c, ready ns key st c -> ready ns key st' c)
  /\ (forall c, In c cs -> ready ns key st' c)
  /\ (forall path,
        Obj.has key
          (flattenJson (JObj (readJsonFile path (snd st))) "") = true ->
        disk (snd st') !! path = disk (snd st) !! path).
Proof.
  induction cs as [|c cs IH]; intros st Hsync Hd; cbn [fold_left].
  - repeat split; auto. intros c [].
  - destruct (step_facts st c) as (Hcodes & Hsync1 & Hd1 & Hself & Hoth & Hk).
    destruct (IH (step st c) (Hsync1 Hsync) (Hd1 Hd))
      as (Hcodes' & Hsync' & Hd' & Hpres & Hall & Hk').
    assert (Hpres1 : forall c', ready ns key st c' -> ready ns key (step st c) c').
    { intros c' Hr. destruct (String.eqb_spec c' c) as [->|Hne]; auto. }
    split; [congruence|]. split; [exact Hsync'|]. split; [exact Hd'|].
    split; [auto|]. split.
    + intros c' [<-|Hin]; auto.
    + intros path Hhas. rewrite Hk', Hk; auto.
      assert (Hread : readJsonFile path (snd (step st c))
                      = readJsonFile path (snd st))
        by (unfold readJsonFile; now rewrite Hk).
      now rewrite Hread.
Qed.

Lemma fold_quiet cs : forall st : state,
  (forall c, In c cs -> ready ns key st c) -> fold_left step cs st = st.
Proof.
  induction cs as [|c cs IH]; intros st Hr; cbn [fold_left]; auto.
  rewrite ready_quiet by (apply Hr; now left).
  apply IH. intros c' Hin. apply Hr. now right.
Qed.

(** C2. [addKey] leaves alone every file whose flattened content holds
    the key, and a second call in a row changes nothing at all. *)
Theorem addKey_idempotent (w : World) :
  disk_distinct w ->
  (forall lang file,
     In lang (languages (store w)) ->
     find_file ns (files lang) = Some file ->
     Obj.has key
       (flattenJson (JObj (readJsonFile (absolutePath file) w)) "") = true ->
     disk (addKey ns key w) !! absolutePath file
     = disk w !! absolutePath file)
  /\ addKey ns key (addKey ns key w) = addKey ns key w.
Proof.
  intros Hd. unfold addKey, loadSettings.
  set (cs := map code (languages (store w))).
  destruct (fold_facts cs (store w, w) eq_refl Hd)
    as (Hcodes & Hsync & Hd' & _ & Hall & Hkeep).
  cbn [fst snd] in *. split.
  - intros lang file _ _ Hhas. now apply Hkeep.
  - set (st' := fold_left step cs (store w, w)) in *.
    rewrite Hsync, Hcodes. fold cs.
    replace (fst st', snd st') with st' by now destruct st'.
    now rewrite fold_quiet.
Qed.

End AddKeyLoop.

Ltac distinct_keys_tac :=
  repeat (constructor; cbn; try (intuition discriminate)).

(** [en-US] has a value at [a.b], [fr-FR] has an empty file: the value
    survives, and the second call changes nothing. *)
Lemma addKey_idempotent_witness :
  let H := AsciiCollation.collator in
  let en := {| absolutePath := "/r/en-US/common.json";
               namespace := "common" |} in
  let fr := {| absolutePath := "/r/fr-FR/common.json";
               namespace := "common" |} in
  let settings :=
    {| rootFolder := Some "/r";
       languages := [{| code := "en-US"; files := [en] |};
                     {| code := "fr-FR"; files := [fr] |}];
       folderStructure := Namespaced; serverPort := 5874;
       serverAutoStart := false; deeplApiKey := "" |} in
  let w :=
    {| store := settings;
       disk := <[ "/r/en-US/common.json" :=
                    Parsed [("a", JObj [("b", JStr "hello")])] ]>
                 {[ "/r/fr-FR/common.json" := Parsed [] ]};
       dirs := ∅; notified := [] |} in
  disk (addKey "common" "a.b" w) !! "/r/en-US/common.json"
  = Some (Parsed [("a", JObj [("b", JStr "hello")])])
  /\ disk (addKey "common" "a.b" w) !! "/r/fr-FR/common.json"
     = Some (Parsed [("a", JObj [("b", JStr "")])])
  /\ addKey "common" "a.b" (addKey "common" "a.b" w)
     = addKey "common" "a.b" w.
Proof.
  intros H en fr settings w.
  assert (Hd : disk_distinct w).
  { intros path c Hc. cbn in Hc.
    apply lookup_insert_Some in Hc as [[_ [= <-]]|[_ Hc]].
    - distinct_keys_tac.
    - apply lookup_singleton_Some in Hc as [_ [= <-]]. distinct_keys_tac. }
  destruct (addKey_idempotent "common" "a.b" w Hd) as [Hkeep Htwice].
  split; [|split; [reflexivity|exact Htwice]].
  exact (eq_trans
           (Hkeep {| code := "en-US"; files := [en] |} en
              (or_introl eq_refl) eq_refl eq_refl)
           eq_refl).
Defined.

(** ** Dotted keys and paths *)

Module StrFacts.

Lemma split_plain s : Str.has_dot s = false -> Str.split_dot s = [s].
Proof.
  unfold Str.split_dot. induction s as [|c s IH]; simpl; auto.
  destruct (Ascii.eqb c "."); simpl; [discriminate|].
  intros Hs. now rewrite IH.
Qed.

Lemma split_append s t :
  Str.has_dot s = false ->
  Str.split_dot (s +:+ "." +:+ t) = s :: Str.split_dot t.
Proof.
  unfold Str.split_dot. induction s as [|c s IH]; simpl; auto.
  destruct (Ascii.eqb c "."); simpl; [discriminate|].
  intros Hs. now rewrite IH.
Qed.

Lemma join_cons p q rest :
  Str.join_dot (p :: q :: rest) = p +:+ "." +:+ Str.join_dot (q :: rest).
Proof. reflexivity. Qed.

(** Splitting undoes joining when no segment holds a dot. *)
Lemma split_join parts :
  parts <> [] -> Forall (fun s => Str.has_dot s = false) parts ->
  Str.split_dot (Str.join_dot parts) = parts.
Proof.
  induction parts as [|p rest IH]; intros Hne Hall; [congruence|].
  inversion Hall as [|? ? Hp Hrest]; subst.
  destruct rest as [|q rest'].
  - now apply split_plain.
  - rewrite join_cons, split_append by exact Hp.
    f_equal. apply IH; [discriminate|exact Hrest].
Qed.

Lemma join_string_cons c h t :
  Str.join_dot (String c h :: t) = String c (Str.join_dot (h :: t)).
Proof. destruct t; reflexivity. Qed.

(** Joining always undoes splitting. *)
Lemma join_split s : Str.join_dot (Str.split_dot s) = s.
Proof.
  unfold Str.split_dot. induction s as [|c s IH]; simpl; auto.
  destruct (Ascii.eqb_spec c ".") as [->|Hne].
  - destruct (Str.split "." s) as [|h t] eqn:E.
    + now destruct (split_nonempty "." s).
    + rewrite join_cons, IH. reflexivity.
  - destruct (Str.split "." s) as [|h t] eqn:E.
    + now destruct (split_nonempty "." s).
    + rewrite join_string_cons, IH. reflexivity.
Qed.

Lemma split_inj s t : Str.split_dot s = Str.split_dot t -> s = t.
Proof.
  intros Heq. rewrite <- (join_split s), <- (join_split t). now f_equal.
Qed.

Lemma append_nonempty s t : Str.is_empty (s +:+ "." +:+ t) = false.
Proof. destruct s; reflexivity. Qed.

Lemma append_assoc (a b c : string) : (a +:+ b) +:+ c = a +:+ (b +:+ c).
Proof.
  induction a as [|x a IH]; [reflexivity|].
  change (String x ((a +:+ b) +:+ c) = String x (a +:+ (b +:+ c))).
  now rewrite IH.
Qed.

Lemma join_snoc parts k :
  parts <> [] ->
  Str.join_dot (parts ++ [k]) = Str.join_dot parts +:+ "." +:+ k.
Proof.
  induction parts as [|p rest IH]; intros Hne; [congruence|].
  destruct rest as [|q rest'].
  - reflexivity.
  - change ((p :: q :: rest') ++ [k]) with (p :: q :: (rest' ++ [k])).
    rewrite !join_cons.
    change (q :: rest' ++ [k]) with ((q :: rest') ++ [k]).
    rewrite IH by discriminate.
    now rewrite !append_assoc.
Qed.

(** [prefix ? `${prefix}.${k}` : k] on a prefix made of segments. *)
Lemma fullKey_join parts k :
  (parts <> [] -> Str.is_empty (Str.join_dot parts) = false) ->
  fullKey (Str.join_dot parts) k = Str.join_dot (parts ++ [k]).
Proof.
  intros Hne. unfold fullKey. destruct parts as [|p rest].
  - reflexivity.
  - rewrite Hne by discriminate. now rewrite join_snoc.
Qed.

Lemma join_snoc_nonempty parts k :
  parts <> [] -> Str.is_empty (Str.join_dot (parts ++ [k])) = false.
Proof.
  intros Hne. rewrite join_snoc by exact Hne. apply append_nonempty.
Qed.

End StrFacts.

(** ** Re-nesting a flat map *)

Module PathFacts.
Import Path.




Lemma diverge_extend p : forall q r, diverge p q -> diverge p (q ++ r).
Proof.
  induction p as [|a p IH]; intros [|b q] r; simpl; try tauto.
  intros [Hne|Hd]; auto.
Qed.

End PathFacts.

Lemma set_path_step p q rest v o :
  set_path (p :: q :: rest) v o
  = Obj.set p
      (JObj (set_path (q :: rest) v
               match Obj.get p o with
               | Some (JObj c) => c
               | _ => []
               end)) o.
Proof. reflexivity. Qed.

Lemma at_path_cons p rest o :
  at_path (p :: rest) (JObj o)
  = match Obj.get p o with Some c => at_path rest c | None => None end.
Proof. reflexivity. Qed.


Lemma at_path_empty_obj q : q <> [] -> at_path q (JObj []) = None.
Proof. destruct q; [congruence|reflexivity]. Qed.






(** ** The leaves of a document *)

Lemma leaves_cons k c es :
  leaves (JObj ((k, c) :: es)) = entry_leaves k c ++ leaves (JObj es).
Proof. reflexivity. Qed.

Lemma in_leaves P s o :
  In (P, s) (leaves (JObj o))
  <-> exists k c, In (k, c) o /\ In (P, s) (entry_leaves k c).
Proof.
  induction o as [|[k c] es IH].
  - simpl. split; [tauto|]. intros (? & ? & [] & _).
  - rewrite leaves_cons, in_app_iff, IH. split.
    + intros [Hin|(k' & c' & Hin & Hl)].
      * exists k, c. split; auto. now left.
      * exists k', c'. split; auto. now right.
    + intros (k' & c' & [[= -> ->]|Hin] & Hl); auto.
      right. eauto.
Qed.

Lemma in_entry_leaves P s k c :
  In (P, s) (entry_leaves k c)
  <-> (is_leaf c = true /\ P = [k] /\ s = js_String c)
      \/ (is_leaf c = false /\ exists P', P = k :: P' /\ In (P', s) (leaves c)).
Proof.
  unfold entry_leaves.
  destruct c as [| | | |o];
    try (simpl; split;
         [intros [[= <- <-]|[]]; auto
         |intros [(_ & -> & ->)|([=] & _)]; auto]).
  rewrite in_map_iff. split.
  - intros ([P' s'] & [= <- <-] & Hin). right. split; eauto.
  - intros [([=] & _)|(_ & P' & -> & Hin)].
    exists (P', s). auto.
Qed.

Lemma normalize_obj o :
  normalize (JObj o) = JObj (map (fun kv => (fst kv, normalize (snd kv))) o).
Proof.
  cbn [normalize]. f_equal. induction o as [|[k c] r IH]; cbn; congruence.
Qed.

Lemma get_normalize k o :
  Obj.get k (map (fun kv => (fst kv, normalize (snd kv))) o)
  = option_map normalize (Obj.get k o).
Proof.
  induction o as [|[k0 c0] r IH]; simpl; auto.
  destruct (String.eqb k k0); auto.
Qed.

Lemma at_path_normalize_cons k q o :
  at_path (k :: q) (normalize (JObj o))
  = match Obj.get k o with
    | Some c => at_path q (normalize c)
    | None => None
    end.
Proof.
  rewrite normalize_obj, at_path_cons, get_normalize.
  destruct (Obj.get k o); reflexivity.
Qed.

Lemma normalize_leaf c : is_leaf c = true -> normalize c = JStr (js_String c).
Proof. now destruct c. Qed.

(** A leaf path of the document leads to that leaf of its normal form. *)
Lemma leaves_at_path v : forall P s,
  distinct_keys v -> In (P, s) (leaves v) ->
  at_path P (normalize v) = Some (JStr s).
Proof.
  induction v as [|b0|n0|s0|o IH] using json_ind'; intros P s Hd Hin;
    try now destruct Hin.
  apply distinct_obj_inv in Hd as [Hnd Hdv].
  apply in_leaves in Hin as (k & c & Hkc & Hin).
  pose proof (ObjPerm.in_get _ _ _ Hnd Hkc) as Hget.
  rewrite List.Forall_forall in IH, Hdv.
  apply in_entry_leaves in Hin as [(Hc & -> & ->)|(Hc & P' & -> & Hin)];
    rewrite at_path_normalize_cons, Hget.
  - cbn. now rewrite normalize_leaf.
  - exact (IH _ Hkc P' s (Hdv _ Hkc) Hin).
Qed.


Lemma regular_has_leaf v :
  regular_value v -> is_leaf v = false -> exists P s r, In (P, s) (leaves v) /\ P = r /\ r <> [].
Proof.
  induction v as [|b0|n0|s0|o IH] using json_ind'; intros Hr Hl;
    try discriminate.
  inversion Hr as [| | | |? Hne Hall]; subst.
  destruct o as [|[k c] es]; [congruence|].
  inversion Hall as [|? ? [_ Hc] _]; subst.
  inversion IH as [|? ? IHc _]; subst. simpl in Hc, IHc.
  destruct (is_leaf c) eqn:Hleaf.
  - exists [k], (js_String c), [k]. split; [|split; [auto|discriminate]].
    apply in_leaves. exists k, c. split; [now left|].
    apply in_entry_leaves. left. auto.
  - destruct (IHc Hc eq_refl) as (P & s & r & Hin & _ & _).
    exists (k :: P), s, (k :: P). split; [|split; [auto|discriminate]].
    apply in_leaves. exists k, c. split; [now left|].
    apply in_entry_leaves. right. split; eauto.
Qed.

(** Whatever the normal form shows at a path is a leaf of the document
    or lies above one. *)
Lemma at_path_leaves v : forall q x,
  (forall o, v = JObj o -> regular_entries o) ->
  q <> [] -> at_path q (normalize v) = Some x ->
  (exists s, x = JStr s /\ In (q, s) (leaves v))
  \/ (exists c P s r, x = JObj c /\ In (P, s) (leaves v)
                      /\ q ++ r = P /\ r <> []).
Proof.
  induction v as [|b0|n0|s0|o IH] using json_ind'; intros q x Hreg Hq Hat;
    try (destruct q; [congruence|discriminate]).
  specialize (Hreg o eq_refl). unfold regular_entries in Hreg.
  destruct q as [|k q]; [congruence|].
  rewrite at_path_normalize_cons in Hat.
  destruct (Obj.get k o) as [c|] eqn:Hget; [|discriminate].
  apply ObjPerm.get_in in Hget.
  rewrite List.Forall_forall in IH, Hreg.
  destruct (Hreg _ Hget) as [_ Hc]. simpl in Hc.
  destruct q as [|k' q'].
  - simpl in Hat. injection Hat as <-.
    destruct (is_leaf c) eqn:Hleaf.
    + left. exists (js_String c). split; [now apply normalize_leaf|].
      apply in_leaves. exists k, c. split; auto.
      apply in_entry_leaves. left. auto.
    + right. destruct (regular_has_leaf c Hc Hleaf) as (P & s & r & Hin & _ & Hr).
      destruct c as [| | | |oc]; try discriminate.
      rewrite normalize_obj.
      eexists _, (k :: P), s, P. split; [reflexivity|].
      split; [|split; [reflexivity|]].
      * apply in_leaves. exists k, (JObj oc). split; auto.
        apply in_entry_leaves. right. split; eauto.
      * destruct P; [|discriminate].
        apply in_leaves in Hin as (? & ? & _ & Hin).
        apply in_entry_leaves in Hin as [(_ & [=] & _)|(_ & ? & [=] & _)].
  - destruct (is_leaf c) eqn:Hleaf.
    { rewrite normalize_leaf in Hat by exact Hleaf. discriminate. }
    assert (Hregc : forall oc, c = JObj oc -> regular_entries oc).
    { intros oc ->. now inversion Hc. }
    destruct (IH _ Hget (k' :: q') x Hregc ltac:(discriminate) Hat)
      as [(s & -> & Hin)|(oc & P & s & r & -> & Hin & <- & Hr)].
    + left. exists s. split; auto.
      apply in_leaves. exists k, c. split; auto.
      apply in_entry_leaves. right. split; eauto.
    + right. exists oc, (k :: (k' :: q') ++ r), s, r.
      split; [reflexivity|]. split; [|split; auto].
      apply in_leaves. exists k, c. split; auto.
      apply in_entry_leaves. right. split; eauto.
Qed.

(** ** The flat map and the leaves *)

Lemma set_fresh_perm {A : Type} k (v : A) (o : obj A) :
  ~ In k (Obj.keys o) -> Permutation (Obj.set k v o) (o ++ [(k, v)]).
Proof.
  intros Hfresh. unfold Obj.set.
  rewrite (proj2 (ObjMap.has_false_keys k o) Hfresh).
  destruct (Obj.array_index k); [|reflexivity].
  rewrite ObjPerm.insert_index_perm. apply Permutation_cons_append.
Qed.

Lemma assign_fresh_perm {A : Type} (es : obj A) : forall t : obj A,
  List.NoDup (Obj.keys t ++ Obj.keys es) ->
  Permutation (Obj.assign t es) (t ++ es).
Proof.
  unfold Obj.assign.
  induction es as [|[k v] r IH]; intros t Hnd; simpl.
  - now rewrite app_nil_r.
  - assert (Hfresh : ~ In k (Obj.keys t)).
    { apply List.NoDup_remove_2 in Hnd. intros Hin. apply Hnd.
      apply in_or_app. now left. }
    rewrite IH.
    + rewrite (set_fresh_perm k v t Hfresh). now rewrite <- app_assoc.
    + eapply Permutation.Permutation_NoDup; [|exact Hnd].
      unfold Obj.keys.
      rewrite (Permutation_map fst (set_fresh_perm k v t Hfresh)).
      rewrite map_app. simpl. now rewrite <- app_assoc.
Qed.

Lemma flat_entry_child Pp k (l : list (list string * string)) :
  map (flat_entry Pp) (map (fun ps => (k :: fst ps, snd ps)) l)
  = map (flat_entry (Pp ++ [k])) l.
Proof.
  rewrite map_map. apply map_ext. intros [P s]. unfold flat_entry. cbn.
  now rewrite <- app_assoc.
Qed.

(** Up to order, and as long as no two leaves get the same key,
    [flattenJson] lists the leaves under their joined paths. *)
Lemma flatten_entries_perm v : forall es Pp result,
  v = JObj es ->
  (Pp <> [] -> Str.is_empty (Str.join_dot Pp) = false) ->
  (Pp = [] -> forall oc, ~ In (EmptyString, JObj oc) es) ->
  List.NoDup (Obj.keys result ++ Obj.keys (map (flat_entry Pp) (leaves v))) ->
  Permutation (flatten_entries (Str.join_dot Pp) es result)
    (result ++ map (flat_entry Pp) (leaves v)).
Proof.
  induction v as [|b0|n0|s0|o IH] using json_ind'; try discriminate.
  intros es Pp result [= <-] Hpfx Htop. revert result.
  induction o as [|[k c] es IHes]; intros result Hnd.
  - simpl. now rewrite app_nil_r.
  - inversion IH as [|? ? IHc IHrest]; subst. cbn [snd] in IHc.
    rewrite leaves_cons, map_app in Hnd |- *.
    cbn [flatten_entries].
    assert (Htop' : Pp = [] -> forall oc, ~ In (EmptyString, JObj oc) es).
    { intros HP oc Hin. apply (Htop HP oc). now right. }
    set (new := map (flat_entry Pp) (entry_leaves k c)) in *.
    assert (Hstep : forall result1,
              Permutation result1 (result ++ new) ->
              Permutation (flatten_entries (Str.join_dot Pp) es result1)
                (result ++ new ++ map (flat_entry Pp) (leaves (JObj es)))).
    { intros result1 Hp1. rewrite IHes; auto.
      - rewrite Hp1. now rewrite <- app_assoc.
      - eapply Permutation.Permutation_NoDup; [|exact Hnd].
        unfold Obj.keys. rewrite (Permutation_map fst Hp1).
        rewrite !map_app. now rewrite <- !app_assoc. }
    unfold Obj.keys in Hnd. rewrite !map_app in Hnd.
    destruct (is_leaf c) eqn:Hleaf.
    + assert (Hnew : new = [(fullKey (Str.join_dot Pp) k, js_String c)]).
      { subst new. rewrite StrFacts.fullKey_join by exact Hpfx.
        destruct c; try discriminate; reflexivity. }
      assert (Hset : Permutation
                (Obj.set (fullKey (Str.join_dot Pp) k) (js_String c) result)
                (result ++ new)).
      { rewrite Hnew. apply set_fresh_perm.
        rewrite Hnew in Hnd. simpl in Hnd.
        apply List.NoDup_remove_2 in Hnd. intros Hin. apply Hnd.
        apply in_or_app. now left. }
      destruct c; try discriminate; apply Hstep; exact Hset.
    + destruct c as [| | | |oc]; try discriminate.
      apply Hstep. rewrite flattenJson_obj.
      rewrite StrFacts.fullKey_join by exact Hpfx.
      assert (Hnew : new = map (flat_entry (Pp ++ [k])) (leaves (JObj oc))).
      { subst new. unfold entry_leaves. apply flat_entry_child. }
      assert (Hndc : List.NoDup (map fst new)).
      { rewrite app_assoc in Hnd. apply List.NoDup_app_remove_r in Hnd.
        now apply List.NoDup_app_remove_l in Hnd. }
      assert (Hc : Permutation
                (flatten_entries (Str.join_dot (Pp ++ [k])) oc []) new).
      { rewrite Hnew. apply (IHc oc (Pp ++ [k]) [] eq_refl).
        - intros _. destruct Pp as [|p Pp'].
          + simpl. destruct k; [|reflexivity].
            exfalso. apply (Htop eq_refl oc). now left.
          + apply StrFacts.join_snoc_nonempty. discriminate.
        - intros HP. now destruct Pp.
        - change (List.NoDup
                    (map fst (map (flat_entry (Pp ++ [k]))
                                (leaves (JObj oc))))).
          now rewrite <- Hnew. }
      rewrite assign_fresh_perm.
      * now rewrite Hc.
      * unfold Obj.keys. rewrite (Permutation_map fst Hc).
        rewrite app_assoc in Hnd. now apply List.NoDup_app_remove_r in Hnd.
Qed.

Lemma leaves_head P s o :
  In (P, s) (leaves (JObj o)) ->
  exists k P', P = k :: P' /\ In k (Obj.keys o).
Proof.
  intros Hin. apply in_leaves in Hin as (k & c & Hkc & Hin).
  assert (Hk : In k (Obj.keys o)) by exact (in_map fst _ _ Hkc).
  apply in_entry_leaves in Hin as [(_ & -> & _)|(_ & P' & -> & _)]; eauto.
Qed.

(** No two leaves share a path. *)
Lemma leaves_nodup v : distinct_keys v -> List.NoDup (map fst (leaves v)).
Proof.
  induction v as [|b0|n0|s0|o IH] using json_ind'; try (intros; constructor).
  intros Hd. apply distinct_obj_inv in Hd as [Hnd Hdv].
  induction o as [|[k c] es IHes]; [constructor|].
  inversion IH as [|? ? IHc IHrest]; subst.
  inversion Hdv as [|? ? Hdc Hdrest]; subst.
  inversion Hnd as [|? ? Hfresh Hndrest]; subst.
  cbn [snd] in IHc, Hdc.
  rewrite leaves_cons, map_app. apply List.NoDup_app.
  - unfold entry_leaves. destruct c as [| | | |oc];
      try (repeat constructor; simpl; tauto).
    rewrite map_map. cbn [fst].
    rewrite <- (map_map fst (fun P => k :: P)).
    apply List.NoDup_map_NoDup_ForallPairs; [|now apply IHc].
    intros x y _ _ [= ->]. reflexivity.
  - now apply IHes.
  - intros P HA HB.
    apply in_map_iff in HB as ([P' s'] & <- & HB).
    apply leaves_head in HB as (k' & P'' & -> & Hk').
    apply in_map_iff in HA as ([P1 s1] & HP & HA). cbn [fst] in HP.
    apply in_entry_leaves in HA as [(_ & -> & _)|(_ & ? & -> & _)];
      injection HP as <- _; auto.
Qed.

Lemma leaves_dotfree v : forall P s,
  (forall o, v = JObj o -> regular_entries o) ->
  In (P, s) (leaves v) ->
  P <> [] /\ Forall (fun x => Str.has_dot x = false) P.
Proof.
  induction v as [|b0|n0|s0|o IH] using json_ind'; intros P s Hreg Hin;
    try now destruct Hin.
  specialize (Hreg o eq_refl). unfold regular_entries in Hreg.
  apply in_leaves in Hin as (k & c & Hkc & Hin).
  rewrite List.Forall_forall in IH, Hreg.
  destruct (Hreg _ Hkc) as [Hk Hc]. cbn [fst snd] in Hk, Hc.
  apply in_entry_leaves in Hin as [(_ & -> & _)|(_ & P' & -> & Hin)].
  - split; [discriminate|]. now constructor.
  - split; [discriminate|]. constructor; auto.
    apply (IH _ Hkc P' s); auto.
    intros oc Hoc. cbn in Hoc. subst c. now inversion Hc.
Qed.

Lemma join_inj P Q :
  P <> [] -> Q <> [] ->
  Forall (fun x => Str.has_dot x = false) P ->
  Forall (fun x => Str.has_dot x = false) Q ->
  Str.join_dot P = Str.join_dot Q -> P = Q.
Proof.
  intros HP HQ HdP HdQ Heq.
  rewrite <- (StrFacts.split_join P), <- (StrFacts.split_join Q) by auto.
  now f_equal.
Qed.

Section RoundTrip.
Variable D : obj json.
Hypothesis D_distinct : distinct_keys (JObj D).
Hypothesis D_regular : regular_entries D.
Hypothesis D_top : forall c, Obj.get EmptyString D <> Some (JObj c).

Lemma D_regular' : forall o, JObj D = JObj o -> regular_entries o.
Proof. now intros o [= <-]. Qed.

Lemma flat_keys_nodup :
  List.NoDup (Obj.keys (map (flat_entry []) (leaves (JObj D)))).
Proof.
  unfold Obj.keys. rewrite map_map.
  apply List.NoDup_map_NoDup_ForallPairs.
  - intros [P s] [Q t] HP HQ Heq. unfold flat_entry in Heq. cbn in Heq.
    destruct (leaves_dotfree _ _ _ D_regular' HP) as [HPn HPd].
    destruct (leaves_dotfree _ _ _ D_regular' HQ) as [HQn HQd].
    pose proof (join_inj P Q HPn HQn HPd HQd Heq) as ->.
    f_equal.
    pose proof (leaves_at_path _ _ _ D_distinct HP) as H1.
    pose proof (leaves_at_path _ _ _ D_distinct HQ) as H2.
    congruence.
  - apply List.NoDup_map_inv with (f := fst). apply leaves_nodup, D_distinct.
Qed.

(** Up to order, the flat map is the list of the leaves. *)
Lemma flattenJson_leaves :
  Permutation (flattenJson (JObj D) "")
    (map (flat_entry []) (leaves (JObj D))).
Proof.
  rewrite flattenJson_obj.
  apply (flatten_entries_perm (JObj D) D [] [] eq_refl).
  - congruence.
  - intros _ oc Hin.
    apply (D_top oc). apply ObjPerm.in_get; auto.
    now apply distinct_obj_inv in D_distinct.
  - apply flat_keys_nodup.
Qed.




End RoundTrip.

Section RoundTripMain.
Variable D : obj json.
Hypothesis D_distinct : distinct_keys (JObj D).
Hypothesis D_regular : regular_entries D.
Hypothesis D_top : forall c, Obj.get EmptyString D <> Some (JObj c).

Let R : obj json := nest (flattenJson (JObj D) "").


End RoundTripMain.

Lemma split_dotfree s : Forall (fun x => Str.has_dot x = false) (Str.split_dot s).
Proof.
  unfold Str.split_dot. induction s as [|c s IH]; simpl.
  - repeat constructor.
  - destruct (Ascii.eqb c ".") eqn:Hc.
    + constructor; auto.
    + destruct (Str.split "." s) as [|h t]; [repeat constructor; simpl|].
      * now rewrite Hc.
      * inversion IH; subst. constructor; auto. simpl. now rewrite Hc.
Qed.


Lemma regular_set k v o :
  regular_entries o -> Str.has_dot k = false -> regular_value v ->
  regular_entries (Obj.set k v o).
Proof.
  unfold regular_entries. intros Ho Hk Hv.
  apply List.Forall_forall. intros x Hx.
  apply ObjPerm.in_set in Hx as [->|Hx]; auto.
  rewrite List.Forall_forall in Ho. auto.
Qed.


Lemma at_path_normalize q : forall v,
  at_path q (normalize v) = option_map normalize (at_path q v).
Proof.
  induction q as [|k q IH]; intros v; [reflexivity|].
  destruct v as [| | | |o]; try reflexivity.
  rewrite at_path_normalize_cons, at_path_cons.
  destruct (Obj.get k o); auto.
Qed.


Section RoundTripFlat.
Variable D : obj json.
Hypothesis D_distinct : distinct_keys (JObj D).
Hypothesis D_regular : regular_entries D.
Hypothesis D_top : forall c, Obj.get EmptyString D <> Some (JObj c).

Let R : obj json := nest (flattenJson (JObj D) "").




End RoundTripFlat.




(** ** Finding a written key again *)

Lemma split_head_nonempty k p q rest :
  leading_dot k = false -> Str.split_dot k = p :: q :: rest ->
  Str.is_empty p = false.
Proof.
  unfold Str.split_dot. destruct k as [|c s]; simpl; [discriminate|].
  intros ->. destruct (Str.split "." s); intros [= <- _]; reflexivity.
Qed.







Section SettledHas.
Context `{Collator}.


End SettledHas.

(** ** Reporting a key twice *)

Section IntakeTwice.
Context `{Collator}.
Variables ns k : string.
Import Http.

Local Abbreviation key := (Some (JStr k)).











End IntakeTwice.

(** * Further properties of the code *)

(** ** Writing and removing a key in a document *)

Lemma remove_rec_step p q rest o :
  remove_rec (p :: q :: rest) o
  = match Obj.get p o with
    | Some (JObj c) =>
        match remove_rec (q :: rest) c with
        | Done c' =>
            Done (if is_empty_obj c' then Obj.delete p o
                  else Obj.set p (JObj c') o)
        | r => r
        end
    | Some JNull => Failed
    | _ => GaveUp
    end.
Proof. reflexivity. Qed.

Lemma is_empty_keys (c : obj json) :
  (length (Obj.keys c) =? 0)%nat = is_empty_obj c.
Proof. destruct c; reflexivity. Qed.

Lemma cleanup_step child parent key up :
  cleanup child (Frame parent key :: up)
  = cleanup (if is_empty_obj child then Obj.delete key parent
             else Obj.set key (JObj child) parent) up.
Proof.
  simpl. rewrite is_empty_keys. destruct (is_empty_obj child) eqn:E; [reflexivity|].
  (* plug child (frame :: up) = cleanup (set ...) up *)
  generalize (Obj.set key (JObj child) parent) (ObjFacts.set_nonempty key (JObj child) parent).
  clear. induction up as [|[par k] up IH]; intros o Ho; simpl; [reflexivity|].
  rewrite is_empty_keys. destruct o; [congruence|]. reflexivity.
Qed.

Lemma walk_remove_rec parts : forall cur stack,
  parts <> [] ->
  match remove_rec parts cur with
  | GaveUp => walk parts (JObj cur) stack = EarlyReturn
  | Failed => walk parts (JObj cur) stack = TypeError
  | Done cur' =>
      exists leafobj stack',
        walk parts (JObj cur) stack = Reached leafobj stack'
        /\ cleanup leafobj stack' = cleanup cur' stack
  end.
Proof.
  induction parts as [|p rest IH]; intros cur stack Hne; [congruence|].
  destruct rest as [|q rest].
  - simpl. eauto.
  - rewrite remove_rec_step, walk_step.
    destruct (Obj.get p cur) as [[| | | |c]|] eqn:Hget;
      cbn [typeof_object]; try reflexivity.
    + destruct rest; reflexivity.
    + specialize (IH c (Frame cur p :: stack) ltac:(congruence)).
      destruct (remove_rec (q :: rest) c) as [| |c'] eqn:Hrec;
        [exact IH|exact IH|].
      destruct IH as (leafobj & stack' & Hw & Hc).
      exists leafobj, stack'. split; [exact Hw|].
      rewrite Hc. apply cleanup_step.
Qed.

Lemma removeNestedKey_rec o dottedKey :
  removeNestedKey o dottedKey
  = match remove_rec (Str.split_dot dottedKey) o with
    | GaveUp => Returned o
    | Failed => Threw
    | Done o' => Returned o'
    end.
Proof.
  unfold removeNestedKey.
  pose proof (walk_remove_rec (Str.split_dot dottedKey) o []
                (split_nonempty _ _)) as Hw.
  destruct (remove_rec (Str.split_dot dottedKey) o) as [| |o'].
  - now rewrite Hw.
  - now rewrite Hw.
  - destruct Hw as (leafobj & stack' & -> & Hc). now rewrite Hc.
Qed.

Lemma replace_replace {A : Type} k (v1 v2 : A) (o : obj A) :
  Obj.replace k v2 (Obj.replace k v1 o) = Obj.replace k v2 o.
Proof.
  induction o as [|[k0 v0] r IH]; simpl; [reflexivity|].
  destruct (String.eqb k k0) eqn:E; simpl; rewrite E; [reflexivity|].
  now rewrite IH.
Qed.

Lemma replace_insert_index {A : Type} n k (v1 v2 : A) (o : obj A) :
  Obj.has k o = false ->
  Obj.replace k v2 (Obj.insert_index n k v1 o) = Obj.insert_index n k v2 o.
Proof.
  unfold Obj.has.
  induction o as [|[k0 v0] r IH]; simpl; intros Hfresh.
  - now rewrite String.eqb_refl.
  - destruct (String.eqb_spec k k0) as [->|Hne]; [discriminate|].
    assert (Hhead : Obj.replace k v2 ((k, v1) :: (k0, v0) :: r)
                    = (k, v2) :: (k0, v0) :: r).
    { simpl. now rewrite String.eqb_refl. }
    destruct (Obj.array_index k0) as [m|]; [|exact Hhead].
    destruct (m <? n)%N; [|exact Hhead].
    simpl. rewrite (proj2 (String.eqb_neq _ _) Hne). now rewrite IH.
Qed.

Lemma replace_app_fresh {A : Type} k (v1 v2 : A) (o : obj A) :
  Obj.has k o = false ->
  Obj.replace k v2 (o ++ [(k, v1)]) = o ++ [(k, v2)].
Proof.
  unfold Obj.has.
  induction o as [|[k0 v0] r IH]; simpl; intros Hfresh.
  - now rewrite String.eqb_refl.
  - destruct (String.eqb_spec k k0) as [->|Hne]; [discriminate|].
    now rewrite IH.
Qed.

(** The last of two writes to one name wins. *)
Lemma set_set {A : Type} k (v1 v2 : A) (o : obj A) :
  Obj.set k v2 (Obj.set k v1 o) = Obj.set k v2 o.
Proof.
  unfold Obj.set at 1. rewrite ObjMap.has_set, String.eqb_refl. simpl.
  unfold Obj.set. destruct (Obj.has k o) eqn:Hhas.
  - apply replace_replace.
  - destruct (Obj.array_index k).
    + now apply replace_insert_index.
    + now apply replace_app_fresh.
Qed.

Lemma delete_fresh {A : Type} k (o : obj A) :
  Obj.has k o = false -> Obj.delete k o = o.
Proof.
  unfold Obj.has.
  induction o as [|[k0 v0] r IH]; simpl; intros Hfresh; [reflexivity|].
  destruct (String.eqb_spec k k0) as [->|Hne]; [discriminate|].
  now rewrite IH.
Qed.

Lemma delete_delete {A : Type} k (o : obj A) :
  Obj.delete k (Obj.delete k o) = Obj.delete k o.
Proof.
  apply delete_fresh. unfold Obj.has.
  now rewrite ObjMap.get_delete, String.eqb_refl.
Qed.

Lemma delete_insert_index {A : Type} n k (v : A) (o : obj A) :
  Obj.has k o = false -> Obj.delete k (Obj.insert_index n k v o) = o.
Proof.
  intros Hfresh. pose proof (delete_fresh k o Hfresh) as Hdel.
  revert Hfresh Hdel. unfold Obj.has.
  induction o as [|[k0 v0] r IH]; simpl; intros Hfresh Hdel.
  - now rewrite String.eqb_refl.
  - destruct (String.eqb_spec k k0) as [->|Hne]; [discriminate|].
    assert (Hhead : Obj.delete k ((k, v) :: (k0, v0) :: r) = (k0, v0) :: r).
    { simpl. rewrite String.eqb_refl.
      rewrite (proj2 (String.eqb_neq _ _) Hne). congruence. }
    destruct (Obj.array_index k0) as [m|]; [|exact Hhead].
    destruct (m <? n)%N; [|exact Hhead].
    simpl. rewrite (proj2 (String.eqb_neq _ _) Hne).
    f_equal. apply IH; [exact Hfresh|congruence].
Qed.

Lemma delete_app_fresh {A : Type} k (v : A) (o : obj A) :
  Obj.has k o = false -> Obj.delete k (o ++ [(k, v)]) = o.
Proof.
  unfold Obj.has.
  induction o as [|[k0 v0] r IH]; simpl; intros Hfresh.
  - now rewrite String.eqb_refl.
  - destruct (String.eqb_spec k k0) as [->|Hne]; [discriminate|].
    now rewrite IH.
Qed.

(** Deleting a name just written to an object that lacked it gives the
    object back. *)
Lemma delete_set_fresh {A : Type} k (v : A) (o : obj A) :
  Obj.has k o = false -> Obj.delete k (Obj.set k v o) = o.
Proof.
  intros Hfresh. unfold Obj.set. rewrite Hfresh.
  destruct (Obj.array_index k).
  - now apply delete_insert_index.
  - now apply delete_app_fresh.
Qed.

Lemma set_path_set_path parts v1 v2 : forall o,
  set_path parts v2 (set_path parts v1 o) = set_path parts v2 o.
Proof.
  induction parts as [|p rest IH]; intros o; [reflexivity|].
  destruct rest as [|q rest].
  - simpl. apply set_set.
  - rewrite !set_path_step.
    rewrite ObjMap.get_set, String.eqb_refl.
    rewrite IH. apply set_set.
Qed.


(** X2. Of two writes to the same key the last one wins: the first leaves no
    trace. *)
Theorem setNestedValue_last_wins (o : obj json) (dottedKey v1 v2 : string) :
  setNestedValue (setNestedValue o dottedKey v1) dottedKey v2
  = setNestedValue o dottedKey v2.
Proof. unfold setNestedValue. apply set_path_set_path. Qed.

Lemma remove_rec_gone parts : forall o,
  parts <> [] ->
  match remove_rec parts o with
  | GaveUp => at_path parts (JObj o) = None
  | Failed => True
  | Done o' => at_path parts (JObj o') = None
  end.
Proof.
  induction parts as [|p rest IH]; intros o Hne; [congruence|].
  destruct rest as [|q rest].
  - simpl. now rewrite ObjMap.get_delete, String.eqb_refl.
  - rewrite remove_rec_step, !at_path_cons.
    destruct (Obj.get p o) as [[| | | |c]|] eqn:Hget; try reflexivity; try exact I.
    specialize (IH c ltac:(congruence)).
    destruct (remove_rec (q :: rest) c) as [| |c'] eqn:Hrec; [exact IH|exact I|].
    rewrite at_path_cons.
    destruct (is_empty_obj c').
    + now rewrite ObjMap.get_delete, String.eqb_refl.
    + now rewrite ObjMap.get_set, String.eqb_refl.
Qed.

Lemma remove_rec_twice parts : forall o,
  match remove_rec parts o with
  | GaveUp | Failed => True
  | Done o' => remove_rec parts o' = GaveUp \/ remove_rec parts o' = Done o'
  end.
Proof.
  induction parts as [|p rest IH]; intros o; [exact I|].
  destruct rest as [|q rest].
  - simpl. right. now rewrite delete_delete.
  - rewrite remove_rec_step.
    destruct (Obj.get p o) as [[| | | |c]|] eqn:Hget; try exact I.
    specialize (IH c).
    destruct (remove_rec (q :: rest) c) as [| |c'] eqn:Hrec; try exact I.
    rewrite remove_rec_step.
    destruct (is_empty_obj c') eqn:Hempty.
    + left. now rewrite ObjMap.get_delete, String.eqb_refl.
    + rewrite ObjMap.get_set, String.eqb_refl.
      destruct IH as [->| ->]; [now left|right].
      rewrite Hempty. now rewrite set_set.
Qed.

Lemma diverge_nonempty p q : Path.diverge p q -> q <> [].
Proof. destruct p, q; simpl; intros Hd; congruence || tauto. Qed.

Lemma remove_rec_frame parts : forall o q,
  Path.diverge parts q ->
  match remove_rec parts o with
  | GaveUp | Failed => True
  | Done o' => at_path q (JObj o') = at_path q (JObj o)
  end.
Proof.
  induction parts as [|p rest IH]; intros o q Hd; [exact I|].
  destruct q as [|x q]; [now destruct rest|].
  destruct rest as [|r rest].
  - simpl. simpl in Hd. destruct Hd as [Hne|Hd]; [|now destruct q].
    rewrite ObjMap.get_delete.
    now rewrite (proj2 (String.eqb_neq x p)) by congruence.
  - rewrite remove_rec_step.
    destruct (Obj.get p o) as [[| | | |c]|] eqn:Hget; try exact I.
    destruct (remove_rec (r :: rest) c) as [| |c'] eqn:Hrec; try exact I.
    rewrite !at_path_cons.
    destruct (String.eqb_spec x p) as [->|Hne].
    + simpl in Hd. destruct Hd as [Hd|Hd]; [congruence|].
      specialize (IH c q Hd). rewrite Hrec in IH. rewrite Hget.
      destruct (is_empty_obj c') eqn:Hempty.
      * rewrite ObjMap.get_delete, String.eqb_refl.
        rewrite <- IH. destruct c'; [|discriminate].
        symmetry. apply at_path_empty_obj.
        destruct q; [now destruct rest|congruence].
      * rewrite ObjMap.get_set, String.eqb_refl. exact IH.
    + destruct (is_empty_obj c').
      * rewrite ObjMap.get_delete.
        now rewrite (proj2 (String.eqb_neq x p)) by congruence.
      * rewrite ObjMap.get_set.
        now rewrite (proj2 (String.eqb_neq x p)) by congruence.
Qed.

(** X3. When [removeNestedKey] returns, the path of the key leads nowhere
    in the document it leaves, whether or not the key was there; every
    path that branches off the path of the key leads where it led: pruning
    only takes away ancestors that hold nothing else; and removing the key
    a second time returns the same document. *)
Theorem removeNestedKey_removes_its_path (o o' : obj json)
    (dottedKey : string) :
  removeNestedKey o dottedKey = Returned o' ->
  at_path (Str.split_dot dottedKey) (JObj o') = None
  /\ (forall q,
        Path.diverge (Str.split_dot dottedKey) q ->
        at_path q (JObj o') = at_path q (JObj o))
  /\ removeNestedKey o' dottedKey = Returned o'.
Proof.
  rewrite !removeNestedKey_rec. intros E.
  pose proof (remove_rec_gone (Str.split_dot dottedKey) o
                (split_nonempty _ _)) as Hgone.
  assert (Hframe := fun q Hd =>
            remove_rec_frame (Str.split_dot dottedKey) o q Hd).
  pose proof (remove_rec_twice (Str.split_dot dottedKey) o) as Htwice.
  destruct (remove_rec (Str.split_dot dottedKey) o) as [| |o1] eqn:Hrec;
    inversion E; subst; (split; [exact Hgone|]); split.
  - reflexivity.
  - now rewrite Hrec.
  - exact Hframe.
  - destruct Htwice as [->| ->]; reflexivity.
Qed.

Lemma removeNestedKey_removes_its_path_witness :
  removeNestedKey [("a", JObj [("b", JStr "x"); ("c", JStr "y")])] "a.b"
  = Returned [("a", JObj [("c", JStr "y")])]
  /\ at_path (Str.split_dot "a.b") (JObj [("a", JObj [("c", JStr "y")])])
     = None
  /\ at_path ["a"; "c"] (JObj [("a", JObj [("c", JStr "y")])])
     = Some (JStr "y")
  /\ removeNestedKey [("a", JObj [("c", JStr "y")])] "a.b"
     = Returned [("a", JObj [("c", JStr "y")])].
Proof.
  split; [reflexivity|].
  destruct (removeNestedKey_removes_its_path
              [("a", JObj [("b", JStr "x"); ("c", JStr "y")])]
              [("a", JObj [("c", JStr "y")])] "a.b" eq_refl)
    as (Hgone & Hframe & Htwice).
  split; [exact Hgone|]. split; [|exact Htwice].
  rewrite (Hframe ["a"; "c"]); [reflexivity|].
  simpl. right. left. discriminate.
Defined.

Lemma set_path_fresh_nonempty parts v o : parts <> [] -> set_path parts v o <> [].
Proof.
  destruct parts as [|p [|q rest]]; intros Hne; [congruence| |];
    [simpl|rewrite set_path_step]; apply ObjFacts.set_nonempty.
Qed.

Lemma remove_rec_set_path parts v : forall o,
  fresh_path parts o ->
  remove_rec parts (set_path parts v o) = Done o.
Proof.
  induction parts as [|p rest IH]; intros o Hfresh; [destruct Hfresh|].
  destruct rest as [|q rest].
  - simpl in *. now rewrite delete_set_fresh.
  - rewrite set_path_step, remove_rec_step.
    rewrite ObjMap.get_set, String.eqb_refl.
    change (fresh_path (p :: q :: rest) o) with
      (match Obj.get p o with
       | None => True
       | Some (JObj c) => c <> [] /\ fresh_path (q :: rest) c
       | Some _ => False
       end) in Hfresh.
    destruct (Obj.get p o) as [[| | | |c]|] eqn:Hget; try destruct Hfresh.
    + rewrite IH by assumption.
      destruct c; [congruence|]. cbn [is_empty_obj].
      rewrite set_set. f_equal. now apply set_same.
    + assert (Hchain : exists x, remove_rec (q :: rest)
                (set_path (q :: rest) v []) = Done x /\ is_empty_obj x = true).
      { clear IH Hget. revert q. induction rest as [|r rest IHr]; intros q.
        - exists []. split; [|reflexivity].
          cbn [remove_rec set_path]. f_equal. now apply delete_set_fresh.
        - rewrite set_path_step, remove_rec_step. cbn [Obj.get].
          rewrite ObjMap.get_set, String.eqb_refl.
          destruct (IHr r) as (x & -> & ->).
          exists []. split; [|reflexivity]. f_equal.
          now apply delete_set_fresh. }
      destruct Hchain as (x & -> & ->). f_equal.
      apply delete_set_fresh. unfold Obj.has. now rewrite Hget.
Qed.

(** X4. Removing a key just set on a document to which its path was new gives
    the document back: the intermediate objects that the write created are
    pruned again, and nothing else moves. *)
Theorem removeNestedKey_undoes_set (o : obj json) (dottedKey value : string) :
  fresh_path (Str.split_dot dottedKey) o ->
  removeNestedKey (setNestedValue o dottedKey value) dottedKey = Returned o.
Proof.
  intros Hfresh. rewrite removeNestedKey_rec. unfold setNestedValue.
  now rewrite remove_rec_set_path.
Qed.

Lemma removeNestedKey_undoes_set_witness :
  removeNestedKey
    (setNestedValue [("a", JObj [("x", JStr "1")])] "a.b.c" "v") "a.b.c"
  = Returned [("a", JObj [("x", JStr "1")])].
Proof.
  apply removeNestedKey_undoes_set. simpl. split; [discriminate|exact I].
Defined.

(** ** Reading a document through its flat keys *)

Lemma normalize_is_str x s :
  normalize x = JStr s <-> is_leaf x = true /\ js_String x = s.
Proof.
  destruct x as [| | | |o]; cbn [is_leaf]; try rewrite normalize_obj;
    split; try (intros [= <-]; split; reflexivity);
    try (intros [_ <-]; reflexivity); try discriminate.
  now intros [? _].
Qed.

Section Lookup.
Variable D : obj json.
Hypothesis D_plain : plain_document D.

Lemma flat_nodup : List.NoDup (Obj.keys (flattenJson (JObj D) "")).
Proof.
  destruct D_plain as (Hd & Hr & Ht).
  eapply Permutation.Permutation_NoDup;
    [apply Permutation_map; symmetry; apply (flattenJson_leaves D Hd Hr Ht)|].
  apply (flat_keys_nodup D Hd Hr).
Qed.

Lemma flattenJson_get k s :
  Obj.get k (flattenJson (JObj D) "") = Some s <-> leaf_at k D = Some s.
Proof.
  destruct D_plain as (Hd & Hr & Ht).
  assert (Hleaf : leaf_at k D = Some s
                  <-> at_path (Str.split_dot k) (normalize (JObj D))
                      = Some (JStr s)).
  { unfold leaf_at. rewrite at_path_normalize.
    destruct (at_path (Str.split_dot k) (JObj D)) as [x|]; cbn [option_map];
      [|split; discriminate].
    split.
    - intros Hx. f_equal. apply normalize_is_str.
      destruct x; try discriminate; (split; [reflexivity|congruence]).
    - intros [= Hx]. apply normalize_is_str in Hx as [Hl <-].
      destruct x; try discriminate; reflexivity. }
  rewrite Hleaf. split.
  - intros Hget. apply ObjPerm.get_in in Hget.
    eapply Permutation_in in Hget; [|apply (flattenJson_leaves D Hd Hr Ht)].
    apply in_map_iff in Hget as ([P t] & [= <- <-] & HP).
    destruct (leaves_dotfree _ _ _ (D_regular' D Hr) HP) as [HPn HPd].
    cbn [fst app]. rewrite StrFacts.split_join by assumption.
    now apply leaves_at_path.
  - intros Hat.
    destruct (at_path_leaves (JObj D) (Str.split_dot k) _ (D_regular' D Hr)
                (split_nonempty _ _) Hat)
      as [(s' & [= <-] & Hl)|(c & ? & ? & ? & [=] & _)].
    apply ObjPerm.in_get; [apply flat_nodup|].
    eapply Permutation_in; [symmetry; apply (flattenJson_leaves D Hd Hr Ht)|].
    apply in_map_iff. exists (Str.split_dot k, s). split; [|exact Hl].
    unfold flat_entry. cbn [fst snd app]. now rewrite StrFacts.join_split.
Qed.

End Lookup.

Lemma flat_lookup (D : obj json) (k : string) :
  plain_document D ->
  Obj.get k (flattenJson (JObj D) "") = leaf_at k D.
Proof.
  intros HD.
  destruct (leaf_at k D) as [s|] eqn:Hleaf.
  - now apply flattenJson_get.
  - destruct (Obj.get k (flattenJson (JObj D) "")) as [s|] eqn:Hget;
      [|reflexivity].
    apply (flattenJson_get D HD) in Hget. congruence.
Qed.



Section SortDeepKeeps.
Context `{Collator}.

Lemma in_sortDeep x o :
  In x (sortDeep o) -> exists kv, In kv o /\ x = sort_values kv.
Proof.
  unfold sortDeep. fold sort_values. unfold Obj.from_entries. intros Hin.
  apply ObjPerm.in_assign in Hin as [Hin|[]].
  eapply Permutation_in in Hin; [|apply SortFacts.sort_perm].
  apply in_map_iff in Hin as (kv & <- & Hkv). eauto.
Qed.

Lemma sortDeep_nonempty o :
  List.NoDup (Obj.keys o) -> o <> [] -> sortDeep o <> [].
Proof.
  intros Hnd Hne Hempty. destruct o as [|[k v] r]; [congruence|].
  pose proof (get_sortDeep k ((k, v) :: r) Hnd) as Hget.
  rewrite Hempty in Hget. simpl in Hget. rewrite String.eqb_refl in Hget.
  discriminate.
Qed.

Lemma regular_sortDeep v :
  distinct_keys v -> regular_value v -> regular_value (sortDeep_value v).
Proof.
  induction v as [| | | |o IH] using json_ind'; intros Hd Hr;
    try exact Hr.
  rewrite sortDeep_value_obj.
  inversion Hr as [| | | |? Hne Hall]; subst.
  inversion Hd as [| | | |? Hnd Hdall]; subst.
  constructor; [now apply sortDeep_nonempty|].
  apply List.Forall_forall. intros x Hx.
  apply in_sortDeep in Hx as ([k c] & Hin & ->).
  rewrite List.Forall_forall in IH, Hall, Hdall.
  destruct (Hall _ Hin) as [Hk Hc]. cbn [sort_values fst snd] in *.
  split; [exact Hk|]. apply (IH _ Hin); [apply (Hdall _ Hin)|exact Hc].
Qed.

Lemma plain_sortDeep D : plain_document D -> plain_document (sortDeep D).
Proof.
  intros (Hd & Hr & Ht). split; [now apply distinct_sortDeep|]. split.
  - unfold regular_entries in *.
    apply List.Forall_forall. intros x Hx.
    apply in_sortDeep in Hx as ([k c] & Hin & ->).
    rewrite List.Forall_forall in Hr. destruct (Hr _ Hin) as [Hk Hc].
    cbn [sort_values fst snd] in *. split; [exact Hk|].
    apply regular_sortDeep; [|exact Hc].
    apply distinct_obj_inv in Hd as [_ Hall].
    rewrite List.Forall_forall in Hall. apply (Hall _ Hin).
  - intros c Hget.
    rewrite get_sortDeep in Hget by (now apply distinct_obj_inv in Hd).
    destruct (Obj.get "" D) as [[| | | |c']|] eqn:HD; try discriminate.
    now apply (Ht c').
Qed.

Lemma leaf_at_sortDeep k D :
  distinct_keys (JObj D) -> leaf_at k (sortDeep D) = leaf_at k D.
Proof.
  intros Hd. unfold leaf_at.
  rewrite <- sortDeep_value_obj, at_path_sortDeep by exact Hd.
  destruct (at_path (Str.split_dot k) (JObj D)) as [[| | | |c]|];
    reflexivity.
Qed.

Lemma flat_sortDeep (D : obj json) (k : string) :
  plain_document D ->
  Obj.get k (flattenJson (JObj (sortDeep D)) "")
  = Obj.get k (flattenJson (JObj D) "").
Proof.
  intros HD.
  rewrite (flat_lookup (sortDeep D) k (plain_sortDeep D HD)).
  rewrite (flat_lookup D k HD).
  apply leaf_at_sortDeep, HD.
Qed.


(** X7. [sortDeep] is idempotent on documents as [JSON.parse] returns them:
    sorting a sorted document changes nothing. *)
Theorem sortDeep_twice (o : obj json) :
  distinct_keys (JObj o) -> sortDeep (sortDeep o) = sortDeep o.
Proof. apply sortDeep_idempotent. Qed.


End SortDeepKeeps.


Lemma sortDeep_twice_witness :
  let H := AsciiCollation.collator in
  sortDeep (sortDeep [("b", JStr "y"); ("10", JNum 1); ("9", JNum 2)])
  = [("9", JNum 2); ("10", JNum 1); ("b", JStr "y")].
Proof.
  intros H.
  rewrite (sortDeep_twice [("b", JStr "y"); ("10", JNum 1); ("9", JNum 2)]).
  - reflexivity.
  - distinct_keys_tac.
Defined.


(** ** Adding and removing languages and files *)

Lemma create_if_missing_keeps path p x w :
  disk w !! p = Some x -> disk (create_if_missing path w) !! p = Some x.
Proof.
  intros Hp. unfold create_if_missing.
  destruct (existsSync path w) eqn:E; [exact Hp|].
  cbn. rewrite lookup_insert_ne; [exact Hp|].
  intros <-. unfold existsSync in E.
  apply orb_false_iff in E as [E _].
  apply bool_decide_eq_false in E. apply E. rewrite Hp. eauto.
Qed.

Lemma create_if_missing_exists path w :
  is_Some (disk (create_if_missing path w) !! path)
  \/ path ∈ dirs (create_if_missing path w).
Proof.
  unfold create_if_missing. destruct (existsSync path w) eqn:E.
  - unfold existsSync in E. apply orb_true_iff in E as [E|E].
    + left. now apply bool_decide_eq_true in E.
    + right. now apply bool_decide_eq_true in E.
  - left. cbn. rewrite lookup_insert_eq. eauto.
Qed.

Lemma create_if_missing_store path w :
  store (create_if_missing path w) = store w.
Proof. unfold create_if_missing. now destruct (existsSync path w). Qed.

Lemma create_if_missing_dirs path w :
  dirs (create_if_missing path w) = dirs w.
Proof. unfold create_if_missing. now destruct (existsSync path w). Qed.

Lemma create_if_missing_notified path w :
  notified (create_if_missing path w) = notified w.
Proof. unfold create_if_missing. now destruct (existsSync path w). Qed.

Lemma addLanguage_files_spec dirPath nss : forall acc,
  let r := fold_left (addLanguage_file dirPath) nss acc in
  fst r = fst acc
          ++ map (fun ns => {| absolutePath :=
                                 Str.path_join dirPath (ns +:+ ".json");
                               namespace := ns |}) nss
  /\ (forall p x, disk (snd acc) !! p = Some x -> disk (snd r) !! p = Some x)
  /\ (forall ns, In ns nss ->
        let p := Str.path_join dirPath (ns +:+ ".json") in
        is_Some (disk (snd r) !! p) \/ p ∈ dirs (snd r))
  /\ store (snd r) = store (snd acc)
  /\ dirs (snd r) = dirs (snd acc)
  /\ notified (snd r) = notified (snd acc).
Proof.
  induction nss as [|ns nss IH]; intros acc; cbn [fold_left].
  - cbn. rewrite app_nil_r. repeat split; auto. intros ns [].
  - specialize (IH (addLanguage_file dirPath acc ns)).
    cbn zeta in *.
    set (r := fold_left (addLanguage_file dirPath) nss
                (addLanguage_file dirPath acc ns)) in *.
    destruct IH as (Hf & Hkeep & Hex & Hst & Hdirs & Hnot).
    unfold addLanguage_file in Hf, Hkeep, Hst, Hdirs, Hnot.
    cbn [fst snd] in *.
    split; [rewrite Hf, <- app_assoc; reflexivity|].
    split; [intros p x Hp; apply Hkeep; now apply create_if_missing_keeps|].
    split.
    + intros ns' [<-|Hin]; [|now apply Hex].
      rewrite Hdirs, create_if_missing_dirs.
      destruct (create_if_missing_exists
                  (Str.path_join dirPath (ns +:+ ".json")) (snd acc))
        as [[x Hx]|Hd].
      * left. exists x. now apply Hkeep.
      * right. now rewrite create_if_missing_dirs in Hd.
    + rewrite Hst, Hdirs, Hnot.
      rewrite create_if_missing_store, create_if_missing_dirs,
        create_if_missing_notified. auto.
Qed.

Lemma settings_eta settings :
  with_languages (languages settings) settings = settings.
Proof. now destruct settings. Qed.

Lemma existsb_code_app c ls l :
  existsb (fun l => String.eqb (code l) c) (ls ++ [l])
  = existsb (fun l => String.eqb (code l) c) ls || String.eqb (code l) c.
Proof. rewrite existsb_app. simpl. now rewrite orb_false_r. Qed.

(** What [addLanguage] returns is what it has stored. *)
Lemma addLanguage_stored c w :
  store (snd (addLanguage c w)) = fst (addLanguage c w).
Proof.
  unfold addLanguage, loadSettings.
  destruct (truthy_root (store w)) as [root|]; [|reflexivity].
  destruct (existsb _ _); [reflexivity|].
  destruct (folderStructure (store w)).
  - destruct (fold_left _ _ _) as [fs w1]. reflexivity.
  - reflexivity.
Qed.

(** X9. [addLanguage] is safe to repeat and never overwrites a file: a
    second call with the same code finds the language and returns the
    stored settings without touching anything, and whatever a path held
    before a call it still holds after it. *)
Theorem addLanguage_safe (langCode : string) (w : World) :
  addLanguage langCode (snd (addLanguage langCode w)) = addLanguage langCode w
  /\ forall path x,
       disk w !! path = Some x ->
       disk (snd (addLanguage langCode w)) !! path = Some x.
Proof.
  split.
  - pose proof (addLanguage_stored langCode w) as Hst.
    unfold addLanguage at 1. unfold loadSettings. rewrite Hst.
    unfold addLanguage in *. unfold loadSettings in *.
    destruct (truthy_root (store w)) as [root|] eqn:Hroot.
    + destruct (existsb _ (languages (store w))) eqn:Hex.
      * cbn [fst snd]. now rewrite Hroot, Hex.
      * destruct (match folderStructure (store w) with
                  | Namespaced => _ | Flat => _ end) as [fs w1].
        cbn [fst snd] in *.
        assert (Hroot' : truthy_root
                  (with_languages
                     (languages (store w)
                      ++ [{| code := langCode; files := fs |}])
                     (store w)) = Some root) by exact Hroot.
        rewrite Hroot'. cbn [languages with_languages].
        rewrite existsb_code_app. cbn [code]. rewrite String.eqb_refl.
        now rewrite orb_true_r.
    + cbn [fst snd]. now rewrite Hroot.
  - intros path x Hp. unfold addLanguage, loadSettings.
    destruct (truthy_root (store w)) as [root|]; [|exact Hp].
    destruct (existsb _ _); [exact Hp|].
    destruct (folderStructure (store w)).
    + pose proof (addLanguage_files_spec (Str.path_join root langCode)
                    (allNamespaces (store w))
                    ([], if existsSync (Str.path_join root langCode) w then w
                         else mkdirSync (Str.path_join root langCode) w))
        as (_ & Hkeep & _).
      destruct (fold_left _ _ _) as [fs w1]. cbn [fst snd] in *.
      apply Hkeep. now destruct (existsSync _ w).
    + cbn [fst snd saveSettings disk].
      now apply create_if_missing_keeps.
Qed.

Lemma addLanguage_safe_witness :
  disk (snd (addLanguage "fr-FR" HttpExamples.world1))
    !! "/r/en-US/common.json" = Some (Parsed []).
Proof.
  apply (proj2 (addLanguage_safe "fr-FR" HttpExamples.world1)).
  reflexivity.
Defined.

Lemma set_add_all_app xs ys s :
  set_add_all (xs ++ ys) s = set_add_all ys (set_add_all xs s).
Proof. unfold set_add_all. apply fold_left_app. Qed.

Lemma set_add_known x s : In x s -> set_add x s = s.
Proof.
  intros Hin. unfold set_add.
  destruct (existsb (String.eqb x) s) eqn:E; [reflexivity|].
  exfalso. apply not_true_iff_false in E. apply E.
  apply existsb_exists. exists x. split; [exact Hin|apply String.eqb_refl].
Qed.

Lemma set_add_all_known xs : forall s,
  (forall x, In x xs -> In x s) -> set_add_all xs s = s.
Proof.
  unfold set_add_all.
  induction xs as [|x xs IH]; intros s Hin; [reflexivity|].
  cbn [fold_left]. rewrite set_add_known by (apply Hin; now left).
  apply IH. intros y Hy. apply Hin. now right.
Qed.

(** X10. In namespaced mode a new language gets one file for every namespace
    the other languages know, in the directory of its code; each of these
    files exists once the call returns, and the set of namespaces is the
    same as before. *)
Theorem addLanguage_namespaced (langCode root : string) (w : World) :
  truthy_root (store w) = Some root ->
  folderStructure (store w) = Namespaced ->
  existsb (fun l => String.eqb (code l) langCode) (languages (store w))
  = false ->
  let settings' := fst (addLanguage langCode w) in
  let w' := snd (addLanguage langCode w) in
  let files' :=
    map (fun ns =>
           {| absolutePath :=
                Str.path_join (Str.path_join root langCode) (ns +:+ ".json");
              namespace := ns |})
      (allNamespaces (store w)) in
  languages settings'
  = languages (store w) ++ [{| code := langCode; files := files' |}]
  /\ Forall (fun f => existsSync (absolutePath f) w' = true) files'
  /\ allNamespaces settings' = allNamespaces (store w).
Proof.
  intros Hroot Hmode Hnew. cbn zeta.
  unfold addLanguage, loadSettings. rewrite Hroot, Hnew, Hmode.
  pose proof (addLanguage_files_spec (Str.path_join root langCode)
                (allNamespaces (store w))
                ([], if existsSync (Str.path_join root langCode) w then w
                     else mkdirSync (Str.path_join root langCode) w))
    as (Hf & _ & Hex & _).
  destruct (fold_left _ _ _) as [fs w1]. cbn [fst snd app] in *.
  subst fs. cbn [languages with_languages].
  split; [reflexivity|]. split.
  - apply List.Forall_forall. intros f Hin.
    apply in_map_iff in Hin as (ns & <- & Hns). cbn [absolutePath].
    unfold existsSync. cbn [saveSettings disk dirs].
    apply orb_true_iff.
    destruct (Hex ns Hns) as [Hd|Hd]; [left|right];
      now apply bool_decide_eq_true.
  - unfold allNamespaces. cbn [languages with_languages].
    rewrite map_app, concat_app, set_add_all_app. cbn [map concat files].
    rewrite app_nil_r, map_map. cbn [namespace]. rewrite map_id.
    apply set_add_all_known. auto.
Qed.

Lemma addLanguage_namespaced_witness :
  languages (fst (addLanguage "fr-FR" HttpExamples.world1))
  = languages HttpExamples.settings1
    ++ [{| code := "fr-FR";
           files := [{| absolutePath := "/r/fr-FR/common.json";
                        namespace := "common" |}] |}].
Proof.
  apply (addLanguage_namespaced "fr-FR" "/r" HttpExamples.world1);
    reflexivity.
Defined.

Lemma filter_code_absent c ls :
  existsb (fun l => String.eqb (code l) c) ls = false ->
  List.filter (fun l => negb (String.eqb (code l) c)) ls = ls.
Proof.
  induction ls as [|l ls IH]; simpl; [reflexivity|].
  intros Hex. apply orb_false_iff in Hex as [-> Hex]. simpl.
  now rewrite IH.
Qed.

(** X11. Removing a language that was just added restores the settings as
    they were; the files that the addition created stay on disk. *)
Theorem removeLanguage_undoes_addLanguage (langCode : string) (w : World) :
  existsb (fun l => String.eqb (code l) langCode) (languages (store w))
  = false ->
  fst (removeLanguage langCode (snd (addLanguage langCode w))) = store w
  /\ disk (snd (removeLanguage langCode (snd (addLanguage langCode w))))
     = disk (snd (addLanguage langCode w)).
Proof.
  intros Hnew. split; [|reflexivity].
  unfold removeLanguage, loadSettings. cbn [fst].
  rewrite addLanguage_stored.
  unfold addLanguage, loadSettings. rewrite Hnew.
  destruct (truthy_root (store w)) as [root|].
  - destruct (match folderStructure (store w) with
              | Namespaced => _ | Flat => _ end) as [fs w1].
    cbn [fst languages with_languages].
    rewrite List.filter_app. cbn [List.filter code].
    rewrite String.eqb_refl. cbn [negb]. rewrite app_nil_r.
    rewrite filter_code_absent by exact Hnew.
    now destruct (store w).
  - cbn [fst]. rewrite filter_code_absent by exact Hnew.
    apply settings_eta.
Qed.

Lemma removeLanguage_undoes_addLanguage_witness :
  fst (removeLanguage "fr-FR" (snd (addLanguage "fr-FR" HttpExamples.world1)))
  = HttpExamples.settings1.
Proof.
  apply (removeLanguage_undoes_addLanguage "fr-FR" HttpExamples.world1).
  reflexivity.
Defined.

Lemma find_language_set_files c fs ls lang :
  find_language c ls = Some lang ->
  find_language c (set_files c fs ls) = Some {| code := code lang; files := fs |}.
Proof.
  unfold find_language.
  induction ls as [|l ls IH]; simpl; [discriminate|].
  destruct (String.eqb (code l) c) eqn:E.
  - intros [= <-]. simpl. now rewrite E.
  - intros Hf. simpl. rewrite E. auto.
Qed.

Lemma set_files_have_files c fs ls :
  fs <> [] -> Forall (fun l => files l <> []) ls ->
  Forall (fun l => files l <> []) (set_files c fs ls).
Proof.
  intros Hfs. induction 1 as [|l ls Hl Hls IH]; simpl; [constructor|].
  destruct (String.eqb (code l) c); constructor; auto.
Qed.

Lemma find_language_filtered c ls :
  find_language c (List.filter (fun l => negb (String.eqb (code l) c)) ls)
  = None.
Proof.
  unfold find_language. induction ls as [|l ls IH]; simpl; [reflexivity|].
  destruct (String.eqb (code l) c) eqn:E; simpl; [exact IH|].
  now rewrite E.
Qed.

Lemma Forall_filter_keeps {A : Type} (P : A -> Prop) (f : A -> bool) l :
  Forall P l -> Forall P (List.filter f l).
Proof.
  induction 1 as [|x l Hx Hl IH]; simpl; [constructor|].
  destruct (f x); auto.
Qed.

Lemma filter_set_files c fs ls :
  List.filter (fun l => negb (String.eqb (code l) c)) (set_files c fs ls)
  = List.filter (fun l => negb (String.eqb (code l) c)) ls.
Proof.
  induction ls as [|l ls IH]; simpl; [reflexivity|].
  destruct (String.eqb (code l) c) eqn:E; simpl; rewrite E; simpl;
    [reflexivity|now rewrite IH].
Qed.

(** X12. [removeFile] takes the path off the list of the language it finds
    and drops the language when that was its last file: when every language
    had a file before, every language has one after, and the language found
    under the code no longer lists the path. *)
Theorem removeFile_drops_path (langCode path : string) (w : World) :
  languages_have_files (store w) ->
  languages_have_files (fst (removeFile langCode path w))
  /\ forall lang,
       find_language langCode (languages (fst (removeFile langCode path w)))
       = Some lang ->
       ~ In path (map absolutePath (files lang)).
Proof.
  unfold languages_have_files, removeFile, loadSettings. intros Hall.
  cbn [fst languages with_languages].
  destruct (find_language langCode (languages (store w))) as [lang|] eqn:Hfind.
  - set (kept := List.filter
                   (fun f => negb (String.eqb (absolutePath f) path))
                   (files lang)).
    assert (Hkept : ~ In path (map absolutePath kept)).
    { intros Hin. apply in_map_iff in Hin as (f & <- & Hf).
      apply List.filter_In in Hf as [_ Hf].
      now rewrite String.eqb_refl in Hf. }
    destruct kept as [|f kept'] eqn:Ek.
    + rewrite filter_set_files. split.
      * now apply Forall_filter_keeps.
      * intros l Hl. now rewrite find_language_filtered in Hl.
    + split.
      * apply set_files_have_files; [discriminate|exact Hall].
      * intros l Hl.
        rewrite (find_language_set_files _ _ _ _ Hfind) in Hl.
        injection Hl as <-. exact Hkept.
  - split; [exact Hall|]. intros l Hl. congruence.
Qed.

Lemma removeFile_drops_path_witness :
  languages_have_files
    (fst (removeFile "en-US" "/r/en-US/common.json" HttpExamples.world1)).
Proof.
  apply (removeFile_drops_path "en-US" "/r/en-US/common.json"
           HttpExamples.world1).
  repeat constructor. discriminate.
Defined.

Lemma locale_json_basename n :
  LOCALE_JSON_REGEX n = true -> LOCALE_REGEX (Str.basename n ".json") = true.
Proof.
  intros Hn.
  destruct n as [|a [|b [|m [|c [|d ext]]]]]; try (cbn in Hn; discriminate);
    try (destruct m as [[] [] [] [] [] [] [] []]; cbn in Hn; discriminate).
  destruct m as [[] [] [] [] [] [] [] []]; try (cbn in Hn; discriminate).
  cbn [LOCALE_JSON_REGEX] in Hn.
  apply andb_true_iff in Hn as [Hn Hext].
  apply String.eqb_eq in Hext. subst ext.
  cbn. exact Hn.
Qed.

Section ImportInvariant.
Variable readdirSync : string -> list Dirent.

Lemma locale_directories_wellformed rootPath entries :
  Forall (fun l => LOCALE_REGEX (code l) = true /\ files l <> [])
    (locale_directories readdirSync rootPath entries).
Proof.
  unfold locale_directories. apply List.Forall_forall. intros l Hl.
  apply List.filter_In in Hl as [Hl Hfiles].
  apply in_map_iff in Hl as (e & <- & He).
  apply List.filter_In in He as [_ He].
  apply andb_true_iff in He as [_ He]. cbn [code files] in *.
  split; [exact He|]. now destruct (scanJsonFiles _ _).
Qed.

Lemma locale_files_wellformed rootPath entries :
  Forall (fun l => LOCALE_REGEX (code l) = true
                   /\ map namespace (files l) = [DEFAULT_NAMESPACE])
    (locale_files rootPath entries).
Proof.
  unfold locale_files. apply List.Forall_forall. intros l Hl.
  apply in_map_iff in Hl as (e & <- & He).
  apply List.filter_In in He as [_ He].
  apply andb_true_iff in He as [_ He]. cbn [code files] in *.
  split; [now apply locale_json_basename|reflexivity].
Qed.

(** X13. Whatever the folder holds, the languages that an import records are
    well formed: every code has the shape of a locale, every language has
    at least one file, and in flat mode each has the single namespace
    [default]. *)
Theorem importFolder_wellformed (result : OpenDialogResult) (w w' : World)
    (settings : AppSettings) :
  importFolder readdirSync result w = (Some settings, w') ->
  Forall (fun l => LOCALE_REGEX (code l) = true /\ files l <> [])
    (languages settings)
  /\ (folderStructure settings = Flat ->
      Forall (fun l => map namespace (files l) = [DEFAULT_NAMESPACE])
        (languages settings)).
Proof.
  unfold importFolder.
  destruct (canceled result); [discriminate|].
  destruct (filePaths result) as [|rootPath others]; [discriminate|].
  rewrite scan_namespaced_spec, scan_flat_spec. cbn [app].
  pose proof (locale_directories_wellformed rootPath (readdirSync rootPath))
    as Hdirs.
  pose proof (locale_files_wellformed rootPath (readdirSync rootPath))
    as Hfiles.
  destruct (locale_directories readdirSync rootPath (readdirSync rootPath))
    as [|l ls].
  - destruct (locale_files rootPath (readdirSync rootPath)) as [|l ls];
      intros [= <- _]; cbn [languages folderStructure].
    + split; [constructor|discriminate].
    + split.
      * eapply List.Forall_impl; [|exact Hfiles].
        intros x [Hc Hn]. split; [exact Hc|]. now destruct (files x).
      * intros _. eapply List.Forall_impl; [|exact Hfiles]. now intros x [_ Hn].
  - intros [= <- _]. cbn [languages folderStructure].
    split; [exact Hdirs|discriminate].
Qed.

End ImportInvariant.

Lemma importFolder_wellformed_witness :
  exists settings,
    fst (importFolder FolderExamples.namespaced_root FolderExamples.chosen
           FolderExamples.empty_world) = Some settings
    /\ Forall (fun l => LOCALE_REGEX (code l) = true /\ files l <> [])
         (languages settings).
Proof.
  eexists. split; [reflexivity|].
  eapply (importFolder_wellformed FolderExamples.namespaced_root
            FolderExamples.chosen FolderExamples.empty_world).
  reflexivity.
Defined.

(** ** Updating a key *)





Section UpdateKey.
Context `{Collator}.



End UpdateKey.


(** ** Removing a key from every language *)

Lemma nodup_delete {A : Type} k (o : obj A) :
  List.NoDup (Obj.keys o) -> List.NoDup (Obj.keys (Obj.delete k o)).
Proof.
  induction o as [|[k0 v0] r IH]; simpl; intros Hnd; [constructor|].
  inversion Hnd as [|? ? Hfresh Hnd']; subst.
  destruct (String.eqb k k0); [auto|]. simpl. constructor; auto.
  intros Hin. apply Hfresh.
  apply in_map_iff in Hin as (x & <- & Hx). apply in_map.
  now apply ObjPerm.in_delete in Hx.
Qed.

Lemma distinct_delete k o :
  distinct_keys (JObj o) -> distinct_keys (JObj (Obj.delete k o)).
Proof.
  intros Hd. apply distinct_obj_inv in Hd as [Hnd Hall].
  constructor; [now apply nodup_delete|].
  apply List.Forall_forall. intros x Hx. apply ObjPerm.in_delete in Hx.
  rewrite List.Forall_forall in Hall. auto.
Qed.

Lemma remove_rec_distinct parts : forall o,
  distinct_keys (JObj o) ->
  match remove_rec parts o with
  | Done o' => distinct_keys (JObj o')
  | _ => True
  end.
Proof.
  induction parts as [|p rest IH]; intros o Hd; [exact I|].
  destruct rest as [|q rest].
  - simpl. now apply distinct_delete.
  - rewrite remove_rec_step.
    destruct (Obj.get p o) as [[| | | |c]|] eqn:Hget; try exact I.
    specialize (IH c (distinct_get _ _ _ Hd Hget)).
    destruct (remove_rec (q :: rest) c) as [| |c']; try exact I.
    destruct (is_empty_obj c').
    + now apply distinct_delete.
    + now apply distinct_set.
Qed.

Lemma regular_delete k o : regular_entries o -> regular_entries (Obj.delete k o).
Proof.
  unfold regular_entries. intros Hr.
  apply List.Forall_forall. intros x Hx. apply ObjPerm.in_delete in Hx.
  rewrite List.Forall_forall in Hr. auto.
Qed.

Lemma regular_get k o v :
  regular_entries o -> Obj.get k o = Some v ->
  Str.has_dot k = false /\ regular_value v.
Proof.
  unfold regular_entries. intros Hr Hget.
  rewrite List.Forall_forall in Hr.
  exact (Hr _ (ObjPerm.get_in _ _ _ Hget)).
Qed.

Lemma remove_rec_regular parts : forall o,
  regular_entries o ->
  match remove_rec parts o with
  | Done o' => regular_entries o'
  | _ => True
  end.
Proof.
  induction parts as [|p rest IH]; intros o Hr; [exact I|].
  destruct rest as [|q rest].
  - simpl. now apply regular_delete.
  - rewrite remove_rec_step.
    destruct (Obj.get p o) as [[| | | |c]|] eqn:Hget; try exact I.
    destruct (regular_get _ _ _ Hr Hget) as [Hp Hc].
    inversion Hc as [| | | |? Hne Hall]; subst.
    specialize (IH c Hall).
    destruct (remove_rec (q :: rest) c) as [| |c']; try exact I.
    destruct (is_empty_obj c') eqn:Hempty.
    + now apply regular_delete.
    + apply regular_set; auto. constructor; [|exact IH].
      now destruct c'.
Qed.

Lemma remove_rec_top parts : forall o,
  (forall c, Obj.get EmptyString o <> Some (JObj c)) ->
  match remove_rec parts o with
  | Done o' => forall c, Obj.get EmptyString o' <> Some (JObj c)
  | _ => True
  end.
Proof.
  intros o Ht. destruct parts as [|p [|q rest]]; [exact I| |].
  - simpl. intros c. rewrite ObjMap.get_delete.
    destruct (String.eqb "" p); [discriminate|apply Ht].
  - rewrite remove_rec_step.
    destruct (Obj.get p o) as [[| | | |c]|] eqn:Hget; try exact I.
    destruct (remove_rec (q :: rest) c) as [| |c']; try exact I.
    intros c0. destruct (is_empty_obj c').
    + rewrite ObjMap.get_delete.
      destruct (String.eqb "" p); [discriminate|apply Ht].
    + rewrite ObjMap.get_set.
      destruct (String.eqb_spec "" p) as [<-|_]; [|apply Ht].
      exfalso. now apply (Ht c).
Qed.

Lemma plain_empty : plain_document [].
Proof.
  split; [apply distinct_empty|]. split; [constructor|]. intros c. discriminate.
Qed.

Lemma readJsonFile_plain path w :
  disk_plain w -> plain_document (readJsonFile path w).
Proof.
  intros Hp. unfold readJsonFile.
  destruct (disk w !! path) as [[c|]|] eqn:E; try apply plain_empty.
  eapply Hp; eauto.
Qed.

Lemma leaf_at_gone k o :
  at_path (Str.split_dot k) (JObj o) = None -> leaf_at k o = None.
Proof. unfold leaf_at. now intros ->. Qed.

Section RemoveKey.
Context `{Collator}.
Variables ns key : string.

(** The key is not among the flattened keys of the file at [path]. *)
Local Abbreviation hidden path w :=
  (Obj.has key (flattenJson (JObj (readJsonFile path w)) "") = false).

Lemma removed_plain o o' :
  plain_document o -> removeNestedKey o key = Returned o' ->
  plain_document (sortDeep o')
  /\ Obj.has key (flattenJson (JObj (sortDeep o')) "") = false.
Proof.
  intros HD. rewrite removeNestedKey_rec.
  pose proof (remove_rec_gone (Str.split_dot key) o (split_nonempty _ _))
    as Hgone.
  destruct HD as (Hd & Hr & Ht).
  pose proof (remove_rec_distinct (Str.split_dot key) o Hd) as Hd'.
  pose proof (remove_rec_regular (Str.split_dot key) o Hr) as Hr'.
  pose proof (remove_rec_top (Str.split_dot key) o Ht) as Ht'.
  assert (Hall : plain_document o'
                 /\ at_path (Str.split_dot key) (JObj o') = None
                 -> plain_document (sortDeep o')
                    /\ Obj.has key (flattenJson (JObj (sortDeep o')) "")
                       = false).
  { intros [HD' Hg]. split; [now apply plain_sortDeep|].
    unfold Obj.has. rewrite flat_sortDeep by exact HD'.
    rewrite flat_lookup by exact HD'.
    now rewrite leaf_at_gone. }
  destruct (remove_rec (Str.split_dot key) o) as [| |o1];
    intros E; inversion E; subst; apply Hall; repeat split; auto.
Qed.

Lemma removeKey_loop_hides ls : forall w w',
  disk_plain w ->
  removeKey_loop ns key ls w = (Returned tt, w') ->
  disk_plain w' /\ store w' = store w
  /\ (forall path, hidden path w -> hidden path w')
  /\ (forall lang file, In lang ls -> find_file ns (files lang) = Some file ->
        hidden (absolutePath file) w').
Proof.
  induction ls as [|lang ls IH]; intros w w' Hp Hrun.
  - injection Hrun as <-.
    split; [exact Hp|]. split; [reflexivity|]. split; [auto|].
    intros ? ? [].
  - cbn [removeKey_loop] in Hrun.
    destruct (find_file ns (files lang)) as [file|] eqn:Hfile.
    + destruct (removeNestedKey (readJsonFile (absolutePath file) w) key)
        as [json|] eqn:Hrem; [|discriminate].
      destruct (removed_plain _ _ (readJsonFile_plain _ _ Hp) Hrem)
        as [Hplain Hhid].
      set (w1 := writeJsonFile (absolutePath file) json w) in *.
      assert (Hp1 : disk_plain w1).
      { intros path c. unfold w1, writeJsonFile, writeFile. cbn [disk].
        destruct (String.eqb_spec path (absolutePath file)) as [->|Hne].
        - rewrite lookup_insert_eq. now intros [= <-].
        - rewrite lookup_insert_ne by auto. apply Hp. }
      assert (Hkeep : forall path, hidden path w -> hidden path w1).
      { intros path Hh.
        destruct (String.eqb_spec path (absolutePath file)) as [->|Hne].
        - unfold w1. now rewrite readJsonFile_written.
        - unfold w1, readJsonFile, writeJsonFile, writeFile in *. cbn [disk].
          rewrite lookup_insert_ne by auto. exact Hh. }
      destruct (IH w1 w' Hp1 Hrun) as (Hp' & Hst & Hmono & Hall).
      split; [exact Hp'|]. split; [exact Hst|]. split; [auto|].
      intros l f [<-|Hin] Hf; [|eauto].
      rewrite Hfile in Hf. injection Hf as <-.
      apply Hmono. unfold w1. now rewrite readJsonFile_written.
    + destruct (IH w w' Hp Hrun) as (Hp' & Hst & Hmono & Hall).
      split; [exact Hp'|]. split; [exact Hst|]. split; [auto|].
      intros l f [<-|Hin] Hf; [congruence|eauto].
Qed.

(** X15. When [removeKey] returns, the key is gone from the flattened file of
    every language that has a file for the namespace, so [readAll] no
    longer lists it there; the settings are untouched. *)
Theorem removeKey_hides_key (w w' : World) :
  disk_plain w ->
  removeKey ns key w = (Returned tt, w') ->
  store w' = store w
  /\ forall lang flat,
       In lang (languages (store w)) -> flat_of w' ns lang = Some flat ->
       Obj.has key flat = false.
Proof.
  intros Hp Hrun. unfold removeKey, loadSettings in Hrun.
  destruct (removeKey_loop_hides _ _ _ Hp Hrun) as (_ & Hst & _ & Hall).
  split; [exact Hst|].
  intros lang flat Hin Hflat. unfold flat_of in Hflat.
  destruct (find_file ns (files lang)) as [file|] eqn:Hfile; [|discriminate].
  injection Hflat as <-. eauto.
Qed.

End RemoveKey.

Lemma removeKey_hides_key_witness :
  let H := AsciiCollation.collator in
  let w' := snd (removeKey "common" "a.b" UpdateExamples.world2) in
  readJsonFile "/r/en-US/common.json" w' = [("a", JObj [("c", JStr "y")])]
  /\ store w' = store UpdateExamples.world2.
Proof.
  intros H w'. split; [reflexivity|].
  refine (proj1 (removeKey_hides_key "common" "a.b" UpdateExamples.world2 w'
                   _ eq_refl)).
  intros path c Hc.
  destruct (String.eqb_spec path "/r/en-US/common.json") as [->|Hne].
  - injection Hc as <-. split; [distinct_keys_tac|]. split.
    + repeat (constructor; cbn; try discriminate; auto).
    + intros c. cbn. discriminate.
  - unfold UpdateExamples.world2 in Hc. cbn [disk] in Hc.
    rewrite lookup_singleton_ne in Hc by congruence. discriminate.
Defined.

Section RemoveKeyTwice.
Context `{Collator}.
Variables ns key : string.







End RemoveKeyTwice.


(** ** Adding a key to every language *)

Section AddKeyEverywhere.
Context `{Collator}.
Variables ns key : string.


End AddKeyEverywhere.


(** ** Announcements, headers and default values of the endpoint *)

Section Notifications.
Context `{Collator}.
Import Http.





End Notifications.

Section Cors.
Context `{Collator}.
Import Http.

Lemma on_end_response langCode ns body w :
  fst (on_end langCode ns body w) = bad_request
  \/ fst (on_end langCode ns body w) = json_response 200 [("ok", JBool true)].
Proof.
  unfold on_end.
  destruct body as [[| | | |o]|]; try (now left);
    (destruct (intake_loop _ _ _ _) as [[st1|] w1]; [|now left];
     destruct (default_value_step _ _ _ _ _) as [[st2|] w2];
     [now right|now left]).
Qed.

(** X19. Every response, whatever the request, carries the three CORS
    headers, so a browser page of any origin may read it. *)
Theorem handleRequest_cors (req : Request) (w : World) (h : string * string) :
  In h cors -> In h (headers (fst (handleRequest req w))).
Proof.
  intros Hin. unfold handleRequest.
  destruct (String.eqb (method req) "OPTIONS"); [exact Hin|].
  assert (Hjson : forall st o, In h (headers (json_response st o))).
  { intros st o. cbn [json_response headers]. apply in_or_app. now left. }
  destruct (match url req with Some u => match_locales u | None => None end)
    as [[langCode ns]|]; [|apply Hjson].
  destruct (String.eqb (method req) "POST"); [|apply Hjson].
  destruct (on_end_response langCode ns (parsed req) w) as [-> | ->];
    apply Hjson.
Qed.

End Cors.

Lemma handleRequest_cors_witness :
  In ("Access-Control-Allow-Origin", "*")
    (Http.headers
       (fst (@Http.handleRequest AsciiCollation.collator
               (HttpExamples.post (Some (JObj [("key", JStr "a")])))
               HttpExamples.world1))).
Proof.
  apply (@handleRequest_cors AsciiCollation.collator). now left.
Defined.

Section DefaultValue.
Context `{Collator}.
Variables ns k : string.
Import Http.







End DefaultValue.


(** ** Filtering, counting and listing the tree *)

Module TreeFacts.
Import Tree TreeView.

Section Matching.
Variable toLowerCase : string -> string.

Local Abbreviation matches q n := (treeMatchesSearch toLowerCase n q).

Lemma matches_node q s f c v :
  matches q (Node s f c v)
  = includes q (toLowerCase s) || includes q (toLowerCase f)
    || existsb (fun child => matches q child) c.
Proof.
  cbn [treeMatchesSearch]. f_equal.
Qed.

Lemma filterTree_node_eq q s f c v :
  filterTree_node toLowerCase q (Node s f c v)
  = Node s f (filterTree toLowerCase c q) v.
Proof.
  cbn [filterTree_node]. f_equal.
  induction c as [|x r IH]; cbn; [reflexivity|].
  destruct (treeMatchesSearch toLowerCase x q); congruence.
Qed.

Lemma existsb_filterTree q c :
  Forall (fun n => matches q (filterTree_node toLowerCase q n) = matches q n) c ->
  existsb (fun child => matches q child) (filterTree toLowerCase c q)
  = existsb (fun child => matches q child) c.
Proof.
  induction 1 as [|x r Hx Hr IH]; [reflexivity|].
  cbn [filterTree existsb].
  destruct (matches q x) eqn:E; cbn [existsb orb].
  - rewrite Hx. rewrite ?E. reflexivity.
  - exact IH.
Qed.

Lemma matches_filtered q n :
  matches q (filterTree_node toLowerCase q n) = matches q n.
Proof.
  induction n as [s f c v IH] using tree_ind'.
  rewrite filterTree_node_eq, !matches_node. f_equal.
  now apply existsb_filterTree.
Qed.

Lemma filterTree_twice_list q c :
  Forall (fun n => filterTree_node toLowerCase q (filterTree_node toLowerCase q n)
                   = filterTree_node toLowerCase q n) c ->
  filterTree toLowerCase (filterTree toLowerCase c q) q
  = filterTree toLowerCase c q.
Proof.
  induction 1 as [|x r Hx Hr IH]; [reflexivity|].
  cbn [filterTree].
  destruct (matches q x) eqn:E; [|exact IH].
  cbn [filterTree]. rewrite matches_filtered, E. now rewrite Hx, IH.
Qed.

Lemma filterTree_node_twice q n :
  filterTree_node toLowerCase q (filterTree_node toLowerCase q n)
  = filterTree_node toLowerCase q n.
Proof.
  induction n as [s f c v IH] using tree_ind'.
  rewrite !filterTree_node_eq. f_equal. now apply filterTree_twice_list.
Qed.

Lemma filterTree_node_matches q n :
  matches q n = true ->
  every_node (fun x => matches q x = true) (filterTree_node toLowerCase q n).
Proof.
  induction n as [s f c v IH] using tree_ind'. intros Hm.
  rewrite filterTree_node_eq. constructor.
  - rewrite <- filterTree_node_eq, matches_filtered. exact Hm.
  - clear Hm. induction IH as [|x r Hx Hr IHr]; [constructor|].
    cbn [filterTree]. destruct (matches q x) eqn:E; auto.
Qed.

End Matching.
End TreeFacts.

Section FilterTree.
Variable toLowerCase : string -> string.
Import Tree TreeView.

(** X21. [filterTree] keeps, at every depth, only nodes that match the
    search, and filtering the result again returns it unchanged. *)
Theorem filterTree_sound_idempotent (nodes : list TreeNode) (q : string) :
  Forall (every_node (fun n => treeMatchesSearch toLowerCase n q = true))
    (filterTree toLowerCase nodes q)
  /\ filterTree toLowerCase (filterTree toLowerCase nodes q) q
     = filterTree toLowerCase nodes q.
Proof.
  split.
  - induction nodes as [|n r IH]; [constructor|].
    cbn [filterTree].
    destruct (treeMatchesSearch toLowerCase n q) eqn:E; [|exact IH].
    constructor; [|exact IH]. now apply TreeFacts.filterTree_node_matches.
  - apply TreeFacts.filterTree_twice_list.
    apply List.Forall_forall. intros n _.
    apply TreeFacts.filterTree_node_twice.
Qed.

End FilterTree.

Module CountFacts.
Import Tree TreeView.

Lemma fold_counts {A : Type} (g : A -> Counts) (l : list A) : forall a,
  fold_left (fun acc n => add_counts acc (g n)) l a
  = {| completed := completed a + list_sum (map (fun n => completed (g n)) l);
       missing := missing a + list_sum (map (fun n => missing (g n)) l) |}.
Proof.
  induction l as [|x r IH]; intros a; simpl.
  - destruct a. simpl. f_equal; lia.
  - rewrite IH. simpl. f_equal; lia.
Qed.

Lemma countKeys_sum nodes L :
  countKeys nodes L
  = {| completed := list_sum (map (fun n => completed (countKeys_node L n)) nodes);
       missing := list_sum (map (fun n => missing (countKeys_node L n)) nodes) |}.
Proof. unfold countKeys. now rewrite fold_counts. Qed.

Lemma countKeys_node_eq L s f c v :
  countKeys_node L (Node s f c v)
  = match c, v with
    | [], Some vals =>
        if existsb (is_missing vals) L
        then {| completed := 0; missing := 1 |}
        else {| completed := 1; missing := 0 |}
    | _, _ => countKeys c L
    end.
Proof. destruct c, v; reflexivity. Qed.

Lemma list_sum_perm l l' : Permutation l l' -> list_sum l = list_sum l'.
Proof. unfold list_sum. induction 1; simpl in *; lia. Qed.

Lemma countKeys_perm nodes nodes' L :
  Permutation nodes nodes' -> countKeys nodes L = countKeys nodes' L.
Proof.
  intros Hp. rewrite !countKeys_sum.
  f_equal; apply list_sum_perm, Permutation_map, Hp.
Qed.

Lemma countKeys_map (g : TreeNode -> TreeNode) nodes L :
  Forall (fun n => countKeys_node L (g n) = countKeys_node L n) nodes ->
  countKeys (map g nodes) L = countKeys nodes L.
Proof.
  intros Hall. rewrite !countKeys_sum, !map_map.
  f_equal; f_equal; apply map_ext_in; intros n Hn;
    rewrite List.Forall_forall in Hall; now rewrite Hall.
Qed.

Lemma missing_positive nodes L :
  (0 <? missing (countKeys nodes L))%nat
  = existsb (fun n => (0 <? missing (countKeys_node L n))%nat) nodes.
Proof.
  rewrite countKeys_sum. cbn [missing].
  induction nodes as [|n r IH]; [reflexivity|].
  simpl. rewrite <- IH.
  destruct (missing (countKeys_node L n)); reflexivity.
Qed.

End CountFacts.

Section SortedCounts.
Context `{Collator}.
Import Tree TreeView.

Lemma countKeys_sortTree_list c L :
  Forall (fun n => countKeys_node L (sortTree_node n) = countKeys_node L n) c ->
  countKeys (sortTree c) L = countKeys c L.
Proof.
  intros Hall. unfold sortTree.
  rewrite (CountFacts.countKeys_perm _ _ L (SortFacts.sort_perm _ _)).
  now apply CountFacts.countKeys_map.
Qed.

Lemma countKeys_node_sortTree L n :
  countKeys_node L (sortTree_node n) = countKeys_node L n.
Proof.
  induction n as [s f c v IH] using tree_ind'.
  rewrite sortTree_node_children, !CountFacts.countKeys_node_eq.
  rewrite (countKeys_sortTree_list c L IH).
  destruct c as [|x r]; [reflexivity|].
  destruct (sortTree (x :: r)) as [|y r'] eqn:E; [|reflexivity].
  exfalso. unfold sortTree in E.
  pose proof (Permutation_length
                (SortFacts.sort_perm by_segment (map sortTree_node (x :: r))))
    as Hlen.
  rewrite E in Hlen. discriminate.
Qed.

(** X22. [sortTree] only reorders: it leaves the siblings of every level in
    alphabetical order of their segments, case ignored, and it does not
    change what [countKeys] counts. *)
Theorem sortTree_orders_and_keeps_counts (nodes : list TreeNode)
    (langCodes : list string) :
  StronglySorted by_segment_le (sortTree nodes)
  /\ Forall sorted_tree (sortTree nodes)
  /\ countKeys (sortTree nodes) langCodes = countKeys nodes langCodes.
Proof.
  destruct (sortTree_sorted nodes) as [Hs Ht].
  split; [exact Hs|]. split; [exact Ht|].
  apply countKeys_sortTree_list.
  apply List.Forall_forall. intros n _. apply countKeys_node_sortTree.
Qed.

End SortedCounts.

Section MissingCounts.
Import Tree TreeView.

Lemma leaf_valued_inv s f c v :
  leaf_valued (Node s f c v) ->
  (v <> None -> c = []) /\ Forall leaf_valued c.
Proof. inversion 1; subst. auto. Qed.

Lemma treeHasMissing_eq L s f c v :
  treeHasMissing (Node s f c v) L
  = match v with
    | Some vals => existsb (is_missing vals) L
    | None => existsb (fun child => treeHasMissing child L) c
    end.
Proof. destruct v; reflexivity. Qed.

Lemma treeHasMissing_node L n :
  leaf_valued n ->
  treeHasMissing n L = (0 <? missing (countKeys_node L n))%nat.
Proof.
  induction n as [s f c v IH] using tree_ind'. intros Hlv.
  apply leaf_valued_inv in Hlv as [Hleaf Hall].
  rewrite treeHasMissing_eq, CountFacts.countKeys_node_eq.
  destruct v as [vals|].
  - rewrite Hleaf by discriminate.
    now destruct (existsb (is_missing vals) L).
  - assert (Hc : match c with
                 | [] | _ => countKeys c L
                 end = countKeys c L) by now destruct c.
    rewrite Hc, CountFacts.missing_positive.
    clear Hc Hleaf. induction IH as [|x r Hx Hr IHr]; [reflexivity|].
    inversion Hall; subst. cbn [existsb]. rewrite Hx, IHr by assumption.
    reflexivity.
Qed.

(** X23. Where values sit at the leaves only, the warning mark of a node
    agrees with its counter: [treeHasMissing] holds exactly when
    [countKeys] finds a missing key under the node. *)
Theorem treeHasMissing_counts (n : TreeNode) (langCodes : list string) :
  leaf_valued n ->
  treeHasMissing n langCodes
  = (0 <? missing (countKeys [n] langCodes))%nat.
Proof.
  intros Hlv. rewrite CountFacts.missing_positive. cbn [existsb].
  rewrite orb_false_r. now apply treeHasMissing_node.
Qed.

End MissingCounts.

Lemma treeHasMissing_counts_witness :
  let n := Tree.Node "a" "a"
             [Tree.Node "b" "a.b" [] (Some [("en-US", Some "x"); ("fr-FR", None)]);
              Tree.Node "c" "a.c" [] (Some [("en-US", Some "y"); ("fr-FR", Some "z")])]
             None in
  TreeView.treeHasMissing n ["en-US"; "fr-FR"] = true
  /\ TreeView.countKeys [n] ["en-US"; "fr-FR"]
     = {| TreeView.completed := 1; TreeView.missing := 1 |}.
Proof.
  intros n. split; [|reflexivity].
  rewrite (treeHasMissing_counts n ["en-US"; "fr-FR"]); [reflexivity|].
  repeat (constructor; cbn; try congruence; try (intros _; reflexivity)).
Defined.

Section Rows.
Import Tree TreeView.
Variables (namespace : string) (expanded : string -> bool)
  (langCodes : list string).

Local Abbreviation rows_of d n :=
  (flattenTree_node namespace expanded langCodes true d n).

Lemma flattenTree_node_eq d s f c v :
  rows_of d (Node s f c v)
  = match c, v with
    | [], Some vals =>
        [LeafRow d s f namespace v (existsb (is_missing vals) langCodes)]
    | _, _ =>
        BranchRow d s f namespace true
          (treeHasMissing (Node s f c v) langCodes)
          (completed (countKeys [Node s f c v] langCodes))
          (missing (countKeys [Node s f c v] langCodes))
        :: concat (map (fun child => rows_of (S d) child) c)
    end.
Proof.
  cbn [flattenTree_node orb].
  assert (Heach : forall l,
            (fix each (l : list TreeNode) : list FlatRow :=
               match l with
               | [] => []
               | child :: r => rows_of (S d) child ++ each r
               end) l
            = concat (map (fun child => rows_of (S d) child) l)).
  { induction l as [|x r IH]; cbn; congruence. }
  destruct c as [|x r], v as [vals|]; try reflexivity;
    now rewrite Heach.
Qed.

Lemma filter_concat {A : Type} (p : A -> bool) (ls : list (list A)) :
  List.filter p (concat ls) = concat (map (List.filter p) ls).
Proof.
  induction ls as [|l ls IH]; [reflexivity|].
  cbn [concat map]. now rewrite List.filter_app, IH.
Qed.

Lemma length_concat_sum {A : Type} (ls : list (list A)) :
  length (concat ls) = list_sum (map (@length A) ls).
Proof.
  induction ls as [|l ls IH]; [reflexivity|].
  cbn [concat map]. rewrite length_app, IH. reflexivity.
Qed.

Lemma rows_of_counts n : forall d,
  length (List.filter is_leaf_row (rows_of d n))
  = completed (countKeys_node langCodes n)
    + missing (countKeys_node langCodes n)
  /\ length (List.filter is_missing_row (rows_of d n))
     = missing (countKeys_node langCodes n).
Proof.
  induction n as [s f c v IH] using tree_ind'. intros d.
  rewrite flattenTree_node_eq, CountFacts.countKeys_node_eq.
  assert (Hbranch :
    length (List.filter is_leaf_row
              (concat (map (fun child => rows_of (S d) child) c)))
    = completed (countKeys c langCodes) + missing (countKeys c langCodes)
    /\ length (List.filter is_missing_row
                 (concat (map (fun child => rows_of (S d) child) c)))
       = missing (countKeys c langCodes)).
  { rewrite !filter_concat, !length_concat_sum, !map_map.
    rewrite CountFacts.countKeys_sum. cbn [completed missing].
    clear -IH. induction IH as [|x r Hx Hr IHr]; [split; reflexivity|].
    destruct IHr as [IH1 IH2]. destruct (Hx (S d)) as [Hx1 Hx2].
    simpl. rewrite Hx1, Hx2. simpl in IH1, IH2. rewrite IH1, IH2.
    split; lia. }
  destruct c as [|x r], v as [vals|]; try exact Hbranch.
  cbn [List.filter is_leaf_row is_missing_row].
  destruct (existsb (is_missing vals) langCodes); split; reflexivity.
Qed.

(** X24. With every branch forced open, [flattenTree] pushes one leaf row for
    each key that [countKeys] counts, and marks as missing as many of them
    as [countKeys] counts missing. *)
Theorem flattenTree_leaf_rows (nodes : list TreeNode) (depth : nat)
    (rows : list FlatRow) :
  let out := flattenTree nodes namespace depth rows expanded langCodes true in
  let counts := countKeys nodes langCodes in
  length (List.filter is_leaf_row out)
  = length (List.filter is_leaf_row rows)
    + completed counts + missing counts
  /\ length (List.filter is_missing_row out)
     = length (List.filter is_missing_row rows) + missing counts.
Proof.
  cbn zeta. unfold flattenTree.
  rewrite !List.filter_app, !length_app, !filter_concat, !length_concat_sum,
    !map_map.
  rewrite CountFacts.countKeys_sum. cbn [completed missing].
  induction nodes as [|n r IH]; [simpl; split; lia|].
  destruct IH as [IH1 IH2]. destruct (rows_of_counts n depth) as [Hn1 Hn2].
  simpl. rewrite Hn1, Hn2. simpl in IH1, IH2. split; lia.
Qed.

End Rows.

(** ** Building the tree *)

Module BuildFacts.
Import Tree TreeView.

Lemma insert_entry_nil p rest ps vals :
  insert_entry (p :: rest) ps vals []
  = [Node p (fullKey ps p) (insert_entry rest (fullKey ps p) vals [])
       (match rest with [] => Some vals | _ :: _ => None end)].
Proof. destruct rest; reflexivity. Qed.

Lemma insert_entry_cons p rest ps vals s f c v r :
  insert_entry (p :: rest) ps vals (Node s f c v :: r)
  = if String.eqb s p
    then Node s f (insert_entry rest (fullKey ps p) vals c)
           (match rest with [] => Some vals | _ :: _ => v end) :: r
    else Node s f c v :: insert_entry (p :: rest) ps vals r.
Proof. destruct rest; reflexivity. Qed.

Lemma segments_insert p rest ps vals nodes :
  map segment (insert_entry (p :: rest) ps vals nodes)
  = if existsb (fun n => String.eqb (segment n) p) nodes
    then map segment nodes
    else map segment nodes ++ [p].
Proof.
  induction nodes as [|[s f c v] r IH].
  - rewrite insert_entry_nil. reflexivity.
  - rewrite insert_entry_cons. cbn [existsb segment].
    destruct (String.eqb s p) eqn:E; cbn [orb map segment]; [reflexivity|].
    rewrite IH. now destruct (existsb _ r).
Qed.

Lemma existsb_segment_in p nodes :
  existsb (fun n => String.eqb (segment n) p) nodes = false ->
  ~ In p (map segment nodes).
Proof.
  intros Hex Hin. apply in_map_iff in Hin as (n & <- & Hn).
  apply not_true_iff_false in Hex. apply Hex.
  apply existsb_exists. exists n. split; [exact Hn|apply String.eqb_refl].
Qed.

Lemma nodup_snoc {A : Type} (x : A) l :
  List.NoDup l -> ~ In x l -> List.NoDup (l ++ [x]).
Proof.
  intros Hnd Hx. eapply Permutation.Permutation_NoDup;
    [apply Permutation_cons_append|]. now constructor.
Qed.

Lemma insert_entry_distinct parts : forall ps vals nodes,
  List.NoDup (map segment nodes) ->
  Forall (every_node distinct_children) nodes ->
  List.NoDup (map segment (insert_entry parts ps vals nodes))
  /\ Forall (every_node distinct_children) (insert_entry parts ps vals nodes).
Proof.
  induction parts as [|p rest IH]; intros ps vals nodes Hnd Hall; [auto|].
  split.
  - rewrite segments_insert.
    destruct (existsb _ nodes) eqn:E; [exact Hnd|].
    apply nodup_snoc; [exact Hnd|now apply existsb_segment_in].
  - clear Hnd. induction Hall as [|[s f c v] r Hn Hr IHr].
    + rewrite insert_entry_nil. constructor; [|constructor].
      destruct (IH (fullKey ps p) vals [] (List.NoDup_nil _) (List.Forall_nil _))
        as [Hnd' Hall'].
      constructor; [exact Hnd'|exact Hall'].
    + rewrite insert_entry_cons.
      destruct (String.eqb s p); [|constructor; auto].
      constructor; [|exact Hr].
      inversion Hn as [? ? ? ? Hd Hc]; subst.
      destruct (IH (fullKey ps p) vals c Hd Hc) as [Hnd' Hall'].
      constructor; [exact Hnd'|exact Hall'].
Qed.

Lemma insert_entry_keyed parts : forall ps vals nodes,
  Forall (keyed ps) nodes ->
  Forall (keyed ps) (insert_entry parts ps vals nodes).
Proof.
  induction parts as [|p rest IH]; intros ps vals nodes Hall; [auto|].
  induction Hall as [|[s f c v] r Hn Hr IHr].
  - rewrite insert_entry_nil. constructor; [|constructor].
    constructor. apply IH. constructor.
  - rewrite insert_entry_cons.
    destruct (String.eqb_spec s p) as [->|Hne]; [|constructor; auto].
    constructor; [|exact Hr].
    inversion Hn as [? ? ? ? Hc]; subst.
    constructor. now apply IH.
Qed.

Lemma find_segment_insert_same p rest ps vals nodes :
  exists n,
    find_segment p (insert_entry (p :: rest) ps vals nodes) = Some n
    /\ children n
       = insert_entry rest (fullKey ps p) vals
           (match find_segment p nodes with
            | Some n0 => children n0
            | None => []
            end)
    /\ values n
       = match rest with
         | [] => Some vals
         | _ :: _ =>
             match find_segment p nodes with
             | Some n0 => values n0
             | None => None
             end
         end
    /\ fullKey_of n
       = match find_segment p nodes with
         | Some n0 => fullKey_of n0
         | None => fullKey ps p
         end.
Proof.
  unfold find_segment.
  induction nodes as [|[s f c v] r IH].
  - rewrite insert_entry_nil. cbn [List.find segment].
    rewrite String.eqb_refl. eexists. split; [reflexivity|].
    cbn [children values fullKey_of]. now destruct rest.
  - rewrite insert_entry_cons. cbn [List.find segment].
    destruct (String.eqb s p) eqn:E; cbn [List.find segment]; rewrite E.
    + eexists. split; [reflexivity|].
      cbn [children values fullKey_of]. now destruct rest.
    + exact IH.
Qed.

Lemma find_segment_insert_other p q rest ps vals nodes :
  q <> p ->
  find_segment q (insert_entry (p :: rest) ps vals nodes)
  = find_segment q nodes.
Proof.
  intros Hne. unfold find_segment.
  induction nodes as [|[s f c v] r IH].
  - rewrite insert_entry_nil. cbn [List.find segment].
    now rewrite (proj2 (String.eqb_neq p q)) by congruence.
  - rewrite insert_entry_cons.
    destruct (String.eqb_spec s p) as [->|Hsp]; cbn [List.find segment].
    + now rewrite (proj2 (String.eqb_neq p q)) by congruence.
    + destruct (String.eqb s q); [reflexivity|exact IH].
Qed.

(** The entry just inserted is found at its path, with its values. *)
Lemma tree_find_inserted parts : forall ps vals nodes,
  parts <> [] ->
  exists n, tree_find parts (insert_entry parts ps vals nodes) = Some n
            /\ values n = Some vals.
Proof.
  induction parts as [|p rest IH]; intros ps vals nodes Hne; [congruence|].
  destruct (find_segment_insert_same p rest ps vals nodes)
    as (n & Hfind & Hc & Hv & _).
  cbn [tree_find]. rewrite Hfind.
  destruct rest as [|q rest]; [eauto|].
  rewrite Hc. apply IH. discriminate.
Qed.

(** Inserting another key leaves the values and the [fullKey] found at a
    path as they were. *)
Lemma tree_find_other parts' : forall parts ps vals nodes n,
  parts <> parts' ->
  tree_find parts nodes = Some n ->
  exists n', tree_find parts (insert_entry parts' ps vals nodes) = Some n'
             /\ values n' = values n /\ fullKey_of n' = fullKey_of n.
Proof.
  induction parts' as [|p' rest' IH]; intros parts ps vals nodes n Hne Hfind;
    [eauto|].
  destruct parts as [|p rest]; [discriminate|].
  cbn [tree_find] in *.
  destruct (String.eqb_spec p p') as [->|Hp].
  - destruct (find_segment_insert_same p' rest' ps vals nodes)
      as (n1 & Hf1 & Hc1 & Hv1 & Hk1).
    rewrite Hf1.
    destruct (find_segment p' nodes) as [n0|] eqn:Hf0; [|discriminate].
    destruct rest as [|q rest].
    + injection Hfind as <-. exists n1. split; [reflexivity|].
      split; [|exact Hk1].
      destruct rest' as [|q' rest']; [congruence|exact Hv1].
    + rewrite Hc1. destruct rest' as [|q' rest']; [eauto|].
      apply IH; [congruence|exact Hfind].
  - rewrite find_segment_insert_other by exact Hp.
    destruct (find_segment p nodes) as [n0|]; [|discriminate].
    destruct rest; eauto.
Qed.

Lemma keyed_find parts : forall ps nodes n,
  Forall (keyed ps) nodes -> tree_find parts nodes = Some n ->
  fullKey_of n = path_key ps parts.
Proof.
  induction parts as [|p rest IH]; intros ps nodes n Hall Hfind;
    [discriminate|].
  cbn [tree_find] in Hfind. unfold find_segment in Hfind.
  destruct (List.find _ nodes) as [n0|] eqn:Hf0; [|discriminate].
  apply List.find_some in Hf0 as [Hin Hseg].
  apply String.eqb_eq in Hseg.
  rewrite List.Forall_forall in Hall. specialize (Hall _ Hin).
  destruct n0 as [s0 f0 c0 v0]. cbn [segment children] in Hseg, Hfind.
  subst s0. inversion Hall as [? s c v Hc]. subst.
  unfold path_key. cbn [fold_left].
  destruct rest as [|q rest].
  - injection Hfind as <-. reflexivity.
  - exact (IH _ _ _ Hc Hfind).
Qed.

Lemma path_key_join parts : forall ps,
  parts <> [] ->
  (ps <> [] -> Str.is_empty (Str.join_dot ps) = false) ->
  (ps = [] -> forall p q rest, parts = p :: q :: rest -> Str.is_empty p = false) ->
  path_key (Str.join_dot ps) parts = Str.join_dot (ps ++ parts).
Proof.
  induction parts as [|p rest IH]; intros ps Hne Hps Htop; [congruence|].
  unfold path_key. cbn [fold_left].
  rewrite StrFacts.fullKey_join by exact Hps.
  destruct rest as [|q rest]; [reflexivity|].
  replace (ps ++ p :: q :: rest) with ((ps ++ [p]) ++ q :: rest)
    by now rewrite <- app_assoc.
  apply (IH (ps ++ [p])); [discriminate| |].
  - intros _. destruct ps as [|x ps'].
    + simpl. exact (Htop eq_refl p q rest eq_refl).
    + apply StrFacts.join_snoc_nonempty. discriminate.
  - intros Hnil. now destruct ps.
Qed.

Lemma path_key_split k :
  leading_dot k = false -> path_key "" (Str.split_dot k) = k.
Proof.
  intros Hk. rewrite <- (StrFacts.join_split k) at 2.
  apply (path_key_join (Str.split_dot k) []).
  - apply split_nonempty.
  - congruence.
  - intros _ p q rest Hsplit. eapply split_head_nonempty; eauto.
Qed.

End BuildFacts.

Section BuildTree.
Import Tree TreeView.

Lemma buildTree_invariants keys : forall acc,
  List.NoDup (map segment acc) ->
  Forall (every_node distinct_children) acc ->
  Forall (keyed "") acc ->
  let t := fold_left
             (fun root entry =>
                insert_entry (Str.split_dot (kd_key entry)) ""
                  (kd_values entry) root) keys acc in
  List.NoDup (map segment t)
  /\ Forall (every_node distinct_children) t
  /\ Forall (keyed "") t.
Proof.
  induction keys as [|e keys IH]; intros acc Hnd Hall Hk; [cbn; auto|].
  cbn [fold_left].
  destruct (BuildFacts.insert_entry_distinct (Str.split_dot (kd_key e)) ""
              (kd_values e) acc Hnd Hall) as [Hnd' Hall'].
  apply IH; auto. now apply BuildFacts.insert_entry_keyed.
Qed.

(** X25. In the tree that [buildTree] returns no two siblings bear the same
    segment, at any level. *)
Theorem buildTree_distinct_siblings (keys : list KeyData) :
  List.NoDup (map segment (buildTree keys))
  /\ Forall (every_node distinct_children) (buildTree keys).
Proof.
  destruct (buildTree_invariants keys [] (List.NoDup_nil _)
              (List.Forall_nil _) (List.Forall_nil _)) as (Hnd & Hall & _).
  split; assumption.
Qed.

Lemma fold_keeps_found parts keys : forall acc n,
  (forall e, In e keys -> Str.split_dot (kd_key e) <> parts) ->
  tree_find parts acc = Some n ->
  exists n',
    tree_find parts
      (fold_left
         (fun root entry =>
            insert_entry (Str.split_dot (kd_key entry)) ""
              (kd_values entry) root) keys acc) = Some n'
    /\ values n' = values n.
Proof.
  induction keys as [|e keys IH]; intros acc n Hother Hfind; [eauto|].
  cbn [fold_left].
  destruct (BuildFacts.tree_find_other (Str.split_dot (kd_key e)) parts ""
              (kd_values e) acc n) as (n1 & Hf1 & Hv1 & _);
    [intros E; apply (Hother e); [now left|congruence]|exact Hfind|].
  destruct (IH _ n1 (fun e' He' => Hother e' (or_intror He')) Hf1)
    as (n2 & Hf2 & Hv2).
  exists n2. split; [exact Hf2|congruence].
Qed.

(** X26. Every key given to [buildTree], each once, is found in the tree at
    the path of its segments, on a node that carries the values of the
    key; and when the key does not begin with a dot, the [fullKey] of that
    node is the key. *)
Theorem buildTree_finds_keys (keys : list KeyData) (e : KeyData) :
  List.NoDup (map kd_key keys) -> In e keys ->
  exists n,
    tree_find (Str.split_dot (kd_key e)) (buildTree keys) = Some n
    /\ values n = Some (kd_values e)
    /\ (leading_dot (kd_key e) = false -> fullKey_of n = kd_key e).
Proof.
  intros Hnd Hin.
  assert (Hfound : exists n,
            tree_find (Str.split_dot (kd_key e)) (buildTree keys) = Some n
            /\ values n = Some (kd_values e)).
  { unfold buildTree. generalize (@nil TreeNode) as acc.
    induction keys as [|k keys IH]; intros acc; [destruct Hin|].
    inversion Hnd as [|? ? Hfresh Hnd']; subst. cbn [fold_left].
    destruct Hin as [->|Hin]; [|now apply IH].
    destruct (BuildFacts.tree_find_inserted (Str.split_dot (kd_key e)) ""
                (kd_values e) acc (split_nonempty _ _)) as (n & Hf & Hv).
    destruct (fold_keeps_found (Str.split_dot (kd_key e)) keys
                (insert_entry (Str.split_dot (kd_key e)) "" (kd_values e) acc)
                n) as (n' & Hf' & Hv'); [|exact Hf|].
    - intros e' He' Heq. apply StrFacts.split_inj in Heq.
      apply Hfresh. rewrite <- Heq. now apply in_map.
    - exists n'. split; [exact Hf'|congruence]. }
  destruct Hfound as (n & Hfind & Hv). exists n.
  split; [exact Hfind|]. split; [exact Hv|].
  intros Hk.
  destruct (buildTree_invariants keys [] (List.NoDup_nil _)
              (List.Forall_nil _) (List.Forall_nil _)) as (_ & _ & Hkeyed).
  rewrite (BuildFacts.keyed_find _ _ _ _ Hkeyed Hfind).
  now apply BuildFacts.path_key_split.
Qed.

End BuildTree.

Lemma buildTree_finds_keys_witness :
  let keys := [{| kd_key := "a.b"; kd_values := [("en-US", Some "x")] |};
               {| kd_key := "a.c"; kd_values := [("en-US", None)] |}] in
  exists n,
    tree_find ["a"; "c"] (TreeView.buildTree keys) = Some n
    /\ TreeView.values n = Some [("en-US", None)]
    /\ TreeView.fullKey_of n = "a.c".
Proof.
  intros keys.
  destruct (buildTree_finds_keys keys
              {| kd_key := "a.c"; kd_values := [("en-US", None)] |})
    as (n & Hfind & Hv & Hk).
  - repeat constructor; cbn; intuition discriminate.
  - right. now left.
  - exists n. split; [exact Hfind|]. split; [exact Hv|]. now apply Hk.
Defined.

Module CoverFacts.
Import Tree TreeView.

Lemma covered_mono n : forall (S S' : list string -> Prop),
  (forall Q, S Q -> S' Q) -> covered S n -> covered S' n.
Proof.
  induction n as [s f c v IH] using tree_ind'. intros S S' Hsub Hc.
  inversion Hc as [? ? ? ? Hv Hex Hch]; subst.
  constructor; [auto|destruct Hex as [Q HQ]; eauto|].
  rewrite List.Forall_forall in IH, Hch. apply List.Forall_forall.
  intros x Hx. apply (IH x Hx (fun Q => S (s :: Q))); auto.
Qed.

Lemma Forall_covered_mono nodes (S S' : list string -> Prop) :
  (forall Q, S Q -> S' Q) ->
  Forall (covered S) nodes -> Forall (covered S') nodes.
Proof.
  intros Hsub Hall. eapply List.Forall_impl; [|exact Hall].
  intros n. now apply covered_mono.
Qed.

Lemma insert_entry_covered parts : forall ps vals nodes (S : list string -> Prop),
  Forall (covered S) nodes ->
  Forall (covered (fun Q => S Q \/ Q = parts))
    (insert_entry parts ps vals nodes).
Proof.
  induction parts as [|p rest IH]; intros ps vals nodes S Hall.
  - cbn [insert_entry]. eapply Forall_covered_mono; [|exact Hall]. auto.
  - assert (Hchildren : forall c,
              Forall (covered (fun Q => S (p :: Q))) c ->
              Forall (covered (fun Q => S (p :: Q) \/ p :: Q = p :: rest))
                (insert_entry rest (fullKey ps p) vals c)).
    { intros c Hc.
      eapply Forall_covered_mono;
        [|apply (IH (fullKey ps p) vals c (fun Q => S (p :: Q)) Hc)].
      intros Q [HQ| ->]; auto. }
    induction Hall as [|[s f c v] r Hn Hr IHr].
    + rewrite BuildFacts.insert_entry_nil. constructor; [|constructor].
      constructor.
      * intros Hv. right. destruct rest; [reflexivity|congruence].
      * exists rest. now right.
      * apply Hchildren. constructor.
    + rewrite BuildFacts.insert_entry_cons.
      destruct (String.eqb_spec s p) as [->|Hne].
      * constructor; [|eapply Forall_covered_mono; [|exact Hr]; auto].
        inversion Hn as [? ? ? ? Hv Hex Hch]; subst. constructor.
        -- intros Hv'. destruct rest; [now right|left; auto].
        -- destruct Hex as [Q HQ]. exists Q. now left.
        -- now apply Hchildren.
      * constructor; [|exact IHr].
        eapply covered_mono; [|exact Hn]. auto.
Qed.

Lemma covered_leaf_valued n : forall S : list string -> Prop,
  (forall P Q, S P -> S (P ++ Q) -> Q = []) ->
  covered S n -> leaf_valued n.
Proof.
  induction n as [s f c v IH] using tree_ind'. intros S Hfree Hc.
  inversion Hc as [? ? ? ? Hv Hex Hch]; subst.
  constructor.
  - cbn [values children]. intros Hsome.
    destruct c as [|[s0 f0 c0 v0] r]; [reflexivity|].
    inversion Hch as [|? ? Hx _]; subst.
    inversion Hx as [? ? ? ? _ [Q HQ] _]; subst.
    pose proof (Hfree [s] (s0 :: Q) (Hv Hsome) HQ). discriminate.
  - rewrite List.Forall_forall in IH, Hch. apply List.Forall_forall.
    intros x Hx. apply (IH x Hx (fun Q => S (s :: Q))); [|auto].
    intros P Q HP HPQ. exact (Hfree (s :: P) Q HP HPQ).
Qed.

End CoverFacts.

Section LeafValued.
Import Tree TreeView.

Lemma fold_covered keys : forall acc (S : list string -> Prop),
  Forall (covered S) acc ->
  Forall (covered (fun Q => S Q \/ exists e, In e keys
                                             /\ Str.split_dot (kd_key e) = Q))
    (fold_left
       (fun root entry =>
          insert_entry (Str.split_dot (kd_key entry)) "" (kd_values entry)
            root) keys acc).
Proof.
  induction keys as [|e keys IH]; intros acc S Hall.
  - cbn [fold_left]. eapply CoverFacts.Forall_covered_mono; [|exact Hall].
    auto.
  - cbn [fold_left].
    eapply CoverFacts.Forall_covered_mono;
      [|apply IH, (CoverFacts.insert_entry_covered
                     (Str.split_dot (kd_key e)) "" (kd_values e) acc S Hall)].
    intros Q [[HQ| ->]|(e' & He' & <-)]; [now left| |].
    + right. exists e. split; [now left|reflexivity].
    + right. exists e'. split; [now right|reflexivity].
Qed.

(** X27. When no key is a proper prefix of another, the tree that [buildTree]
    returns carries values at its leaves only: a node with values has no
    children. *)
Theorem buildTree_leaf_valued (keys : list KeyData) :
  prefix_free_keys keys -> Forall leaf_valued (buildTree keys).
Proof.
  intros Hfree. unfold buildTree.
  pose proof (fold_covered keys [] (fun _ => False) (List.Forall_nil _))
    as Hcov.
  eapply List.Forall_impl; [|exact Hcov].
  intros n. apply CoverFacts.covered_leaf_valued.
  intros P Q [[]|(a & Ha & <-)] [[]|(b & Hb & Hab)].
  exact (Hfree a b Q Ha Hb (eq_sym Hab)).
Qed.

End LeafValued.

Lemma buildTree_leaf_valued_witness :
  Forall leaf_valued
    (TreeView.buildTree
       [{| kd_key := "a.b"; kd_values := [("en-US", Some "x")] |};
        {| kd_key := "c"; kd_values := [("en-US", None)] |}]).
Proof.
  apply buildTree_leaf_valued.
  intros a b Q [<-|[<-|[]]] [<-|[<-|[]]]; cbn;
    destruct Q; intros E; try reflexivity; discriminate.
Defined.

(** ** Siblings of a key *)

Module SiblingFacts.
Import Siblings.

Lemma append_cons c (s t : string) : String c s +:+ t = String c (s +:+ t).
Proof. reflexivity. Qed.

Lemma append_nil (t : string) : "" +:+ t = t.
Proof. reflexivity. Qed.

Lemma split_cons c s :
  Str.split_dot (String c s)
  = if Ascii.eqb c "." then "" :: Str.split_dot s
    else match Str.split_dot s with
         | h :: t => String c h :: t
         | [] => [String c ""]
         end.
Proof. reflexivity. Qed.

Lemma lastIndexOf_none s :
  lastIndexOf_dot s = None <-> Str.has_dot s = false.
Proof.
  induction s as [|c s IH]; simpl; [tauto|].
  destruct (lastIndexOf_dot s) as [i|].
  - split; [discriminate|]. intros Hd. apply orb_false_iff in Hd as [_ Hd].
    apply IH in Hd. discriminate.
  - destruct (Ascii.eqb c "."); simpl; [split; discriminate|].
    split; [intros _; now apply IH|reflexivity].
Qed.

Lemma removelast_cons {A : Type} (x y : A) l :
  removelast (x :: y :: l) = x :: removelast (y :: l).
Proof. reflexivity. Qed.

Lemma split_two s :
  Str.has_dot s = true -> exists p q rest, Str.split_dot s = p :: q :: rest.
Proof.
  induction s as [|c s IH]; simpl; [discriminate|].
  rewrite split_cons. destruct (Ascii.eqb c ".") eqn:E; simpl.
  - intros _. destruct (Str.split_dot s) as [|h t] eqn:Hs;
      [now destruct (split_nonempty "." s)|eauto].
  - intros Hd. destruct (IH Hd) as (p & q & rest & ->). eauto.
Qed.

(** The parent prefix is the parent path joined, with its trailing dot. *)
Lemma parentPrefix_spec s :
  parentPrefix s
  = match parent_path s with
    | [] => ""
    | P => Str.join_dot P +:+ "."
    end.
Proof.
  unfold parentPrefix, parent_path.
  induction s as [|c s IH]; [reflexivity|].
  cbn [lastIndexOf_dot]. rewrite split_cons.
  destruct (lastIndexOf_dot s) as [i|] eqn:Hlast.
  - assert (Hdot : Str.has_dot s = true).
    { destruct (Str.has_dot s) eqn:E; [reflexivity|].
      apply lastIndexOf_none in E. congruence. }
    destruct (split_two s Hdot) as (p & q & rest & Hs).
    rewrite Hs in *. rewrite removelast_cons in IH.
    replace (S i + 1) with (S (i + 1)) by lia. cbn [String.substring].
    rewrite IH.
    destruct (Ascii.eqb_spec c ".") as [->|Hc].
    + rewrite removelast_cons, removelast_cons. reflexivity.
    + rewrite removelast_cons.
      change (Str.join_dot (String c p :: removelast (q :: rest)))
        with (match removelast (q :: rest) with
              | [] => String c p
              | _ :: _ => String c p +:+ "." +:+ Str.join_dot (removelast (q :: rest))
              end).
      change (Str.join_dot (p :: removelast (q :: rest)))
        with (match removelast (q :: rest) with
              | [] => p
              | _ :: _ => p +:+ "." +:+ Str.join_dot (removelast (q :: rest))
              end).
      destruct (removelast (q :: rest)); reflexivity.
  - apply lastIndexOf_none in Hlast.
    rewrite (StrFacts.split_plain s Hlast).
    destruct (Ascii.eqb_spec c ".") as [->|Hc]; [|reflexivity].
    clear. destruct s; reflexivity.
Qed.

Lemma prefix_append p r : String.prefix p (p +:+ r) = true.
Proof.
  induction p as [|c p IH]; [now destruct r|].
  rewrite append_cons. cbn [String.prefix].
  destruct (ascii_dec c c); [exact IH|congruence].
Qed.

Lemma substring_all s : String.substring 0 (String.length s) s = s.
Proof. induction s as [|c s IH]; [reflexivity|]. simpl. now rewrite IH. Qed.

Lemma prefix_split p : forall k,
  String.prefix p k = true -> k = p +:+ substring_from (String.length p) k.
Proof.
  unfold substring_from.
  induction p as [|c p IH]; intros k Hp.
  - rewrite append_nil. cbn [String.length]. rewrite Nat.sub_0_r.
    symmetry. apply substring_all.
  - destruct k as [|x k]; [discriminate|].
    cbn [String.prefix] in Hp.
    destruct (ascii_dec c x) as [->|]; [|discriminate].
    rewrite append_cons. cbn [String.length String.substring Nat.sub].
    f_equal. now apply IH.
Qed.

Lemma substring_from_append p r :
  substring_from (String.length p) (p +:+ r) = r.
Proof.
  unfold substring_from.
  induction p as [|c p IH].
  - rewrite append_nil. cbn [String.length]. rewrite Nat.sub_0_r.
    apply substring_all.
  - rewrite append_cons. cbn [String.length String.substring Nat.sub].
    exact IH.
Qed.

Lemma removelast_snoc {A : Type} (l : list A) x : removelast (l ++ [x]) = l.
Proof. apply removelast_last. Qed.

Lemma split_snoc P r :
  P <> [] -> Forall (fun x => Str.has_dot x = false) P ->
  Str.has_dot r = false ->
  Str.split_dot (Str.join_dot P +:+ "." +:+ r) = P ++ [r].
Proof.
  intros HP Hd Hr. rewrite <- StrFacts.join_snoc by exact HP.
  apply StrFacts.split_join.
  - now destruct P.
  - apply Forall_app. split; [exact Hd|]. now constructor.
Qed.

Lemma split_last_parts k :
  exists l, Str.split_dot k = parent_path k ++ [l] /\ Str.has_dot l = false.
Proof.
  unfold parent_path.
  destruct (exists_last (split_nonempty "." k)) as (P & l & Hs).
  fold (Str.split_dot k) in Hs.
  exists l. rewrite Hs, removelast_snoc. split; [reflexivity|].
  pose proof (split_dotfree k) as Hd. rewrite Hs in Hd.
  apply Forall_app in Hd as [_ Hd]. now inversion Hd.
Qed.

Lemma parent_path_dotfree k :
  Forall (fun x => Str.has_dot x = false) (parent_path k).
Proof.
  destruct (split_last_parts k) as (l & Hs & _).
  pose proof (split_dotfree k) as Hd. rewrite Hs in Hd.
  now apply Forall_app in Hd as [Hd _].
Qed.

(** The test of the second filter, on a parent path that is not empty. *)
Lemma sibling_test P k :
  P <> [] -> Forall (fun x => Str.has_dot x = false) P ->
  String.prefix (Str.join_dot P +:+ ".") k
  && negb (Str.has_dot
             (substring_from (String.length (Str.join_dot P +:+ ".")) k))
  = true
  <-> parent_path k = P.
Proof.
  intros HP Hd. rewrite andb_true_iff, negb_true_iff. split.
  - intros [Hpre Hrest]. apply prefix_split in Hpre.
    set (r := substring_from _ k) in *. unfold parent_path.
    rewrite Hpre, StrFacts.append_assoc.
    rewrite split_snoc by assumption. apply removelast_snoc.
  - intros <-. destruct (split_last_parts k) as (l & Hs & Hl).
    assert (Hk : k = (Str.join_dot (parent_path k) +:+ ".") +:+ l).
    { rewrite <- (StrFacts.join_split k) at 1. rewrite Hs.
      rewrite StrFacts.join_snoc by exact HP.
      now rewrite StrFacts.append_assoc. }
    rewrite Hk at 2 4. rewrite prefix_append, substring_from_append. auto.
Qed.

Lemma root_test k :
  negb (Str.has_dot k) = true <-> parent_path k = [].
Proof.
  rewrite negb_true_iff. unfold parent_path. split.
  - intros Hd. now rewrite StrFacts.split_plain.
  - intros Hp. destruct (Str.has_dot k) eqn:E; [|reflexivity].
    destruct (split_two k E) as (p & q & rest & Hs).
    rewrite Hs in Hp. discriminate.
Qed.

End SiblingFacts.

(** X28. [getSiblingKeys] returns, in their order, exactly the keys of the
    namespace whose parent path (their segments but the last) is the parent
    path of the selected key. *)
Theorem getSiblingKeys_same_parent (nsData : NamespaceData)
    (selectedKey : string) :
  Siblings.getSiblingKeys nsData selectedKey
  = List.filter (fun k => same_parent (kd_key k) selectedKey)
      (nd_keys nsData).
Proof.
  unfold Siblings.getSiblingKeys, same_parent.
  rewrite SiblingFacts.parentPrefix_spec.
  destruct (parent_path selectedKey) as [|p P] eqn:Hsel.
  - cbn [Str.is_empty]. apply List.filter_ext. intros k.
    apply eq_true_iff_eq. rewrite bool_decide_eq_true.
    apply SiblingFacts.root_test.
  - assert (Hne : Str.is_empty (Str.join_dot (p :: P) +:+ ".") = false).
    { destruct (Str.join_dot (p :: P)); reflexivity. }
    rewrite Hne. apply List.filter_ext. intros k.
    apply eq_true_iff_eq. rewrite bool_decide_eq_true.
    apply SiblingFacts.sibling_test; [discriminate|].
    rewrite <- Hsel. apply SiblingFacts.parent_path_dotfree.
Qed.

(** ** Ensuring a file, and reporting a key twice *)

(** X29. [ensureFile] settles in one call: when it returns a file, calling it
    again returns the same file and changes neither the settings nor the
    disk; and it never changes what a path already held. *)
Theorem ensureFile_settles (settings settings' : AppSettings)
    (langCode ns : string) (w w' : World) (file : TranslationFile) :
  ensureFile settings langCode ns w = (settings', w', Some file) ->
  ensureFile settings' langCode ns w' = (settings', w', Some file)
  /\ forall path x, disk w !! path = Some x -> disk w' !! path = Some x.
Proof.
  intros E.
  destruct (ensureFile_spec _ _ _ _ _ _ _ E)
    as (_ & _ & _ & Hkeep & _ & _ & lang' & Hlang & Hfile).
  split; [|exact Hkeep].
  now apply ensureFile_existing with (lang := lang').
Qed.

Lemma ensureFile_settles_witness :
  let settings :=
    {| rootFolder := Some "/r";
       languages := [{| code := "fr-FR"; files := [] |}];
       folderStructure := Namespaced; serverPort := 5874;
       serverAutoStart := false; deeplApiKey := "" |} in
  let w := {| store := settings; disk := ∅; dirs := ∅; notified := [] |} in
  let '(settings', w', r) := ensureFile settings "fr-FR" "common" w in
  r = Some {| absolutePath := "/r/fr-FR/common.json"; namespace := "common" |}
  /\ ensureFile settings' "fr-FR" "common" w' = (settings', w', r).
Proof.
  cbv zeta.
  destruct (ensureFile _ "fr-FR" "common" _) as [[settings' w'] r] eqn:E.
  assert (Hr : r = Some {| absolutePath := "/r/fr-FR/common.json";
                           namespace := "common" |}).
  { vm_compute in E. now injection E as _ _ <-. }
  split; [exact Hr|]. subst r.
  exact (proj1 (ensureFile_settles _ _ _ _ _ _ _ E)).
Defined.

